(** * Earthquake-simulator: the CUDA wave engine and its WebSocket relay

    A shallow embedding of [engine/quake_cuda_cpml.cu] (command-line
    parser, velocity model, sponge mask, stencil kernel, source
    injection, energy reduction, main loop) and of [server/index.js]
    (frame reassembly and the per-connection engine handle), with the
    properties the specification states about them.

    Conventions.
    - [int] values are integers of [Z]; every arithmetic result of the
      source is reduced to the 32-bit two's complement range by [Int.wrap].
    - [float] values are IEEE 754 binary32 numbers, computed with the
      Standard Library's executable specification [SpecFloat] at
      precision 24 and maximal exponent 128 (round to nearest, ties to
      even).  NaN carries no payload.  Every operation of the source is
      rounded on its own, in the order the source writes it: the
      meaning of the source text, before what a compiler may do to it
      (the build line in the file's heading asks for [-use_fast_math],
      which lets the device fuse or approximate operations).
    - The functions of the C mathematics library ([tanhf], [powf],
      [expf]) and [std::stof] are not part of the repository, and
      neither are the memory of the host, the device and the order in
      which it runs the blocks of a kernel: they are the fields of the
      class [Runtime], and a theorem stated for a [Runtime] holds for
      every instance of it. *)

From Stdlib Require Import ZArith Lia Bool.
From Stdlib Require Import Floats.SpecFloat.
From Stdlib Require Import Ascii.
From stdpp Require Import base list strings.

Local Open Scope Z_scope.

(** ** Machine integers *)

Module Int.
Definition INT_MAX : Z := 2147483647.
Definition INT_MIN : Z := -2147483648.

(** Reduction to the range of a 32-bit [int]. *)
Definition wrap (z : Z) : Z := (z + 2147483648) mod 4294967296 - 2147483648.

Definition in_range (z : Z) : bool := (INT_MIN <=? z) && (z <=? INT_MAX).

Definition add (a b : Z) : Z := wrap (a + b).
Definition sub (a b : Z) : Z := wrap (a - b).
Definition mul (a b : Z) : Z := wrap (a * b).
(** C++ division and remainder truncate toward zero. *)
Definition div (a b : Z) : Z := wrap (Z.quot a b).
Definition rem (a b : Z) : Z := Z.rem a b.
Definition min (a b : Z) : Z := if b <? a then b else a.

(** [(size_t)a * b]: each operand converted to 64-bit unsigned first. *)
Definition size_mul (a b : Z) : Z :=
    ((a mod 18446744073709551616) * (b mod 18446744073709551616))
      mod 18446744073709551616.
End Int.

(** ** Single and double precision numbers *)

Definition float32 : Type := spec_float.

Module f32.
Definition prec : Z := 24.
Definition emax : Z := 128.

Definition zero : float32 := S754_zero false.
Definition nan : float32 := S754_nan.

Definition add : float32 -> float32 -> float32 := SFadd prec emax.
Definition sub : float32 -> float32 -> float32 := SFsub prec emax.
Definition mul : float32 -> float32 -> float32 := SFmul prec emax.
Definition div : float32 -> float32 -> float32 := SFdiv prec emax.
Definition opp : float32 -> float32 := SFopp.
Definition ltb : float32 -> float32 -> bool := SFltb.
Definition leb : float32 -> float32 -> bool := SFleb.
Definition gtb (a b : float32) : bool := SFltb b a.

(** Conversion [float(z)] of an [int]. *)
Definition of_int (z : Z) : float32 := binary_normalize prec emax z 0 false.

(** The literal [m / 10^k] written in decimal with suffix [f]: the
      binary32 number nearest to it. *)
Definition lit (m : positive) (k : nat) : float32 :=
    SFdiv prec emax (S754_finite false m 0)
          (S754_finite false (Z.to_pos (10 ^ Z.of_nat k)) 0).

Definition is_nan (x : float32) : bool :=
    match x with S754_nan => true | _ => false end.
Definition is_zero (x : float32) : bool :=
    match x with S754_zero _ => true | _ => false end.
(** Neither an infinity nor NaN. *)
Definition is_finite (x : float32) : bool :=
    match x with S754_zero _ | S754_finite _ _ _ => true | _ => false end.
End f32.

Module f64.
Definition prec : Z := 53.
Definition emax : Z := 1024.
Definition mul : spec_float -> spec_float -> spec_float := SFmul prec emax.
(** [M_PI], the double nearest to pi. *)
Definition M_PI : spec_float := S754_finite false 7074237752028440 (-51).
(** Promotion of a [float] is exact; the value is unchanged. *)
Definition of_f32 (x : float32) : spec_float := x.
(** Conversion to [float] rounds to nearest. *)
Definition to_f32 (x : spec_float) : float32 :=
    match x with
    | S754_finite s m e => binary_round f32.prec f32.emax s m e
    | _ => x
    end.
End f64.

Declare Scope f32_scope.
Delimit Scope f32_scope with f32.
Infix "+" := f32.add : f32_scope.
Infix "-" := f32.sub : f32_scope.
Infix "*" := f32.mul : f32_scope.
Infix "/" := f32.div : f32_scope.

(** ** Process outcomes and the C++ run-time library *)

(** The exceptions of the standard library the program meets:
    [std::stoi] and [std::stof] throw the first two, a [std::vector]
    asked for more cells than [max_size()] the third, the allocator the
    fourth. *)
Inductive cxx_exception : Type :=
| invalid_argument
| out_of_range
| length_error
| bad_alloc.

(** How a computation of the engine process ends: it returns a value,
    it calls [std::exit] after writing a line to [std::cerr], or an
    exception leaves [main] uncaught (the source has no handler), which
    ends the process through [std::terminate]. *)
Inductive outcome (A : Type) : Type :=
| Returned (a : A)
| Exited (status : Z) (cerr : string)
| Terminated (e : cxx_exception).
Arguments Returned {A} a.
Arguments Exited {A} status cerr.
Arguments Terminated {A} e.

#[global] Instance outcome_ret : MRet outcome := fun A a => Returned a.
#[global] Instance outcome_bind : MBind outcome := fun A B f m =>
  match m with
  | Returned a => f a
  | Exited s msg => Exited s msg
  | Terminated e => Terminated e
  end.

(** A conversion that throws leaves the exception uncaught. *)
Definition throwing {A : Type} (r : cxx_exception + A) : outcome A :=
  match r with
  | inl e => Terminated e
  | inr a => Returned a
  end.

(** What the repository takes from outside: the single precision
    functions of the C mathematics library, [std::stof], the time the
    device reports for a step (in milliseconds), and what the host's
    memory and the device do.
    - [vector_alloc k n] is the exception the construction of the
      [k]-th [std::vector<float>] of the process, of [n] cells, throws,
      if it throws ([std::length_error] above the platform's
      [max_size()], [std::bad_alloc] when the memory is not there).
    - [cuda_setup] is the line [CUDA_OK] writes for the first device
      call of the set-up of [main] that fails, if one fails.
    - [block_order n blocks] is the order in which the [blocks] blocks
      of the energy kernel launched in turn [n] reach their
      [atomicAdd]: every block once, in an order the device chooses. *)
Class Runtime : Type := {
  tanhf : float32 -> float32;
  powf : float32 -> float32 -> float32;
  expf : float32 -> float32;
  stof : string -> cxx_exception + float32;
  elapsed_ms : Z -> float32;
  vector_alloc : nat -> Z -> option cxx_exception;
  cuda_setup : option string;
  block_order : Z -> Z -> list Z;
  block_order_all : forall n blocks, Permutation (block_order n blocks) (seqZ 0 blocks)
}.

(** [std::stoi], from the C++ standard: [strtol] in base 10 (leading
    white space, an optional sign, then the longest run of digits; what
    follows the digits is ignored), [invalid_argument] when there is no
    digit, [out_of_range] when the value is no [int]. *)
Definition isspace (c : ascii) : bool :=
  let n := nat_of_ascii c in
  Nat.eqb n 32 || (Nat.leb 9 n && Nat.leb n 13).

Definition digit (c : ascii) : option Z :=
  let n := Z.of_nat (nat_of_ascii c) in
  if (48 <=? n) && (n <=? 57) then Some (n - 48) else None.

Fixpoint skip_spaces (s : string) : string :=
  match s with
  | String c s' => if isspace c then skip_spaces s' else s
  | EmptyString => s
  end.

Fixpoint digits (acc : option Z) (s : string) : option Z :=
  match s with
  | String c s' =>
      match digit c with
      | Some d => digits (Some (10 * default 0 acc + d)) s'
      | None => acc
      end
  | EmptyString => acc
  end.

Definition sign_of (s : string) : bool * string :=
  match s with
  | String "-" s' => (true, s')
  | String "+" s' => (false, s')
  | _ => (false, s)
  end.

Definition stoi (str : string) : cxx_exception + Z :=
  let '(neg, s) := sign_of (skip_spaces str) in
  match digits None s with
  | None => inl invalid_argument
  | Some v =>
      let v := if neg then - v else v in
      if Int.in_range v then inr v else inl out_of_range
  end.

(** A decimal integer and nothing else: an optional sign and one or
    more digits up to the end of the string. *)
Fixpoint all_digits (s : string) : bool :=
  match s with
  | String c s' => match digit c with Some _ => all_digits s' | None => false end
  | EmptyString => true
  end.

Definition is_int_literal (str : string) : bool :=
  let '(_, s) := sign_of str in
  match s with
  | EmptyString => false
  | _ => all_digits s
  end.

(** ** Parameters *)

Definition CFL_DEFAULT : float32 := f32.lit 45 2.
Definition VISC_ALPHA : float32 := f32.lit 2 3.
Definition REPORT_STEPS : Z := 100.
Definition ENERGY_THREADS : Z := 256.

Module Params.
Record t : Type := mk {
  nx : Z; ny : Z;
  dx : float32; dt : float32;
  steps : Z; frames_every : Z;
  pml : Z;
  c0 : float32; amp : float32; f0 : float32;
  sx : Z; sy : Z;
  cfl : float32;
  model : string
}.

(** The default member initialisers of [struct Params]. *)
Definition default : t := {|
  nx := 512; ny := 512;
  dx := f32.of_int 5; dt := f32.lit 6 4;
  steps := 1000000000; frames_every := 10;
  pml := 20;
  c0 := f32.of_int 3000; amp := f32.lit 5 2; f0 := f32.of_int 8;
  sx := -1; sy := -1;
  cfl := CFL_DEFAULT;
  model := "homogeneous"
|}.

Definition set_nx (v : Z) (p : t) : t :=
  mk v (ny p) (dx p) (dt p) (steps p) (frames_every p) (pml p) (c0 p) (amp p) (f0 p) (sx p) (sy p) (cfl p) (model p).
Definition set_ny (v : Z) (p : t) : t :=
  mk (nx p) v (dx p) (dt p) (steps p) (frames_every p) (pml p) (c0 p) (amp p) (f0 p) (sx p) (sy p) (cfl p) (model p).
Definition set_dx (v : float32) (p : t) : t :=
  mk (nx p) (ny p) v (dt p) (steps p) (frames_every p) (pml p) (c0 p) (amp p) (f0 p) (sx p) (sy p) (cfl p) (model p).
Definition set_dt (v : float32) (p : t) : t :=
  mk (nx p) (ny p) (dx p) v (steps p) (frames_every p) (pml p) (c0 p) (amp p) (f0 p) (sx p) (sy p) (cfl p) (model p).
Definition set_steps (v : Z) (p : t) : t :=
  mk (nx p) (ny p) (dx p) (dt p) v (frames_every p) (pml p) (c0 p) (amp p) (f0 p) (sx p) (sy p) (cfl p) (model p).
Definition set_frames_every (v : Z) (p : t) : t :=
  mk (nx p) (ny p) (dx p) (dt p) (steps p) v (pml p) (c0 p) (amp p) (f0 p) (sx p) (sy p) (cfl p) (model p).
Definition set_pml (v : Z) (p : t) : t :=
  mk (nx p) (ny p) (dx p) (dt p) (steps p) (frames_every p) v (c0 p) (amp p) (f0 p) (sx p) (sy p) (cfl p) (model p).
Definition set_c0 (v : float32) (p : t) : t :=
  mk (nx p) (ny p) (dx p) (dt p) (steps p) (frames_every p) (pml p) v (amp p) (f0 p) (sx p) (sy p) (cfl p) (model p).
Definition set_amp (v : float32) (p : t) : t :=
  mk (nx p) (ny p) (dx p) (dt p) (steps p) (frames_every p) (pml p) (c0 p) v (f0 p) (sx p) (sy p) (cfl p) (model p).
Definition set_f0 (v : float32) (p : t) : t :=
  mk (nx p) (ny p) (dx p) (dt p) (steps p) (frames_every p) (pml p) (c0 p) (amp p) v (sx p) (sy p) (cfl p) (model p).
Definition set_sx (v : Z) (p : t) : t :=
  mk (nx p) (ny p) (dx p) (dt p) (steps p) (frames_every p) (pml p) (c0 p) (amp p) (f0 p) v (sy p) (cfl p) (model p).
Definition set_sy (v : Z) (p : t) : t :=
  mk (nx p) (ny p) (dx p) (dt p) (steps p) (frames_every p) (pml p) (c0 p) (amp p) (f0 p) (sx p) v (cfl p) (model p).
Definition set_cfl (v : float32) (p : t) : t :=
  mk (nx p) (ny p) (dx p) (dt p) (steps p) (frames_every p) (pml p) (c0 p) (amp p) (f0 p) (sx p) (sy p) v (model p).
Definition set_model (v : string) (p : t) : t :=
  mk (nx p) (ny p) (dx p) (dt p) (steps p) (frames_every p) (pml p) (c0 p) (amp p) (f0 p) (sx p) (sy p) (cfl p) v.
End Params.
Abbreviation Params := Params.t.

(** ** The command-line parser *)

(** [die]: the message on [std::cerr], then [std::exit(1)]. *)
Definition die {A : Type} (m : string) : outcome A := Exited 1 m.

(** The lambda [need]: the argument after the option, or [die] when the
    option is the last argument. *)
Definition need (rest : list string) : outcome string :=
  match rest with
  | [] => die "Missing value"
  | v :: _ => Returned v
  end.

(** One turn of the loop of [parse_args]: [a] is [argv[i]] and [rest]
    the arguments after it. *)
Definition parse_option `{Runtime} (p : Params) (a : string) (rest : list string)
  : outcome Params :=
  if String.eqb a "--nx" then v ← need rest; n ← throwing (stoi v); mret (Params.set_nx n p)
  else if String.eqb a "--ny" then v ← need rest; n ← throwing (stoi v); mret (Params.set_ny n p)
  else if String.eqb a "--dx" then v ← need rest; x ← throwing (stof v); mret (Params.set_dx x p)
  else if String.eqb a "--dt" then v ← need rest; x ← throwing (stof v); mret (Params.set_dt x p)
  else if String.eqb a "--steps" then v ← need rest; n ← throwing (stoi v); mret (Params.set_steps n p)
  else if String.eqb a "--frames_every" then v ← need rest; n ← throwing (stoi v); mret (Params.set_frames_every n p)
  else if String.eqb a "--pml" then v ← need rest; n ← throwing (stoi v); mret (Params.set_pml n p)
  else if String.eqb a "--sponge" then v ← need rest; n ← throwing (stoi v); mret (Params.set_pml n p)
  else if String.eqb a "--c0" then v ← need rest; x ← throwing (stof v); mret (Params.set_c0 x p)
  else if String.eqb a "--amp" then v ← need rest; x ← throwing (stof v); mret (Params.set_amp x p)
  else if String.eqb a "--f0" then v ← need rest; x ← throwing (stof v); mret (Params.set_f0 x p)
  else if String.eqb a "--sx" then v ← need rest; n ← throwing (stoi v); mret (Params.set_sx n p)
  else if String.eqb a "--sy" then v ← need rest; n ← throwing (stoi v); mret (Params.set_sy n p)
  else if String.eqb a "--cfl" then v ← need rest; x ← throwing (stof v); mret (Params.set_cfl x p)
  else if String.eqb a "--model" then v ← need rest; mret (Params.set_model v p)
  else die ("Unknown arg: " +:+ a).

(** The loop [for (int i = 1; i < argc; ++i)]: every turn that returns
    has consumed the option and its value. *)
Fixpoint parse_loop `{Runtime} (p : Params) (args : list string) : outcome Params :=
  match args with
  | [] => Returned p
  | a :: rest =>
      match parse_option p a rest with
      | Returned p' =>
          match rest with
          | [] => Returned p'
          | _ :: rest' => parse_loop p' rest'
          end
      | Exited s m => Exited s m
      | Terminated e => Terminated e
      end
  end.

(** The two lines after the loop of [parse_args]: the source defaults
    to the centre of the grid. *)
Definition centre_source (p : Params) : Params :=
  let p := if Params.sx p <? 0 then Params.set_sx (Int.div (Params.nx p) 2) p else p in
  if Params.sy p <? 0 then Params.set_sy (Int.div (Params.ny p) 2) p else p.

Definition parse_args `{Runtime} (argv : list string) : outcome Params :=
  p ← parse_loop Params.default (tail argv);
  mret (centre_source p).

(** ** Arrays *)

#[global] Instance float32_inhabited : Inhabited float32 := populate f32.zero.

(** [0, 1, ..., n-1]: the values of [i] in [for (int i = 0; i < n; ++i)]. *)
Definition zrange (n : Z) : list Z := seqZ 0 n.

(** [u[k]] read and written.  An access outside the array is undefined
    in the source; here a read gives [0.0f] and a write does nothing. *)
Definition load (u : list float32) (k : Z) : float32 :=
  if k <? 0 then f32.zero else u !!! Z.to_nat k.

Definition store (u : list float32) (k : Z) (v : float32) : list float32 :=
  if k <? 0 then u else <[Z.to_nat k := v]> u.

(** [j * nx + i] in [int] arithmetic. *)
Definition idx (nx i j : Z) : Z := Int.add (Int.mul j nx) i.

(** ** Velocity model *)

(** The loops of [fillCField], on the vector as [resize] has left it.
    [main] hands in a vector of zeros, so the cells [resize] keeps and
    the cells it adds are zero. *)
Definition fill_model (p : Params) : list float32 :=
  let nx := Params.nx p in
  let ny := Params.ny p in
  let c0 := Params.c0 p in
  let cfield := replicate (Z.to_nat (Int.mul nx ny)) f32.zero in
  if String.eqb (Params.model p) "homogeneous" then
    foldl (fun cf i => store cf i c0) cfield (zrange (Int.mul nx ny))
  else if String.eqb (Params.model p) "two_layer" then
    let mid := Int.div ny 2 in
    foldl (fun cf j =>
      foldl (fun cf i =>
        store cf (idx nx i j)
              (if mid <=? j then (c0 * f32.lit 15 1)%f32 else c0))
        cf (zrange nx))
      cfield (zrange ny)
  else if String.eqb (Params.model p) "circle" then
    let cx := Int.div nx 2 in
    let cy := Int.div ny 2 in
    let r2 := ((f32.of_int nx * f32.lit 2 1) * (f32.of_int nx * f32.lit 2 1))%f32 in
    foldl (fun cf j =>
      foldl (fun cf i =>
        let dx := Int.sub i cx in
        let dy := Int.sub j cy in
        let d2 := (f32.of_int dx * f32.of_int dx + f32.of_int dy * f32.of_int dy)%f32 in
        store cf (idx nx i j)
              (if f32.ltb d2 r2 then (c0 * f32.lit 7 1)%f32 else c0))
        cf (zrange nx))
      cfield (zrange ny)
  else
    foldl (fun cf i => store cf i c0) cfield (zrange (Int.mul nx ny)).

(** [fillCField]: [cfield.resize(nx * ny)], then the loops.  The [int]
    product becomes a [size_t]; a negative one is then above
    [max_size()] and [resize] throws [std::length_error], which nothing
    catches.  The vector [main] hands in has [(size_t)nx * ny] cells,
    never fewer than a product that is not negative, so [resize] has
    nothing to allocate. *)
Definition fillCField (p : Params) : outcome (list float32) :=
  if Int.mul (Params.nx p) (Params.ny p) <? 0 then Terminated length_error
  else Returned (fill_model p).

(** ** Source wavelet *)

Definition ricker `{Runtime} (t f0 : float32) : float32 :=
  let a := f64.to_f32
             (f64.mul (f64.mul f64.M_PI (f64.of_f32 f0))
                      (f64.of_f32 (t - f32.of_int 1 / f0)%f32)) in
  let a2 := (a * a)%f32 in
  ((f32.of_int 1 - f32.of_int 2 * a2) * expf (f32.opp a2))%f32.

(** ** Sponge mask *)

(** Distance of cell [(i, j)] to the nearest of the four edges. *)
Definition edge_distance (nx ny i j : Z) : Z :=
  let di := Int.min i (Int.sub (Int.sub nx 1) i) in
  let dj := Int.min j (Int.sub (Int.sub ny 1) j) in
  Int.min di dj.

(** [float(w - d) / float(w)]. *)
Definition sponge_ratio (w d : Z) : float32 :=
  (f32.of_int (Int.sub w d) / f32.of_int w)%f32.

Definition make_sponge `{Runtime} (nx ny w : Z) : list float32 :=
  let s := replicate (Z.to_nat (Int.size_mul nx ny)) f32.zero in
  if w <=? 0 then s
  else
    foldl (fun s j =>
      foldl (fun s i =>
        let d := edge_distance nx ny i j in
        if d <? w then store s (idx nx i j) (powf (sponge_ratio w d) (f32.of_int 4))
        else s)
        s (zrange nx))
      s (zrange ny).

(** ** Device kernels *)

(** The guard of [step_kernel] and [add_source]: the cell lies on the
    boundary ring or outside the grid. *)
Definition on_ring (nx ny i j : Z) : bool :=
  (i <=? 0) || (j <=? 0) || (Int.sub nx 1 <=? i) || (Int.sub ny 1 <=? j).

(** The value thread [k] of [step_kernel] computes for [u2[k]]. *)
Definition step_value `{Runtime} (u0 u1 c sponge : list float32)
    (nx : Z) (dt dx alpha : float32) (k : Z) : float32 :=
  let uC := load u1 k in
  let uL := load u1 (Int.sub k 1) in
  let uR := load u1 (Int.add k 1) in
  let uD := load u1 (Int.sub k nx) in
  let uU := load u1 (Int.add k nx) in
  let lap := (uL + uR + uD + uU - f32.of_int 4 * uC)%f32 in
  let dudt := ((load u1 k - load u0 k) / dt)%f32 in
  let dudtL := ((load u1 (Int.sub k 1) - load u0 (Int.sub k 1)) / dt)%f32 in
  let dudtR := ((load u1 (Int.add k 1) - load u0 (Int.add k 1)) / dt)%f32 in
  let dudtD := ((load u1 (Int.sub k nx) - load u0 (Int.sub k nx)) / dt)%f32 in
  let dudtU := ((load u1 (Int.add k nx) - load u0 (Int.add k nx)) / dt)%f32 in
  let lap_dudt := (dudtL + dudtR + dudtD + dudtU - f32.of_int 4 * dudt)%f32 in
  let coef := ((load c k * dt / dx) * (load c k * dt / dx))%f32 in
  let un := (f32.of_int 2 * uC - load u0 k + coef * lap - alpha * dt * lap_dudt)%f32 in
  let sp := load sponge k in
  let un :=
    if f32.gtb sp f32.zero then
      let d := (f32.of_int 1 - f32.lit 3 2 * sp)%f32 in
      let d := if f32.ltb d (f32.of_int 0) then f32.of_int 0 else d in
      (un * d)%f32
    else un in
  tanhf (f32.lit 9 1 * un)%f32.

(** The thread of [step_kernel] with global index [(i, j)]. *)
Definition step_kernel `{Runtime} (u0 u1 : list float32) (u2 : list float32)
    (c sponge : list float32) (nx ny : Z) (dt dx alpha : float32)
    (i j : Z) : list float32 :=
  if on_ring nx ny i j then u2
  else
    let k := idx nx i j in
    store u2 k (step_value u0 u1 c sponge nx dt dx alpha k).

(** The threads of a launch with [block(16, 16)] and
    [grid((nx + 15) / 16, (ny + 15) / 16)], by their global indices. *)
Definition launch_threads (nx ny : Z) : list (Z * Z) :=
  let gx := Int.div (Int.add nx 15) 16 in
  let gy := Int.div (Int.add ny 15) 16 in
  j ← zrange (16 * gy); i ← zrange (16 * gx); [(i, j)].

(** A launch of [step_kernel]: the threads run in the order [sched]. *)
Definition step_launch `{Runtime} (sched : list (Z * Z)) (u0 u1 u2 c sponge : list float32)
    (nx ny : Z) (dt dx alpha : float32) : list float32 :=
  foldl (fun u2 ij => step_kernel u0 u1 u2 c sponge nx ny dt dx alpha ij.1 ij.2)
        u2 sched.

Definition atomicAdd (u : list float32) (k : Z) (v : float32) : list float32 :=
  store u k (load u k + v)%f32.

(** [dx] and [dy] of [add_source] run from [-R] to [R] with [R = 3]. *)
Definition source_offsets : list Z := map (fun d => d - 3) (zrange 7).

Definition source_weight `{Runtime} (ddx ddy : Z) : float32 :=
  expf ((f32.opp (f32.lit 5 1)
          * f32.of_int (Int.add (Int.mul ddx ddx) (Int.mul ddy ddy)))
        / f32.of_int 9)%f32.

(** [add_source] is launched with a single thread. *)
Definition add_source `{Runtime} (u : list float32) (nx ny sx sy : Z) (val : float32)
  : list float32 :=
  foldl (fun u ddy =>
    foldl (fun u ddx =>
      let x := Int.add sx ddx in
      let y := Int.add sy ddy in
      if on_ring nx ny x y then u
      else atomicAdd u (idx nx x y) (val * source_weight ddx ddy)%f32)
      u source_offsets)
    u source_offsets.

(** The strides [s = blockDim.x / 2; s > 0; s >>= 1]. *)
Fixpoint strides (fuel : nat) (s : Z) : list Z :=
  match fuel with
  | O => []
  | S fuel' => if 0 <? s then s :: strides fuel' (Z.shiftr s 1) else []
  end.

(** One block of [sum_energy_kernel]: the value its thread 0 adds to
    [*out_energy].  Within a round the threads [tid < s] write
    [sdata[tid]] and read [sdata[tid + s]], which no thread of the round
    writes. *)
Definition energy_block (u : list float32) (N : Z) (b : Z) : float32 :=
  let sdata := map (fun tid =>
                 let i := b * ENERGY_THREADS + tid in
                 if i <? N then (load u i * load u i)%f32 else f32.zero)
                 (zrange ENERGY_THREADS) in
  let sdata := foldl (fun sdata s =>
                 foldl (fun sdata tid =>
                   store sdata tid (load sdata tid + load sdata (tid + s))%f32)
                   sdata (zrange s))
                 sdata (strides 32 (ENERGY_THREADS / 2)) in
  load sdata 0.

(** The launch of [sum_energy_kernel] on [blocks] blocks; the blocks add
    to [*out_energy] in the order [sched]. *)
Definition sum_energy_kernel (sched : list Z) (u : list float32) (out_energy : float32) (N : Z)
  : float32 :=
  foldl (fun e b => (e + energy_block u N b)%f32) out_energy sched.

(** ** Output of the engine *)

(** The bit pattern of a binary32 number and its four bytes in memory
    (little endian), as [fwrite] sends them. *)
Definition f32_bits (x : float32) : Z :=
  let sign (s : bool) := if s then 2147483648 else 0 in
  match x with
  | S754_zero s => sign s
  | S754_infinity s => sign s + 2139095040
  | S754_nan => 2143289344
  | S754_finite s m e =>
      sign s + (if Zpos m <? 8388608 then Zpos m
                else (e + 150) * 8388608 + (Zpos m - 8388608))
  end.

Definition f32_bytes (x : float32) : list Z :=
  let b := f32_bits x in
  [b mod 256; (b / 256) mod 256; (b / 65536) mod 256; (b / 16777216) mod 256].

(** What the process writes: the lines on [stderr] and the blocks
    [fwrite] puts on [stdout]. *)
Inductive output : Type :=
| Header (nx ny : Z) (dt : float32) (frames_every : Z)
| Perf (step_ms_avg : float32)
| Energy (val : float32)
| Frame (bytes : list Z).

Definition frames_of (out : list output) : list (list Z) :=
  omap (fun o => match o with Frame b => Some b | _ => None end) out.

Definition energies_of (out : list output) : list float32 :=
  omap (fun o => match o with Energy v => Some v | _ => None end) out.

(** ** The main loop *)

(** Lines 330-331 of [main]: the time step is cut to the stability
    bound. *)
Definition dtmax (P : Params) : float32 :=
  (Params.cfl P * Params.dx P / (f32.lit 141421356 8 * Params.c0 P))%f32.

Definition resolve_dt (P : Params) : Params :=
  if f32.gtb (Params.dt P) (dtmax P) then Params.set_dt (dtmax P) P else P.

Record MainState : Type := {
  d_u0 : list float32;
  d_u1 : list float32;
  d_u2 : list float32;
  sim_t : float32;
  acc : float32;
  out : list output;
  (** [n % P.frames_every] with a zero divisor: the process is gone. *)
  crashed : bool
}.

(** [N = (size_t)P.nx * P.ny]. *)
Definition cells (P : Params) : Z := Int.size_mul (Params.nx P) (Params.ny P).

(** The state when the loop is entered: the three device buffers
    cleared, the header line written. *)
Definition main_init (P : Params) : MainState := {|
  d_u0 := replicate (Z.to_nat (cells P)) f32.zero;
  d_u1 := replicate (Z.to_nat (cells P)) f32.zero;
  d_u2 := replicate (Z.to_nat (cells P)) f32.zero;
  sim_t := f32.of_int 0;
  acc := f32.of_int 0;
  out := [Header (Params.nx P) (Params.ny P) (Params.dt P) (Params.frames_every P)];
  crashed := false
|}.

(** The report every [REPORT_STEPS] steps: the average step time, then
    the energy of [d_u1], the blocks adding to it in the order the
    device has them do so in this turn. *)
Definition report `{Runtime} (P : Params) (st : MainState) (n : Z) : MainState :=
  if (Int.rem n REPORT_STEPS =? 0) && (0 <? n) then
    let N := cells P in
    let blocks := Int.wrap ((N + ENERGY_THREADS - 1) / ENERGY_THREADS) in
    let h_energy := sum_energy_kernel (block_order n blocks) (d_u1 st) f32.zero N in
    {| d_u0 := d_u0 st; d_u1 := d_u1 st; d_u2 := d_u2 st; sim_t := sim_t st;
       acc := f32.of_int 0;
       out := out st ++ [Perf (acc st / f32.of_int REPORT_STEPS)%f32; Energy h_energy];
       crashed := crashed st |}
  else st.

(** The frame every [frames_every] steps: [N] values of [d_u1]. *)
Definition emit_frame (P : Params) (st : MainState) (n : Z) : MainState :=
  if Params.frames_every P =? 0 then
    {| d_u0 := d_u0 st; d_u1 := d_u1 st; d_u2 := d_u2 st; sim_t := sim_t st;
       acc := acc st; out := out st; crashed := true |}
  else if Int.rem n (Params.frames_every P) =? 0 then
    {| d_u0 := d_u0 st; d_u1 := d_u1 st; d_u2 := d_u2 st; sim_t := sim_t st;
       acc := acc st;
       out := out st ++ [Frame (concat (map f32_bytes (take (Z.to_nat (cells P)) (d_u1 st))))];
       crashed := crashed st |}
  else st.

(** The body of [for (int n = 0; n < P.steps; ++n)]. *)
Definition main_step `{Runtime} (P : Params) (c sponge : list float32)
    (st : MainState) (n : Z) : MainState :=
  if crashed st then st
  else
    let u2 := step_launch (launch_threads (Params.nx P) (Params.ny P))
                (d_u0 st) (d_u1 st) (d_u2 st) c sponge
                (Params.nx P) (Params.ny P) (Params.dt P) (Params.dx P) VISC_ALPHA in
    let src := (Params.amp P * ricker (sim_t st) (Params.f0 P))%f32 in
    let u2 := add_source u2 (Params.nx P) (Params.ny P) (Params.sx P) (Params.sy P) src in
    let st := {| d_u0 := d_u1 st; d_u1 := u2; d_u2 := d_u0 st;
                 sim_t := (sim_t st + Params.dt P)%f32;
                 acc := (acc st + elapsed_ms n)%f32;
                 out := out st; crashed := false |} in
    emit_frame P (report P st n) n.

(** The state of the process when [k] turns of the loop have completed
    ([k] is at most [P.steps]; the process may be killed at any turn,
    and a device call that fails under [CUDA_OK] ends it in that turn,
    which then does not complete).  The velocity field is the one
    [fillCField] has returned. *)
Definition main_loop `{Runtime} (P : Params) (k : nat) : MainState :=
  foldl (main_step P (fill_model P) (make_sponge (Params.nx P) (Params.ny P) (Params.pml P)))
        (main_init P) (zrange (Z.of_nat k)).

(** The construction of the [k]-th [std::vector<float>], of [n] cells,
    each zero.  No implementation has a [max_size()] of [2^62] cells of
    four bytes: from there on the constructor throws
    [std::length_error]; below, the platform decides. *)
Definition vector `{Runtime} (k : nat) (n : Z) : outcome (list float32) :=
  if 4611686018427387904 <=? n then Terminated length_error
  else match vector_alloc k n with
       | Some e => Terminated e
       | None => Returned (replicate (Z.to_nat n) f32.zero)
       end.

(** The device calls of the set-up (lines 343-352), each under
    [CUDA_OK]: the first that fails writes its line and the process
    exits with status 1. *)
Definition device_setup `{Runtime} : outcome unit :=
  match cuda_setup with
  | Some line => Exited 1 line
  | None => Returned ()
  end.

(** [main] after the parser: the time step, the three vectors of the
    host ([h_c], which [fillCField] fills, [h_frame], and the vector of
    [make_sponge]), the set-up of the device, the header line and the
    loop run to its end.  What ends the process before the header line
    leaves nothing of the run on [stdout] and no header on [stderr]. *)
Definition main_run `{Runtime} (P : Params) : outcome MainState :=
  let P' := resolve_dt P in
  _ ← vector 0 (cells P');
  _ ← fillCField P';
  _ ← vector 1 (cells P');
  _ ← vector 2 (cells P');
  _ ← device_setup;
  mret (main_loop P' (Z.to_nat (Params.steps P))).

Definition main `{Runtime} (argv : list string) : outcome MainState :=
  P ← parse_args argv;
  main_run P.

(** ** The relay ([server/index.js]) *)

Module Relay.

(** What [ws.send] is given. *)
Inductive message : Type :=
| Meta (nx ny : nat)
| Analytics (key value : string)
| Binary (frame : list Z).

(** A complete line of the engine's [stderr], by the regular expression
    of the handler that matches it (the header's two groups of digits
    are read as numbers by the unary plus). *)
Inductive stderr_line : Type :=
| HeaderLine (nx ny : nat)
| PerfLine (value : string)
| EnergyLine (value : string)
| OtherLine.

(** The engines the server has spawned, by process: running, sent the
    signal of [kill()] and not yet gone, or gone (its [exit] event has
    fired). *)
Inductive proc_status : Type :=
| Running
| Signalled
| Gone.

(** The configuration of a start command, as the strings [spawn] gets. *)
Record config : Type := {
  cfg_nx : string; cfg_ny : string; cfg_dx : string; cfg_dt : string;
  cfg_sponge : string; cfg_c0 : string; cfg_amp : string; cfg_f0 : string;
  cfg_model : string;
  cfg_source : option (string * string)
}.

Definition engine_args (cfg : config) : list string :=
  ["--nx"; cfg_nx cfg; "--ny"; cfg_ny cfg; "--dx"; cfg_dx cfg; "--dt"; cfg_dt cfg;
   "--steps"; "1000000000"; "--frames_every"; "60"; "--pml"; cfg_sponge cfg;
   "--c0"; cfg_c0 cfg; "--amp"; cfg_amp cfg; "--f0"; cfg_f0 cfg;
   "--model"; cfg_model cfg]
  ++ match cfg_source cfg with
     | Some (sx, sy) => ["--sx"; sx; "--sy"; sy]
     | None => []
     end.

(** The state of one connection (the fields the server hangs on [ws])
    and the processes spawned for it; a process is named by its position
    in [procs]. *)
Record session : Type := {
  engineProc : option nat;
  stdoutBuffer : list Z;
  frameSize : nat;
  is_open : bool;
  sent : list message;
  procs : list (proc_status * list string)
}.

Definition connected : session := {|
  engineProc := None; stdoutBuffer := []; frameSize := 0;
  is_open := true; sent := []; procs := []
|}.

(** [kill()]: the process is sent the signal; it is gone only when its
    [exit] event fires. *)
Definition kill (p : nat) (procs : list (proc_status * list string))
  : list (proc_status * list string) :=
  match procs !! p with
  | Some (Running, a) => <[p := (Signalled, a)]> procs
  | _ => procs
  end.

Definition stopEngine (ws : session) : session :=
  let procs' := match engineProc ws with
                | Some p => kill p (procs ws)
                | None => procs ws
                end in
  {| engineProc := None; stdoutBuffer := []; frameSize := 0;
     is_open := is_open ws; sent := sent ws; procs := procs' |}.

Definition startEngine (ws : session) (cfg : config) : session :=
  let ws := stopEngine ws in
  {| engineProc := Some (length (procs ws));
     stdoutBuffer := []; frameSize := 0;
     is_open := is_open ws; sent := sent ws;
     procs := procs ws ++ [(Running, engine_args cfg)] |}.

(** [ws.send]: nothing leaves a socket that is not open. *)
Definition ws_send (ws : session) (m : message) : list message :=
  if is_open ws then sent ws ++ [m] else sent ws.

(** The handler of a line on [stderr]. *)
Definition on_stderr_line (ws : session) (l : stderr_line) : session :=
  match l with
  | HeaderLine nx ny =>
      {| engineProc := engineProc ws; stdoutBuffer := stdoutBuffer ws;
         frameSize := nx * ny * 4;
         is_open := is_open ws; sent := ws_send ws (Meta nx ny); procs := procs ws |}
  | PerfLine v =>
      {| engineProc := engineProc ws; stdoutBuffer := stdoutBuffer ws;
         frameSize := frameSize ws;
         is_open := is_open ws; sent := ws_send ws (Analytics "gpu" v); procs := procs ws |}
  | EnergyLine v =>
      {| engineProc := engineProc ws; stdoutBuffer := stdoutBuffer ws;
         frameSize := frameSize ws;
         is_open := is_open ws; sent := ws_send ws (Analytics "energy" v); procs := procs ws |}
  | OtherLine => ws
  end.

(** [while (ws.stdoutBuffer.length >= ws.frameSize)]: a frame is cut
    from the front of the buffer and sent.  [fuel] bounds the turns. *)
Fixpoint forward (fuel : nat) (size : nat) (buf : list Z) (sent : list message)
  : list Z * list message :=
  match fuel with
  | O => (buf, sent)
  | S fuel' =>
      if (size <=? length buf)%nat
      then forward fuel' size (drop size buf) (sent ++ [Binary (take size buf)])
      else (buf, sent)
  end.

(** The handler of a chunk on [stdout]. *)
Definition on_stdout (ws : session) (chunk : list Z) : session :=
  if negb (is_open ws) then ws
  else
    let buf := stdoutBuffer ws ++ chunk in
    if (frameSize ws =? 0)%nat then
      {| engineProc := engineProc ws; stdoutBuffer := buf; frameSize := frameSize ws;
         is_open := is_open ws; sent := sent ws; procs := procs ws |}
    else
      let '(buf', sent') := forward (length buf) (frameSize ws) buf (sent ws) in
      {| engineProc := engineProc ws; stdoutBuffer := buf'; frameSize := frameSize ws;
         is_open := is_open ws; sent := sent'; procs := procs ws |}.

(** The handler of the [exit] event of process [p]. *)
Definition on_exit (ws : session) (p : nat) : session :=
  {| engineProc := if decide (engineProc ws = Some p) then None else engineProc ws;
     stdoutBuffer := stdoutBuffer ws; frameSize := frameSize ws;
     is_open := is_open ws; sent := sent ws;
     procs := match procs ws !! p with
              | Some (_, a) => <[p := (Gone, a)]> (procs ws)
              | None => procs ws
              end |}.

(** The handler of the socket's [close] event. *)
Definition on_close (ws : session) : session :=
  let ws := stopEngine ws in
  {| engineProc := engineProc ws; stdoutBuffer := stdoutBuffer ws;
     frameSize := frameSize ws; is_open := false; sent := sent ws; procs := procs ws |}.

(** What can happen to a connection. *)
Inductive event : Type :=
| Start (cfg : config)
| Stop
| Close
| Exit (p : nat)
| Stdout (chunk : list Z)
| Stderr (l : stderr_line).

Definition handle (ws : session) (e : event) : session :=
  match e with
  | Start cfg => if is_open ws then startEngine ws cfg else ws
  | Stop => if is_open ws then stopEngine ws else ws
  | Close => on_close ws
  | Exit p => on_exit ws p
  | Stdout chunk => on_stdout ws chunk
  | Stderr l => on_stderr_line ws l
  end.

(** An [exit] event fires once, for a process that exists and is not
    gone yet; the other events can come at any time. *)
Definition enabled (ws : session) (e : event) : Prop :=
  match e with
  | Exit p => exists st a, procs ws !! p = Some (st, a) /\ st <> Gone
  | _ => True
  end.

Inductive reachable : session -> Prop :=
| reach_connected : reachable connected
| reach_step ws e : reachable ws -> enabled ws e -> reachable (handle ws e).

Definition live (ws : session) (p : nat) : Prop :=
  exists st a, procs ws !! p = Some (st, a) /\ st <> Gone.

Definition running (ws : session) (p : nat) : Prop :=
  exists a, procs ws !! p = Some (Running, a).

Definition binaries (ms : list message) : list (list Z) :=
  omap (fun m => match m with Binary f => Some f | _ => None end) ms.

End Relay.

(** ** A reference run-time

    Stand-ins for the library functions, used only to evaluate the
    model on concrete inputs: a clamp to [-1, 1] for [tanhf], the
    fourth power by two squarings for [powf] (the source calls it with
    the exponent 4 only), a positive decreasing rational function for
    [expf], decimal notation without exponent for [std::stof], one
    millisecond for every step, memory for every vector below
    [2^62] cells, a device whose set-up succeeds, and the blocks of the
    energy kernel in ascending order. *)
Definition ref_tanhf (x : float32) : float32 :=
  if f32.ltb x (f32.of_int (-1)) then f32.of_int (-1)
  else if f32.ltb (f32.of_int 1) x then f32.of_int 1
  else x.

Definition ref_powf (x y : float32) : float32 := ((x * x) * (x * x))%f32.

Definition ref_expf (x : float32) : float32 :=
  if f32.ltb x f32.zero then (f32.of_int 1 / (f32.of_int 1 - x))%f32
  else (f32.of_int 1 + x)%f32.

Fixpoint scan (a : Z) (n : nat) (s : string) : Z * nat * string :=
  match s with
  | String c s' =>
      match digit c with
      | Some d => scan (10 * a + d) (S n) s'
      | None => (a, n, s)
      end
  | EmptyString => (a, n, s)
  end.

Definition ref_stof (str : string) : cxx_exception + float32 :=
  let '(neg, s) := sign_of (skip_spaces str) in
  let '(ip, ni, s1) := scan 0 0 s in
  let '(m, nf) := match s1 with
                  | String "." s2 => let '(m, nf, _) := scan ip 0 s2 in (m, nf)
                  | _ => (ip, O)
                  end in
  if Nat.eqb (ni + nf) 0 then inl invalid_argument
  else
    let x := match m with Zpos p => f32.lit p nf | _ => f32.zero end in
    inr (if neg then f32.opp x else x).

Definition ref_runtime : Runtime := {|
  tanhf := ref_tanhf;
  powf := ref_powf;
  expf := ref_expf;
  stof := ref_stof;
  elapsed_ms := fun _ => f32.of_int 1;
  vector_alloc := fun _ _ => None;
  cuda_setup := None;
  block_order := fun _ blocks => seqZ 0 blocks;
  block_order_all := fun _ _ => Permutation_refl _
|}.

(** ** Option names, for the statements about the parser *)

Definition int_options : list string :=
  ["--nx"; "--ny"; "--steps"; "--frames_every"; "--pml"; "--sponge"; "--sx"; "--sy"].

Definition float_options : list string :=
  ["--dx"; "--dt"; "--c0"; "--amp"; "--f0"; "--cfl"].

Definition is_in (a : string) (l : list string) : bool := existsb (String.eqb a) l.

Definition recognized (a : string) : bool :=
  is_in a int_options || is_in a float_options || String.eqb a "--model".

(** ** Vocabulary of the statements about the kernels *)

(** A loop or a launch whose turns each write at most one cell: [wr t]
    is the cell and the value turn [t] writes, if it writes. *)
Definition scatter {T : Type} (wr : T -> option (Z * float32))
    (u : list float32) (l : list T) : list float32 :=
  foldl (fun u t => match wr t with Some (k, v) => store u k v | None => u end) u l.

Definition writes {T : Type} (wr : T -> option (Z * float32)) (n : nat) (t : T) : bool :=
  match wr t with
  | Some (k, _) => (0 <=? k) && Nat.eqb (Z.to_nat k) n
  | None => false
  end.

(** The update of the specification, cell [k] of a grid of width [nx]:
    the 4-neighbour Laplacian of a field, the Laplacian of the time
    derivative, the provisional value, the absorption and the
    saturation. *)
Definition laplacian (u : list float32) (nx k : Z) : float32 :=
  (load u (k - 1) + load u (k + 1) + load u (k - nx) + load u (k + nx)
   - f32.of_int 4 * load u k)%f32.

Definition time_derivative (u0 u1 : list float32) (dt : float32) (k : Z) : float32 :=
  ((load u1 k - load u0 k) / dt)%f32.

Definition laplacian_of_time_derivative (u0 u1 : list float32) (nx : Z) (dt : float32) (k : Z)
  : float32 :=
  (time_derivative u0 u1 dt (k - 1) + time_derivative u0 u1 dt (k + 1)
   + time_derivative u0 u1 dt (k - nx) + time_derivative u0 u1 dt (k + nx)
   - f32.of_int 4 * time_derivative u0 u1 dt k)%f32.

Definition wave_coef (speed dt dx : float32) : float32 :=
  ((speed * dt / dx) * (speed * dt / dx))%f32.

Definition provisional (u0 u1 c : list float32) (nx : Z) (dt dx viscosity : float32) (k : Z)
  : float32 :=
  (f32.of_int 2 * load u1 k - load u0 k
   + wave_coef (load c k) dt dx * laplacian u1 nx k
   - viscosity * dt * laplacian_of_time_derivative u0 u1 nx dt k)%f32.

(** [max(0, 1 - 0.03 * mask)]. *)
Definition attenuation (mask : float32) : float32 :=
  let d := (f32.of_int 1 - f32.lit 3 2 * mask)%f32 in
  if f32.ltb d f32.zero then f32.zero else d.

Definition absorbed (mask v : float32) : float32 :=
  if f32.gtb mask f32.zero then (v * attenuation mask)%f32 else v.

Definition gain : float32 := f32.lit 9 1.

Definition interior (nx ny i j : Z) : Prop :=
  0 < i < nx - 1 /\ 0 < j < ny - 1.

(** What thread [(i, j)] of [step_kernel] writes. *)
Definition step_write `{Runtime} (u0 u1 c sponge : list float32) (nx ny : Z)
    (dt dx alpha : float32) (ij : Z * Z) : option (Z * float32) :=
  if on_ring nx ny ij.1 ij.2 then None
  else Some (idx nx ij.1 ij.2,
             step_value u0 u1 c sponge nx dt dx alpha (idx nx ij.1 ij.2)).

(** What turn [(i, j)] of the loops of [make_sponge] writes. *)
Definition sponge_write `{Runtime} (nx ny w : Z) (ij : Z * Z) : option (Z * float32) :=
  let d := edge_distance nx ny ij.1 ij.2 in
  if d <? w then Some (idx nx ij.1 ij.2, powf (sponge_ratio w d) (f32.of_int 4))
  else None.

(** A binary32 number by its mantissa [M], of 24 binary digits, and its
    exponent; the mantissa [2^24], which rounding up can reach, is
    [2^23] with the next exponent. *)
Definition canon (M e : Z) : float32 :=
  if M <? 16777216 then S754_finite false (Z.to_pos M) e
  else S754_finite false 8388608 (e + 1).

(** The thickest layer every distance of which [float(w - d)] holds
    exactly: [2^24] cells. *)
Definition exact_thickness : Z := 16777216.

(** The ratios [float(w - d) / float(w)] of a layer, from the edge
    inwards. *)
Definition layer_ratios (w : Z) : list float32 := map (sponge_ratio w) (zrange w).

(** [f] is strictly increasing on the numbers of [l]. *)
Definition increasing_on (f : float32 -> float32) (l : list float32) : bool :=
  forallb (fun x => forallb (fun y => implb (f32.ltb x y) (f32.ltb (f x) (f y))) l) l.

(** The turns [n < k] of the main loop at which a frame is written. *)
Definition frame_turns (frames_every : Z) (k : nat) : list Z :=
  List.filter (fun n => Int.rem n frames_every =? 0) (zrange (Z.of_nat k)).

(** ** One engine run seen from the relay *)




(** ** A small run, for evaluation *)

(** A grid of 3 by 3 cells with the defaults otherwise, the start
    command that asks for it, and what the relay receives when the
    engine's first frame arrives in two chunks with the header line
    between them. *)
Definition demo_params : Params := Params.set_ny 3 (Params.set_nx 3 Params.default).

Definition demo_config : Relay.config := {|
  Relay.cfg_nx := "3"; Relay.cfg_ny := "3"; Relay.cfg_dx := "5"; Relay.cfg_dt := "0.0006";
  Relay.cfg_sponge := "20"; Relay.cfg_c0 := "3000"; Relay.cfg_amp := "0.05";
  Relay.cfg_f0 := "8"; Relay.cfg_model := "homogeneous"; Relay.cfg_source := None
|}.

Definition demo_stream : list Z :=
  concat (frames_of (out (main_loop (H := ref_runtime) demo_params 1))).

Definition demo_events : list Relay.event :=
  [Relay.Stdout (take 10 demo_stream);
   Relay.Stderr (Relay.HeaderLine 3 3);
   Relay.Stdout (drop 10 demo_stream)].





(** ** Vocabulary of the statements about a field at rest *)

(** Every cell is a zero (of either sign). *)
Definition zeros (u : list float32) : Prop := Forall (fun x => f32.is_zero x = true) u.

(** A finite number other than zero. *)
Definition finite_nonzero (x : float32) : bool :=
  match x with S754_finite _ _ _ => true | _ => false end.

(** The simulated time when [n] turns of the loop have completed. *)
Fixpoint sim_time (dt : float32) (n : nat) : float32 :=
  match n with
  | O => f32.of_int 0
  | S n' => (sim_time dt n' + dt)%f32
  end.

(** The quantities the update of a field at rest multiplies by zero or
    divides zero by are numbers: the time step is finite and not zero,
    the viscosity term, the wave coefficient of every cell, the
    attenuation of every cell with a positive mask, the wavelet at the
    time of each of the first [k] turns and the 49 weights of the
    source are finite. *)
Definition regular `{Runtime} (P : Params) (k : nat) : bool :=
  finite_nonzero (Params.dt P)
  && f32.is_finite (VISC_ALPHA * Params.dt P)%f32
  && forallb (fun c => f32.is_finite (wave_coef c (Params.dt P) (Params.dx P)))
             (fill_model P)
  && forallb (fun sp => negb (f32.gtb sp f32.zero) || f32.is_finite (attenuation sp))
             (make_sponge (Params.nx P) (Params.ny P) (Params.pml P))
  && forallb (fun n => f32.is_finite (ricker (sim_time (Params.dt P) n) (Params.f0 P)))
             (seq 0 k)
  && forallb (fun ddy => forallb (fun ddx => f32.is_finite (source_weight ddx ddy))
                                 source_offsets)
             source_offsets.

(** ** Invariants of the loops *)

(** The three field buffers have one cell for each cell of the grid. *)
Definition buffers_sized (P : Params) (st : MainState) : Prop :=
  length (d_u0 st) = Z.to_nat (cells P)
  /\ length (d_u1 st) = Z.to_nat (cells P)
  /\ length (d_u2 st) = Z.to_nat (cells P).


(** The handle of the connection names the running engine, and only
    it: a process is running exactly when the handle is this process. *)
Definition handle_names_running (ws : Relay.session) : Prop :=
  forall p, Relay.running ws p <-> Relay.engineProc ws = Some p.

(** What holds of the state of the loop of a silent run after [k]
    turns. *)
Definition at_rest (P : Params) (k : nat) (st : MainState) : Prop :=
  zeros (d_u0 st) /\ zeros (d_u1 st) /\ zeros (d_u2 st)
  /\ (crashed st = false -> sim_t st = sim_time (Params.dt P) k)
  /\ Forall (fun e => e = f32.zero) (energies_of (out st)).

(** The [int] members of a configuration hold values of an [int]. *)
Definition ints_in_range (p : Params) : Prop :=
  Int.in_range (Params.nx p) = true /\ Int.in_range (Params.ny p) = true
  /\ Int.in_range (Params.steps p) = true /\ Int.in_range (Params.frames_every p) = true
  /\ Int.in_range (Params.pml p) = true
  /\ Int.in_range (Params.sx p) = true /\ Int.in_range (Params.sy p) = true.

(** ** Vocabulary of the statements about the velocity model and the source *)

(** The speed the two-layer model gives row [j] and the speed the
    circle model gives cell [(i, j)], on a grid of [nx] by [ny] cells. *)
Definition two_layer_speed (c0 : float32) (ny j : Z) : float32 :=
  if ny / 2 <=? j then (c0 * f32.lit 15 1)%f32 else c0.

Definition circle_speed (c0 : float32) (nx ny i j : Z) : float32 :=
  let d2 := (f32.of_int (i - nx / 2) * f32.of_int (i - nx / 2)
             + f32.of_int (j - ny / 2) * f32.of_int (j - ny / 2))%f32 in
  let r2 := ((f32.of_int nx * f32.lit 2 1) * (f32.of_int nx * f32.lit 2 1))%f32 in
  if f32.ltb d2 r2 then (c0 * f32.lit 7 1)%f32 else c0.

(** What turn [(i, j)] of a pair of loops that fills the grid writes. *)
Definition fill_write (nx : Z) (f : Z -> Z -> float32) (ij : Z * Z) : option (Z * float32) :=
  Some (idx nx ij.1 ij.2, f ij.1 ij.2).


(** A loop whose turns each add to at most one cell: [tgt t] is the cell
    turn [t] adds to and what it adds, if it adds. *)
Definition accumulate {T : Type} (tgt : T -> option (Z * float32))
    (u : list float32) (l : list T) : list float32 :=
  foldl (fun u t => match tgt t with Some (k, v) => atomicAdd u k v | None => u end) u l.

(** What the turn [(dx, dy)] of [add_source] adds. *)
Definition source_write `{Runtime} (nx ny sx sy : Z) (val : float32) (d : Z * Z)
  : option (Z * float32) :=
  if on_ring nx ny (Int.add sx d.1) (Int.add sy d.2) then None
  else Some (idx nx (Int.add sx d.1) (Int.add sy d.2), (val * source_weight d.1 d.2)%f32).

(** The 49 turns of [add_source]. *)
Definition source_turns : list (Z * Z) :=
  ddy ← source_offsets; ddx ← source_offsets; [(ddx, ddy)].

(** ** Vocabulary of the statements about the main loop *)

Definition perfs_of (out : list output) : list float32 :=
  omap (fun o => match o with Perf v => Some v | _ => None end) out.

(** The turns [n < k] of the main loop at which the report is written. *)
Definition report_turns (k : nat) : list Z :=
  List.filter (fun n => (Int.rem n REPORT_STEPS =? 0) && (0 <? n)) (zrange (Z.of_nat k)).

(** The current field [d_u1] when turn [n] of the loop has completed,
    its bytes as [fwrite] sends them, and its energy as the report of
    turn [n] computes it, the blocks adding up in the order of that
    launch. *)
Definition field_after `{Runtime} (P : Params) (n : Z) : list float32 :=
  d_u1 (main_loop P (S (Z.to_nat n))).

Definition field_bytes (u : list float32) : list Z := concat (map f32_bytes u).

Definition energy_blocks (P : Params) : Z :=
  Int.wrap ((cells P + ENERGY_THREADS - 1) / ENERGY_THREADS).

Definition energy_of `{Runtime} (P : Params) (n : Z) (u : list float32) : float32 :=
  sum_energy_kernel (block_order n (energy_blocks P)) u f32.zero (cells P).

(** The times of the turns [a], ..., [b - 1] as [acc += ms] adds them
    up, in single precision. *)
Definition step_times `{Runtime} (a b : Z) : float32 :=
  foldl (fun s n => (s + elapsed_ms n)%f32) (f32.of_int 0) (seqZ a (b - a)).

(** The first turn whose time the report of turn [n] counts: [acc] is
    cleared by a report, and there is none at turn 0. *)
Definition window_start (n : Z) : Z :=
  if n <=? REPORT_STEPS then 0 else n - (REPORT_STEPS - 1).

(** The first turn after the last report before turn [k]. *)
Definition acc_start (k : Z) : Z :=
  if k <=? REPORT_STEPS then 0 else (k - 1) / REPORT_STEPS * REPORT_STEPS + 1.

(** The cell [(i, j)] of the field [u], on the boundary ring or not,
    holds [+0]. *)
Definition cell_clear (nx i j : Z) (u : list float32) : Prop :=
  u !! Z.to_nat (j * nx + i) = Some f32.zero.


Definition is_header (o : output) : bool :=
  match o with Header _ _ _ _ => true | _ => false end.

(** The field one turn of the main loop computes from the state before
    it. *)
Definition next_field `{Runtime} (P : Params) (st : MainState) : list float32 :=
  add_source
    (step_launch (launch_threads (Params.nx P) (Params.ny P))
       (d_u0 st) (d_u1 st) (d_u2 st) (fill_model P)
       (make_sponge (Params.nx P) (Params.ny P) (Params.pml P))
       (Params.nx P) (Params.ny P) (Params.dt P) (Params.dx P) VISC_ALPHA)
    (Params.nx P) (Params.ny P) (Params.sx P) (Params.sy P)
    (Params.amp P * ricker (sim_t st) (Params.f0 P))%f32.

(** ** The client ([public/app.js]) *)

(** [new Float32Array(e.data)]: the bytes of a binary message read as
    binary32 numbers, four bytes each, little endian; a [RangeError]
    ([None]) when the number of bytes is no multiple of four. *)
Definition f32_of_bits (b : Z) : float32 :=
  let s := 2147483648 <=? b in
  let e := (b / 8388608) mod 256 in
  let m := b mod 8388608 in
  if e =? 0 then
    if m =? 0 then S754_zero s else S754_finite s (Z.to_pos m) (-149)
  else if e =? 255 then
    if m =? 0 then S754_infinity s else S754_nan
  else S754_finite s (Z.to_pos (m + 8388608)) (e - 150).

Definition f32_of_bytes (b0 b1 b2 b3 : Z) : float32 :=
  f32_of_bits (b0 + 256 * b1 + 65536 * b2 + 16777216 * b3).

Fixpoint Float32Array (bytes : list Z) : option (list float32) :=
  match bytes with
  | [] => Some []
  | b0 :: b1 :: b2 :: b3 :: rest =>
      match Float32Array rest with
      | Some xs => Some (f32_of_bytes b0 b1 b2 b3 :: xs)
      | None => None
      end
  | _ => None
  end.

(** A binary32 number: the mantissa and the exponent are those of the
    format. *)
Definition is_binary32 (x : float32) : bool := valid_binary f32.prec f32.emax x.

(** ** Vocabulary of the statements about the energy *)





(** ** The text channel of the relay *)

(** The handler of a chunk on [stderr].  A string is the sequence of
    its characters; of a character only whether it is the newline
    matters here.  [trim] and the three regular expressions, which sort
    a line into a [stderr_line], are the library's. *)
Section StderrText.
Context {char : Type}.
Variables (newline : char -> bool) (trim : list char -> list char)
          (classify : list char -> Relay.stderr_line).

(** [indexOf('\n')] and the two [substring]s: the text before the first
    newline and the text after it. *)
Fixpoint split_line (s : list char) : option (list char * list char) :=
  match s with
  | [] => None
  | c :: s' =>
      if newline c then Some ([], s')
      else match split_line s' with
           | Some (l, r) => Some (c :: l, r)
           | None => None
           end
  end.

(** [while ((newlineIndex = ws.stderrBuffer.indexOf('\n')) >= 0)]: the
    session after the complete lines, and what is left in the buffer.
    An empty line is skipped.  [fuel] bounds the turns. *)
Fixpoint stderr_loop (fuel : nat) (ws : Relay.session) (buf : list char)
  : Relay.session * list char :=
  match fuel with
  | O => (ws, buf)
  | S fuel' =>
      match split_line buf with
      | None => (ws, buf)
      | Some (l, rest) =>
          let msg := trim l in
          match msg with
          | [] => stderr_loop fuel' ws rest
          | _ => stderr_loop fuel' (Relay.on_stderr_line ws (classify msg)) rest
          end
      end
  end.

(** The handler of a chunk on [stderr]: the session and
    [ws.stderrBuffer]. *)
Definition on_stderr (st : Relay.session * list char) (chunk : list char)
  : Relay.session * list char :=
  let buf := st.2 ++ chunk in
  stderr_loop (length buf) st.1 buf.

(** The lines of a text, each up to its newline, and the unfinished
    line after the last newline; [cur] is the unfinished line so far. *)
Fixpoint text_lines (cur : list char) (s : list char) : list (list char) * list char :=
  match s with
  | [] => ([], cur)
  | c :: s' =>
      if newline c then
        let '(ls, r) := text_lines [] s' in (cur :: ls, r)
      else text_lines (cur ++ [c]) s'
  end.

(** The handler of a complete line. *)
Definition on_text_line (ws : Relay.session) (l : list char) : Relay.session :=
  match trim l with
  | [] => ws
  | msg => Relay.on_stderr_line ws (classify msg)
  end.

End StderrText.

(** The header lines among the events of a connection. *)
Definition headers_seen (evs : list Relay.event) : list (nat * nat) :=
  omap (fun e => match e with
                 | Relay.Stderr (Relay.HeaderLine nx ny) => Some (nx, ny)
                 | _ => None
                 end) evs.

(** [n] is the size in bytes of a frame of one of the headers [hs],
    and not zero. *)
Definition sized_by (hs : list (nat * nat)) (n : nat) : Prop :=
  exists nx ny, (nx, ny) ∈ hs /\ n = (nx * ny * 4)%nat /\ n <> 0%nat.

(** ** Vocabulary of the statements about a restarted run *)

(** The session with other messages sent. *)
Definition with_sent (s : list Relay.message) (ws : Relay.session) : Relay.session :=
  {| Relay.engineProc := Relay.engineProc ws; Relay.stdoutBuffer := Relay.stdoutBuffer ws;
     Relay.frameSize := Relay.frameSize ws; Relay.is_open := Relay.is_open ws;
     Relay.sent := s; Relay.procs := Relay.procs ws |}.

(** An event that is neither a start command nor a header line. *)
Definition keeps_frame_size (e : Relay.event) : bool :=
  match e with
  | Relay.Start _ => false
  | Relay.Stderr (Relay.HeaderLine _ _) => false
  | _ => true
  end.

(** ** The client: chart, frame queue and colormap *)

Module Client.

Definition MAX_HISTORY : nat := 200.

(** [updateEnergyChart], the part that keeps [energyHistory]: the new
    value is pushed, and the oldest is shifted out when more than
    [MAX_HISTORY] are held. *)
Definition updateEnergyChart {A : Type} (energyHistory : list A) (newValue : A) : list A :=
  let h := energyHistory ++ [newValue] in
  if (MAX_HISTORY <? length h)%nat then tail h else h.

(** What happens to the frame queue of [app.js]: a binary message is
    pushed; a [meta] message, the start button and the stop button
    empty the queue; a turn of [animationLoop] shifts the oldest frame
    out and renders it, if there is one. *)
Inductive queue_event (F : Type) : Type :=
| Received (frame : F)
| Cleared
| Tick.
Arguments Received {F} frame.
Arguments Cleared {F}.
Arguments Tick {F}.

(** The queue and the frames rendered so far. *)
Definition queue_step {F : Type} (st : list F * list F) (e : queue_event F)
  : list F * list F :=
  match e with
  | Received f => (st.1 ++ [f], st.2)
  | Cleared => ([], st.2)
  | Tick =>
      match st.1 with
      | f :: q => (q, st.2 ++ [f])
      | [] => st
      end
  end.

Definition received {F : Type} (evs : list (queue_event F)) : list F :=
  omap (fun e => match e with Received f => Some f | _ => None end) evs.

Definition is_cleared {F : Type} (e : queue_event F) : bool :=
  match e with Cleared => true | _ => false end.

(** [RendererGL.setColormap]: a name out of the list is ignored. *)
Definition setColormap (colormapType type : string) : string :=
  if bool_decide (type ∈ ["turbo"; "seismic"; "velocity"]) then type else colormapType.

(** The index [render] gives the shader. *)
Definition mapIndex (colormapType : string) : Z :=
  if String.eqb colormapType "turbo" then 0
  else if String.eqb colormapType "seismic" then 1 else 2.

End Client.

(** ** Vocabulary of the statements about a repeated option *)

(** What a turn of the parser that returns does to the configuration:
    it sets one member. *)
Inductive setter : Type :=
| SetNx (n : Z) | SetNy (n : Z) | SetDx (x : float32) | SetDt (x : float32)
| SetSteps (n : Z) | SetFramesEvery (n : Z) | SetPml (n : Z)
| SetC0 (x : float32) | SetAmp (x : float32) | SetF0 (x : float32)
| SetSx (n : Z) | SetSy (n : Z) | SetCfl (x : float32) | SetModel (s : string).

Definition apply_setter (s : setter) (p : Params) : Params :=
  match s with
  | SetNx n => Params.set_nx n p | SetNy n => Params.set_ny n p
  | SetDx x => Params.set_dx x p | SetDt x => Params.set_dt x p
  | SetSteps n => Params.set_steps n p | SetFramesEvery n => Params.set_frames_every n p
  | SetPml n => Params.set_pml n p
  | SetC0 x => Params.set_c0 x p | SetAmp x => Params.set_amp x p
  | SetF0 x => Params.set_f0 x p
  | SetSx n => Params.set_sx n p | SetSy n => Params.set_sy n p
  | SetCfl x => Params.set_cfl x p | SetModel s => Params.set_model s p
  end.

(** The member a setter sets, by its place in [struct Params]. *)
Definition member (s : setter) : nat :=
  match s with
  | SetNx _ => 0 | SetNy _ => 1 | SetDx _ => 2 | SetDt _ => 3
  | SetSteps _ => 4 | SetFramesEvery _ => 5 | SetPml _ => 6
  | SetC0 _ => 7 | SetAmp _ => 8 | SetF0 _ => 9
  | SetSx _ => 10 | SetSy _ => 11 | SetCfl _ => 12 | SetModel _ => 13
  end%nat.

(** The member an option of the parser's list sets. *)
Definition option_member (a : string) : nat :=
  (if String.eqb a "--nx" then 0 else if String.eqb a "--ny" then 1
   else if String.eqb a "--dx" then 2 else if String.eqb a "--dt" then 3
   else if String.eqb a "--steps" then 4 else if String.eqb a "--frames_every" then 5
   else if String.eqb a "--pml" then 6 else if String.eqb a "--sponge" then 6
   else if String.eqb a "--c0" then 7 else if String.eqb a "--amp" then 8
   else if String.eqb a "--f0" then 9
   else if String.eqb a "--sx" then 10 else if String.eqb a "--sy" then 11
   else if String.eqb a "--cfl" then 12 else 13)%nat.

(** Options with their values, as they stand on the command line. *)
Definition option_list (l : list (string * string)) : list string :=
  flat_map (fun ov => [ov.1; ov.2]) l.

(** * Properties *)

(** ** Literals and conversions *)

Example lit_sqrt2 : f32.lit 141421356 8 = S754_finite false 11863283 (-23).
Proof. vm_compute. reflexivity. Qed.

Example lit_cfl : CFL_DEFAULT = S754_finite false 15099494 (-25).
Proof. vm_compute. reflexivity. Qed.

Example lit_visc : VISC_ALPHA = S754_finite false 8589935 (-32).
Proof. vm_compute. reflexivity. Qed.

Example lit_gain : f32.lit 9 1 = S754_finite false 15099494 (-24).
Proof. vm_compute. reflexivity. Qed.

Example lit_attenuation : f32.lit 3 2 = S754_finite false 16106127 (-29).
Proof. vm_compute. reflexivity. Qed.

Example default_dt : Params.dt Params.default = S754_finite false 10307922 (-34).
Proof. vm_compute. reflexivity. Qed.

Example of_int_rounds : f32.of_int 33554431 = f32.of_int 33554432.
Proof. vm_compute. reflexivity. Qed.

Example one_bits : f32_bytes (f32.of_int 1) = [0; 0; 128; 63].
Proof. vm_compute. reflexivity. Qed.

Example stoi_plain : stoi "512" = inr 512.
Proof. vm_compute. reflexivity. Qed.

Example stoi_prefix : stoi " -12abc" = inr (-12).
Proof. vm_compute. reflexivity. Qed.

Example stoi_no_digit : stoi "abc" = inl invalid_argument.
Proof. vm_compute. reflexivity. Qed.

Example stoi_too_big : stoi "2147483648" = inl out_of_range.
Proof. vm_compute. reflexivity. Qed.

Example ref_stof_dt : ref_stof "0.0006" = inr (Params.dt Params.default).
Proof. vm_compute. reflexivity. Qed.

(** ** The command-line parser *)

Section Parser.
Context `{R : Runtime}.

Lemma parse_option_unknown (p : Params) (a : string) (rest : list string) :
  recognized a = false ->
  parse_option p a rest = Exited 1 ("Unknown arg: " +:+ a).
Proof.
  unfold recognized, is_in, int_options, float_options, parse_option.
  cbn [existsb].
  repeat (destruct (String.eqb a _);
          [ intros H; cbv beta iota delta [orb] in H; discriminate H | ]).
  reflexivity.
Qed.

Lemma parse_option_missing (p : Params) (a : string) :
  recognized a = true ->
  parse_option p a [] = Exited 1 "Missing value".
Proof.
  unfold recognized, is_in, int_options, float_options, parse_option.
  cbn [existsb].
  repeat (destruct (String.eqb a _) eqn:Heq;
          [ apply String.eqb_eq in Heq; subst a; intros _; reflexivity | clear Heq ]).
  intros H. cbv beta iota delta [orb] in H. discriminate H.
Qed.

Lemma parse_option_int (p : Params) (a v : string) (rest : list string) (e : cxx_exception) :
  is_in a int_options = true -> stoi v = inl e ->
  parse_option p a (v :: rest) = Terminated e.
Proof.
  unfold is_in, int_options. cbn [existsb]. intros H Hv. revert H.
  repeat (destruct (String.eqb a _) eqn:Heq;
          [ apply String.eqb_eq in Heq; subst a; cbn; rewrite Hv; reflexivity | clear Heq ]).
  intros H. cbv beta iota delta [orb] in H. discriminate H.
Qed.

Lemma parse_option_float (p : Params) (a v : string) (rest : list string) (e : cxx_exception) :
  is_in a float_options = true -> stof v = inl e ->
  parse_option p a (v :: rest) = Terminated e.
Proof.
  unfold is_in, float_options. cbn [existsb]. intros H Hv. revert H.
  repeat (destruct (String.eqb a _) eqn:Heq;
          [ apply String.eqb_eq in Heq; subst a; cbn; rewrite Hv; reflexivity | clear Heq ]).
  intros H. cbv beta iota delta [orb] in H. discriminate H.
Qed.

(** A turn of the loop looks at the value of its option and at nothing
    after it. *)
Lemma parse_option_rest (p : Params) (a v : string) (r1 r2 : list string) :
  parse_option p a (v :: r1) = parse_option p a (v :: r2).
Proof.
  unfold parse_option.
  repeat (destruct (String.eqb a _); [ reflexivity | ]).
  reflexivity.
Qed.

Lemma parse_option_last (p : Params) (a : string) (p' : Params) :
  parse_option p a [] <> Returned p'.
Proof.
  destruct (recognized a) eqn:Ha.
  - rewrite parse_option_missing by exact Ha. discriminate.
  - rewrite parse_option_unknown by exact Ha. discriminate.
Qed.

(** The arguments a returning run of the loop has read are options with
    their values, so the loop goes on after them with what follows. *)
Lemma parse_loop_app (pre suf : list string) :
  forall p p', parse_loop p pre = Returned p' ->
               parse_loop p (pre ++ suf) = parse_loop p' suf.
Proof.
  induction pre as [pre IH] using (induction_ltof1 _ (@length string)).
  unfold ltof in IH. intros p p' Hp.
  destruct pre as [|a [|v pre']].
  - cbn in Hp. inversion Hp. reflexivity.
  - cbn in Hp. destruct (parse_option p a []) eqn:Ho; try discriminate.
    exfalso. exact (parse_option_last _ _ _ Ho).
  - cbn [parse_loop app] in *.
    rewrite (parse_option_rest p a v (pre' ++ suf) pre').
    destruct (parse_option p a (v :: pre')); try discriminate.
    apply IH; [ cbn; lia | exact Hp ].
Qed.

End Parser.

(** C10. The parser reads [--sponge] exactly as it reads [--pml]: from
    every state of the loop the two spellings give the same result,
    whatever follows (a value, or nothing), so whole command lines that
    differ in this spelling resolve to the same configuration, and with
    a value [v] the result is the one of [std::stoi] on [v] stored in
    [pml], never the fatal exit of an unknown option. *)
Theorem sponge_is_pml `{R : Runtime} (p : Params) (argv0 v : string) (rest : list string) :
  parse_loop p ("--sponge" :: rest) = parse_loop p ("--pml" :: rest)
  /\ parse_args (argv0 :: "--sponge" :: rest) = parse_args (argv0 :: "--pml" :: rest)
  /\ main (argv0 :: "--sponge" :: rest) = main (argv0 :: "--pml" :: rest)
  /\ parse_option p "--sponge" (v :: rest)
     = match stoi v with
       | inr n => Returned (Params.set_pml n p)
       | inl e => Terminated e
       end.
Proof.
  assert (Hloop : forall q, parse_loop q ("--sponge" :: rest) = parse_loop q ("--pml" :: rest)).
  { intros q. cbn [parse_loop]. reflexivity. }
  split; [ apply Hloop | ].
  split; [ unfold parse_args; cbn [tail]; rewrite Hloop; reflexivity | ].
  split; [ unfold main, parse_args; cbn [tail]; rewrite Hloop; reflexivity | ].
  cbn. destruct (stoi v); reflexivity.
Qed.

Example sponge_is_pml_run :
  parse_args (H := ref_runtime) ["engine"; "--nx"; "64"; "--sponge"; "10"]
  = Returned (Params.set_sy 256 (Params.set_sx 32
               (Params.set_pml 10 (Params.set_nx 64 Params.default)))).
Proof. vm_compute. reflexivity. Qed.

(** C9, as the code has it.  After arguments the loop has read without
    error: an option name that is not in the parser's list ends the
    process by [die] (status 1, the line "Unknown arg: ..." on
    [std::cerr]); a listed option that is the last argument ends it by
    [die] (status 1, "Missing value"); a numeric option whose value
    makes [std::stoi] or [std::stof] throw ends it by the uncaught
    exception.  In each case [main] yields no simulation state. *)
Theorem parse_args_fatal `{R : Runtime} (argv0 : string) (pre : list string) (p : Params)
    (a : string) (rest : list string) :
  parse_loop Params.default pre = Returned p ->
  (recognized a = false ->
     main (argv0 :: pre ++ a :: rest) = Exited 1 ("Unknown arg: " +:+ a))
  /\ (recognized a = true ->
     main (argv0 :: pre ++ [a]) = Exited 1 "Missing value")
  /\ (forall v e, is_in a int_options = true -> stoi v = inl e ->
     main (argv0 :: pre ++ a :: v :: rest) = Terminated e)
  /\ (forall v e, is_in a float_options = true -> stof v = inl e ->
     main (argv0 :: pre ++ a :: v :: rest) = Terminated e).
Proof.
  intros Hpre.
  assert (Hmain : forall suf, main (argv0 :: pre ++ suf)
                              = (P ← (q ← parse_loop p suf; mret (centre_source q));
                                 main_run P)).
  { intros suf. unfold main, parse_args. cbn [tail].
    rewrite (parse_loop_app pre suf _ _ Hpre). reflexivity. }
  repeat split.
  - intros Ha. rewrite Hmain. cbn [parse_loop].
    rewrite (parse_option_unknown _ _ _ Ha). reflexivity.
  - intros Ha. rewrite Hmain. cbn [parse_loop].
    rewrite (parse_option_missing _ _ Ha). reflexivity.
  - intros v e Ha Hv. rewrite Hmain. cbn [parse_loop].
    rewrite (parse_option_int _ _ _ _ _ Ha Hv). reflexivity.
  - intros v e Ha Hv. rewrite Hmain. cbn [parse_loop].
    rewrite (parse_option_float _ _ _ _ _ Ha Hv). reflexivity.
Qed.

Lemma parse_args_fatal_witness :
  main (H := ref_runtime) ["engine"; "--nx"; "64"; "--bogus"; "1"]
    = Exited 1 "Unknown arg: --bogus"
  /\ main (H := ref_runtime) ["engine"; "--nx"; "64"; "--dt"] = Exited 1 "Missing value"
  /\ main (H := ref_runtime) ["engine"; "--nx"; "64"; "--ny"; "abc"]
    = Terminated invalid_argument
  /\ main (H := ref_runtime) ["engine"; "--nx"; "64"; "--dx"; "abc"]
    = Terminated invalid_argument.
Proof.
  assert (Hpre : parse_loop (H := ref_runtime) Params.default ["--nx"; "64"]
                 = Returned (Params.set_nx 64 Params.default))
    by (vm_compute; reflexivity).
  refine (conj _ (conj _ (conj _ _))).
  - apply (proj1 (parse_args_fatal (R := ref_runtime) "engine" ["--nx"; "64"] _
                    "--bogus" ["1"] Hpre)).
    vm_compute; reflexivity.
  - apply (proj1 (proj2 (parse_args_fatal (R := ref_runtime) "engine" ["--nx"; "64"] _
                    "--dt" [] Hpre))).
    vm_compute; reflexivity.
  - apply (proj1 (proj2 (proj2 (parse_args_fatal (R := ref_runtime) "engine" ["--nx"; "64"] _
                    "--ny" [] Hpre)))); vm_compute; reflexivity.
  - apply (proj2 (proj2 (proj2 (parse_args_fatal (R := ref_runtime) "engine" ["--nx"; "64"] _
                    "--dx" [] Hpre)))); vm_compute; reflexivity.
Defined.

(** C9 as stated fails: "12abc" is no integer, and [--nx 12abc] is
    read as 12; the parser returns and [main] goes on to simulate. *)
Lemma parse_args_lenient :
  is_int_literal "12abc" = false
  /\ forall R : Runtime,
       parse_args (H := R) ["engine"; "--nx"; "12abc"]
       = Returned (Params.set_sy 256 (Params.set_sx 6 (Params.set_nx 12 Params.default))).
Proof.
  split; [ vm_compute; reflexivity | ].
  intros R. vm_compute. reflexivity.
Qed.

(** ** Comparison of binary32 numbers *)

Lemma SFcompare_defined (a b : float32) :
  f32.is_nan a = false -> f32.is_nan b = false ->
  exists c, SFcompare a b = Some c.
Proof.
  destruct a, b; cbn; intros Ha Hb; try discriminate; eauto.
Qed.

Lemma SFcompare_antisym (a b : float32) (c : comparison) :
  SFcompare a b = Some c -> SFcompare b a = Some (CompOpp c).
Proof.
  destruct a as [sa|sa| |sa ma ea], b as [sb|sb| |sb mb eb]; cbn;
    intros H; try discriminate H;
    try (destruct sa; inversion H; reflexivity);
    try (destruct sb; inversion H; reflexivity);
    try (destruct sa, sb; inversion H; reflexivity).
  injection H as <-.
  destruct sa, sb; cbn; try reflexivity;
    rewrite (Z.compare_antisym ea eb);
    destruct (ea ?= eb); cbn; try reflexivity;
    rewrite (Pos.compare_cont_antisym ma mb Eq); reflexivity.
Qed.

Lemma SFleb_refl (a : float32) : f32.is_nan a = false -> f32.leb a a = true.
Proof.
  unfold f32.leb, SFleb.
  destruct a as [s|s| |s m e]; cbn; intros H; try discriminate H;
    try (destruct s; reflexivity).
  destruct s; rewrite Z.compare_refl, Pos.compare_cont_refl; reflexivity.
Qed.

(** Two numbers are ordered one way or the other. *)
Lemma SFleb_of_not_gtb (a b : float32) :
  f32.is_nan a = false -> f32.is_nan b = false ->
  f32.gtb a b = false -> f32.leb a b = true.
Proof.
  intros Ha Hb. unfold f32.gtb, f32.leb, SFltb, SFleb.
  destruct (SFcompare_defined b a Hb Ha) as [c Hc].
  rewrite Hc, (SFcompare_antisym _ _ _ Hc).
  destruct c; cbn; congruence.
Qed.

(** ** The stability bound *)

(** C2, as the code has it.  When neither the requested time step nor
    the bound [cfl * dx / (1.41421356f * c0)] is NaN, the resolved time
    step is at most the bound.  In every case a time step above the
    bound is replaced by the bound itself, any other is left as it is,
    and nothing else in the configuration changes. *)
Theorem resolve_dt_bound (P : Params) :
  f32.is_nan (Params.dt P) = false ->
  f32.is_nan (dtmax P) = false ->
  f32.leb (Params.dt (resolve_dt P)) (dtmax P) = true
  /\ Params.dt (resolve_dt P)
     = (if f32.gtb (Params.dt P) (dtmax P) then dtmax P else Params.dt P)
  /\ resolve_dt P = Params.set_dt (Params.dt (resolve_dt P)) P.
Proof.
  intros Hdt Hmax. unfold resolve_dt.
  destruct (f32.gtb (Params.dt P) (dtmax P)) eqn:Hgt.
  - cbn. repeat split. apply SFleb_refl, Hmax.
  - repeat split.
    + apply SFleb_of_not_gtb; assumption.
    + destruct P; reflexivity.
Qed.

Lemma resolve_dt_bound_witness :
  f32.leb (Params.dt (resolve_dt Params.default)) (dtmax Params.default) = true
  /\ Params.dt (resolve_dt Params.default)
     = (if f32.gtb (Params.dt Params.default) (dtmax Params.default)
        then dtmax Params.default else Params.dt Params.default)
  /\ resolve_dt Params.default
     = Params.set_dt (Params.dt (resolve_dt Params.default)) Params.default.
Proof.
  apply (resolve_dt_bound Params.default); vm_compute; reflexivity.
Defined.

(** With the defaults the requested step 6.0e-4 is above the bound and
    is cut to it. *)
Example resolve_dt_default :
  Params.dt (resolve_dt Params.default) = S754_finite false 9111002 (-34).
Proof. vm_compute. reflexivity. Qed.

(** C2 as stated fails: [--dx 0 --c0 0] is accepted, the bound is
    [0.0f / 0.0f], no number, and the resolved time step is not below
    it. *)
Lemma resolve_dt_nan_bound :
  exists P : Params,
    (forall R : Runtime, stof "0" = inr f32.zero ->
       parse_args (H := R) ["engine"; "--dx"; "0"; "--c0"; "0"] = Returned P)
    /\ f32.leb (Params.dt (resolve_dt P)) (dtmax P) = false.
Proof.
  exists (Params.set_sy 256 (Params.set_sx 256
            (Params.set_c0 f32.zero (Params.set_dx f32.zero Params.default)))).
  split.
  - intros R H0. unfold parse_args. cbn [tail parse_loop].
    change (parse_option Params.default "--dx" ["0"; "--c0"; "0"]) with
      (x ← throwing (stof "0"); mret (Params.set_dx x Params.default)).
    rewrite H0. cbn [throwing mbind outcome_bind mret outcome_ret].
    change (parse_option (Params.set_dx f32.zero Params.default) "--c0" ["0"]) with
      (x ← throwing (stof "0");
       mret (Params.set_c0 x (Params.set_dx f32.zero Params.default))).
    rewrite H0. vm_compute. reflexivity.
  - vm_compute. reflexivity.
Qed.

(** ** Integers in range *)

Lemma wrap_small (z : Z) : Int.INT_MIN <= z <= Int.INT_MAX -> Int.wrap z = z.
Proof.
  unfold Int.wrap, Int.INT_MIN, Int.INT_MAX. intros H.
  rewrite Z.mod_small by lia. lia.
Qed.

Lemma idx_exact (nx ny i j : Z) :
  nx * ny <= Int.INT_MAX -> 0 <= i < nx -> 0 <= j < ny ->
  idx nx i j = j * nx + i.
Proof.
  intros Hn Hi Hj. unfold idx, Int.add, Int.mul.
  assert (0 <= j * nx + i < nx * ny) by nia.
  assert (0 <= j * nx <= j * nx + i) by nia.
  unfold Int.INT_MAX in Hn.
  rewrite (wrap_small (j * nx)) by (unfold Int.INT_MIN, Int.INT_MAX; lia).
  apply wrap_small. unfold Int.INT_MIN, Int.INT_MAX. lia.
Qed.

Lemma elem_of_zrange (n x : Z) : x ∈ zrange n <-> 0 <= x < n.
Proof. unfold zrange. rewrite elem_of_seqZ. lia. Qed.

(** ** Loops that write one cell a turn *)

Section Scatter.
Context {T : Type} (wr : T -> option (Z * float32)).

Lemma store_length (u : list float32) (k : Z) (v : float32) :
  length (store u k v) = length u.
Proof. unfold store. destruct (k <? 0); [ reflexivity | apply length_insert ]. Qed.

Lemma scatter_length (l : list T) : forall u, length (scatter wr u l) = length u.
Proof.
  induction l as [|t l IH]; intros u; [ reflexivity | ].
  cbn. unfold scatter in IH. rewrite IH.
  destruct (wr t) as [[k v]|]; [ apply store_length | reflexivity ].
Qed.

Lemma scatter_snoc (u : list float32) (l : list T) (t : T) :
  scatter wr u (l ++ [t])
  = match wr t with
    | Some (k, v) => store (scatter wr u l) k v
    | None => scatter wr u l
    end.
Proof. unfold scatter. rewrite foldl_app. reflexivity. Qed.

(** A cell some turn writes holds the value written; any other cell
    holds what it held.  [val] is the value every turn that writes cell
    [n] writes there. *)
Lemma scatter_lookup (val : float32) (n : nat) (u : list float32) (l : list T) :
  (forall t k v, In t l -> wr t = Some (k, v) -> 0 <= k -> Z.to_nat k = n -> v = val) ->
  (n < length u)%nat ->
  scatter wr u l !! n = if existsb (writes wr n) l then Some val else u !! n.
Proof.
  intros Hval Hn. induction l as [|t l IH] using rev_ind; [ reflexivity | ].
  rewrite scatter_snoc, existsb_app. cbn [existsb]. rewrite orb_false_r.
  assert (IH' := IH (fun t k v Ht => Hval t k v (in_or_app _ _ _ (or_introl Ht)))).
  clear IH. unfold writes at 2.
  destruct (wr t) as [[k v]|] eqn:Hwr; [ | rewrite orb_false_r; exact IH' ].
  unfold store. destruct (Z.ltb_spec k 0) as [Hk|Hk].
  - rewrite (proj2 (Z.leb_gt 0 k) Hk). cbn. rewrite orb_false_r. exact IH'.
  - rewrite (proj2 (Z.leb_le 0 k) Hk). cbn [andb].
    destruct (Nat.eqb_spec (Z.to_nat k) n) as [Heq|Hne].
    + rewrite orb_true_r. rewrite Heq.
      rewrite list_lookup_insert_eq by (rewrite scatter_length; exact Hn).
      f_equal. apply (Hval t k v); auto using in_or_app, in_eq.
    + rewrite orb_false_r, list_lookup_insert_ne by exact Hne. exact IH'.
Qed.

End Scatter.

(** A loop nested in a loop is one loop over the pairs. *)
Lemma foldl_nested {A : Type} (f : A -> Z -> Z -> A) (js ks : list Z) :
  forall a,
    foldl (fun a j => foldl (fun a i => f a i j) a ks) a js
    = foldl (fun a ij => f a ij.1 ij.2) a (j ← js; i ← ks; [(i, j)]).
Proof.
  induction js as [|j js IH]; intros a; [ reflexivity | ].
  cbn [foldl]. rewrite IH. cbn [mbind list_bind]. rewrite foldl_app. f_equal.
  clear IH. revert a. induction ks as [|i ks IH]; intros a; [ reflexivity | ].
  cbn. apply IH.
Qed.

Lemma elem_of_pairs (js ks : list Z) (i j : Z) :
  (i, j) ∈ (j ← js; i ← ks; [(i, j)]) <-> i ∈ ks /\ j ∈ js.
Proof.
  rewrite list_elem_of_bind. split.
  - intros (j' & Hin & Hj). apply list_elem_of_bind in Hin as (i' & Hin & Hi).
    apply list_elem_of_singleton in Hin. inversion Hin; subst. auto.
  - intros [Hi Hj]. exists j. split; [ | exact Hj ].
    apply list_elem_of_bind. exists i. split; [ | exact Hi ].
    apply list_elem_of_singleton. reflexivity.
Qed.

(** ** The stencil kernel *)

Section StepKernel.
Context `{R : Runtime}.
Variables (u0 u1 c sponge : list float32) (nx ny : Z) (dt dx alpha : float32).

Lemma step_launch_scatter (sched : list (Z * Z)) :
  forall u2,
    step_launch sched u0 u1 u2 c sponge nx ny dt dx alpha
    = scatter (step_write u0 u1 c sponge nx ny dt dx alpha) u2 sched.
Proof.
  unfold step_launch, scatter.
  induction sched as [|t sched IH]; intros u2; [ reflexivity | ].
  cbn [foldl]. rewrite IH. f_equal.
  unfold step_kernel, step_write. destruct (on_ring nx ny t.1 t.2); reflexivity.
Qed.

Lemma on_ring_interior (i j : Z) :
  Int.INT_MIN < nx <= Int.INT_MAX -> Int.INT_MIN < ny <= Int.INT_MAX ->
  (on_ring nx ny i j = false <-> interior nx ny i j).
Proof.
  intros Hx Hy. unfold on_ring, interior, Int.sub.
  unfold Int.INT_MIN, Int.INT_MAX in *.
  rewrite !wrap_small by (unfold Int.INT_MIN, Int.INT_MAX; lia).
  rewrite !orb_false_iff, !Z.leb_gt. lia.
Qed.

(** The source's value is the update of the specification. *)
Lemma step_value_spec (k : Z) :
  0 <= k - nx -> k + nx <= Int.INT_MAX -> 0 < nx ->
  step_value u0 u1 c sponge nx dt dx alpha k
  = tanhf (gain * absorbed (load sponge k) (provisional u0 u1 c nx dt dx alpha k))%f32.
Proof.
  intros Hlo Hhi Hnx.
  unfold step_value, provisional, absorbed, attenuation, laplacian,
    laplacian_of_time_derivative, time_derivative, wave_coef, gain, Int.sub, Int.add.
  unfold Int.INT_MAX in Hhi.
  rewrite !wrap_small by (unfold Int.INT_MIN, Int.INT_MAX; lia).
  change (f32.of_int 0) with f32.zero.
  reflexivity.
Qed.

Lemma launch_covers (i j : Z) :
  nx * ny <= Int.INT_MAX -> interior nx ny i j ->
  In (i, j) (launch_threads nx ny).
Proof.
  intros Hn [Hi Hj]. apply list_elem_of_In. unfold launch_threads.
  apply elem_of_pairs. rewrite !elem_of_zrange.
  unfold Int.div, Int.add. unfold Int.INT_MAX in Hn.
  assert (nx + 15 <= 2147483647 /\ ny + 15 <= 2147483647) as [Hx Hy] by nia.
  rewrite (wrap_small (nx + 15)), (wrap_small (ny + 15))
    by (unfold Int.INT_MIN, Int.INT_MAX; lia).
  rewrite !Z.quot_div_nonneg by lia.
  assert (0 <= (nx + 15) / 16 <= nx + 15) by (split; [ apply Z.div_pos | apply Z.div_le_upper_bound ]; lia).
  assert (0 <= (ny + 15) / 16 <= ny + 15) by (split; [ apply Z.div_pos | apply Z.div_le_upper_bound ]; lia).
  rewrite !wrap_small by (unfold Int.INT_MIN, Int.INT_MAX; lia).
  pose proof (Z.div_mod (nx + 15) 16 ltac:(lia)).
  pose proof (Z.mod_pos_bound (nx + 15) 16 ltac:(lia)).
  pose proof (Z.div_mod (ny + 15) 16 ltac:(lia)).
  pose proof (Z.mod_pos_bound (ny + 15) 16 ltac:(lia)).
  lia.
Qed.

(** C1. One launch of the kernel on a grid of [nx] by [ny] cells, its
    threads run in any order: every interior cell [(i, j)], with
    [0 < i < nx - 1] and [0 < j < ny - 1], holds afterwards
    [tanhf (gain * v)], where [v] is the provisional value
    [2 * current - previous + coef * laplacian
     - viscosity * dt * laplacian_of_time_derivative] with
    [coef = (speed * dt / dx)^2], multiplied by
    [max(0, 1 - 0.03 * mask)] when the cell's mask is above 0; every
    other cell of the grid (the boundary ring) holds what it held
    before. *)
Theorem step_kernel_update (sched : list (Z * Z)) (u2 : list float32) (i j : Z) :
  Permutation sched (launch_threads nx ny) ->
  0 < nx -> 0 < ny -> nx * ny <= Int.INT_MAX ->
  length u2 = Z.to_nat (nx * ny) ->
  0 <= i < nx -> 0 <= j < ny ->
  (on_ring nx ny i j = false <-> interior nx ny i j)
  /\ step_launch sched u0 u1 u2 c sponge nx ny dt dx alpha !! Z.to_nat (j * nx + i)
     = if on_ring nx ny i j then u2 !! Z.to_nat (j * nx + i)
       else Some (tanhf (gain * absorbed (load sponge (j * nx + i))
                                  (provisional u0 u1 c nx dt dx alpha (j * nx + i)))%f32).
Proof.
  intros Hperm Hnx Hny Hn Hlen Hi Hj.
  assert (Hx : Int.INT_MIN < nx <= Int.INT_MAX) by (unfold Int.INT_MIN, Int.INT_MAX in *; nia).
  assert (Hy : Int.INT_MIN < ny <= Int.INT_MAX) by (unfold Int.INT_MIN, Int.INT_MAX in *; nia).
  split; [ apply on_ring_interior; assumption | ].
  assert (Hk : 0 <= j * nx + i < nx * ny) by nia.
  rewrite step_launch_scatter.
  rewrite (scatter_lookup _ (step_value u0 u1 c sponge nx dt dx alpha (j * nx + i))).
  - destruct (on_ring nx ny i j) eqn:Hring.
    + (* a ring cell: no thread writes it *)
      destruct (existsb _ sched) eqn:Hex; [ | reflexivity ].
      exfalso. apply existsb_exists in Hex as ([i' j'] & Hin & Hw).
      unfold writes, step_write in Hw. cbn [fst snd] in Hw.
      destruct (on_ring nx ny i' j') eqn:Hring'; [ discriminate Hw | ].
      apply on_ring_interior in Hring' as [Hi' Hj']; try assumption.
      rewrite (idx_exact nx ny) in Hw by lia.
      apply andb_true_iff in Hw as [_ Hw]. apply Nat.eqb_eq in Hw.
      assert (j' * nx + i' = j * nx + i) by nia.
      assert (j' = j) by nia. assert (i' = i) by nia. subst i' j'.
      assert (Hint : interior nx ny i j) by (split; assumption).
      apply on_ring_interior in Hint; try assumption. congruence.
    + (* an interior cell: its own thread writes it *)
      assert (Hint : interior nx ny i j) by (apply on_ring_interior; assumption).
      assert (Hex : existsb (writes (step_write u0 u1 c sponge nx ny dt dx alpha)
                                    (Z.to_nat (j * nx + i))) sched = true).
      { apply existsb_exists. exists (i, j). split.
        - apply (Permutation_in _ (Permutation_sym Hperm)), launch_covers; assumption.
        - unfold writes, step_write. cbn [fst snd]. rewrite Hring.
          rewrite (idx_exact nx ny) by lia.
          apply andb_true_iff. split; [ apply Z.leb_le; lia | apply Nat.eqb_refl ]. }
      rewrite Hex. f_equal. destruct Hint as [Hi' Hj'].
      apply step_value_spec; unfold Int.INT_MAX in *; nia.
  - intros [i' j'] k v _ Hw Hk0 Heq. unfold step_write in Hw. cbn [fst snd] in Hw.
    destruct (on_ring nx ny i' j'); [ discriminate Hw | ].
    injection Hw as <- <-. f_equal. lia.
  - rewrite Hlen. lia.
Qed.

End StepKernel.

Lemma step_kernel_update_witness :
  (on_ring 3 3 1 1 = false <-> interior 3 3 1 1)
  /\ step_launch (H := ref_runtime) (launch_threads 3 3)
       (replicate 9 f32.zero) (<[4%nat := f32.of_int 1]> (replicate 9 f32.zero))
       (replicate 9 f32.zero) (replicate 9 (f32.of_int 3000))
       (make_sponge (H := ref_runtime) 3 3 1) 3 3
       (f32.lit 5 4) (f32.of_int 5) VISC_ALPHA !! Z.to_nat (1 * 3 + 1)
     = if on_ring 3 3 1 1 then replicate 9 f32.zero !! Z.to_nat (1 * 3 + 1)
       else Some (tanhf (Runtime := ref_runtime)
                    (gain * absorbed (load (make_sponge (H := ref_runtime) 3 3 1) (1 * 3 + 1))
                              (provisional (replicate 9 f32.zero)
                                 (<[4%nat := f32.of_int 1]> (replicate 9 f32.zero))
                                 (replicate 9 (f32.of_int 3000)) 3
                                 (f32.lit 5 4) (f32.of_int 5) VISC_ALPHA (1 * 3 + 1)))%f32).
Proof.
  apply (step_kernel_update (R := ref_runtime)).
  - apply Permutation_refl.
  - lia.
  - lia.
  - vm_compute. discriminate.
  - reflexivity.
  - lia.
  - lia.
Defined.

(** A unit bump in the middle of a 3 by 3 grid at rest: the centre goes
    to [tanhf] of a value near 1.48, which the reference [tanhf] cuts to
    1; the ring stays at zero. *)
Example step_kernel_bump :
  step_launch (H := ref_runtime) (launch_threads 3 3)
    (replicate 9 f32.zero) (<[4%nat := f32.of_int 1]> (replicate 9 f32.zero))
    (replicate 9 f32.zero) (replicate 9 (f32.of_int 3000))
    (replicate 9 f32.zero) 3 3 (f32.lit 5 4) (f32.of_int 5) VISC_ALPHA
  = <[4%nat := f32.of_int 1]> (replicate 9 f32.zero).
Proof. vm_compute. reflexivity. Qed.

(** ** The sponge mask *)

Lemma edge_distance_exact (nx ny i j : Z) :
  0 < nx <= Int.INT_MAX -> 0 < ny <= Int.INT_MAX -> 0 <= i < nx -> 0 <= j < ny ->
  edge_distance nx ny i j = Z.min (Z.min i (nx - 1 - i)) (Z.min j (ny - 1 - j)).
Proof.
  intros Hx Hy Hi Hj. unfold edge_distance, Int.sub, Int.min.
  unfold Int.INT_MAX in *.
  rewrite (wrap_small (nx - 1)), (wrap_small (ny - 1))
    by (unfold Int.INT_MIN, Int.INT_MAX; lia).
  rewrite (wrap_small (nx - 1 - i)), (wrap_small (ny - 1 - j))
    by (unfold Int.INT_MIN, Int.INT_MAX; lia).
  destruct (Z.ltb_spec (ny - 1 - j) j), (Z.ltb_spec (nx - 1 - i) i);
    match goal with |- context [?a <? ?b] => destruct (Z.ltb_spec a b) end; lia.
Qed.

Lemma make_sponge_scatter `{R : Runtime} (nx ny w : Z) :
  0 < w ->
  make_sponge nx ny w
  = scatter (sponge_write nx ny w) (replicate (Z.to_nat (Int.size_mul nx ny)) f32.zero)
            (j ← zrange ny; i ← zrange nx; [(i, j)]).
Proof.
  intros Hw. unfold make_sponge. rewrite (proj2 (Z.leb_gt w 0) Hw).
  rewrite (foldl_nested (fun s i j =>
             if edge_distance nx ny i j <? w
             then store s (idx nx i j) (powf (sponge_ratio w (edge_distance nx ny i j)) (f32.of_int 4))
             else s)).
  unfold scatter. generalize (replicate (Z.to_nat (Int.size_mul nx ny)) f32.zero).
  induction (j ← zrange ny; i ← zrange nx; [(i, j)]) as [|t l IH]; intros u; [ reflexivity | ].
  cbn [foldl]. rewrite IH. f_equal. unfold sponge_write.
  destruct (edge_distance nx ny t.1 t.2 <? w); reflexivity.
Qed.

Lemma size_mul_exact (nx ny : Z) :
  0 < nx -> 0 < ny -> nx * ny <= Int.INT_MAX -> Int.size_mul nx ny = nx * ny.
Proof.
  intros Hx Hy Hn. unfold Int.size_mul, Int.INT_MAX in *.
  rewrite (Z.mod_small nx), (Z.mod_small ny), Z.mod_small by nia. reflexivity.
Qed.

(** The cells of the mask: zero at distance [w] or more from the
    edges, [powf] of the ratio inside the layer. *)
Lemma make_sponge_cell `{R : Runtime} (nx ny w i j : Z) :
  0 < nx -> 0 < ny -> nx * ny <= Int.INT_MAX ->
  0 <= i < nx -> 0 <= j < ny ->
  make_sponge nx ny w !! Z.to_nat (j * nx + i)
  = Some (if w <=? edge_distance nx ny i j then f32.zero
          else powf (sponge_ratio w (edge_distance nx ny i j)) (f32.of_int 4)).
Proof.
  intros Hx Hy Hn Hi Hj.
  assert (Hk : 0 <= j * nx + i < nx * ny) by nia.
  assert (Hd : 0 <= edge_distance nx ny i j).
  { rewrite edge_distance_exact by (unfold Int.INT_MAX in *; nia). lia. }
  destruct (Z.leb_spec w 0) as [Hw|Hw].
  - unfold make_sponge. rewrite (proj2 (Z.leb_le w 0) Hw).
    rewrite size_mul_exact by assumption.
    rewrite lookup_replicate_2 by lia.
    rewrite (proj2 (Z.leb_le w _)) by lia. reflexivity.
  - rewrite make_sponge_scatter by exact Hw.
    rewrite (scatter_lookup _
               (powf (sponge_ratio w (edge_distance nx ny i j)) (f32.of_int 4))).
    + destruct (Z.leb_spec w (edge_distance nx ny i j)) as [Hout|Hin].
      * destruct (existsb _ _) eqn:Hex.
        -- exfalso. apply existsb_exists in Hex as ([i' j'] & Hin & Hwr).
           apply list_elem_of_In, elem_of_pairs in Hin as [Hi' Hj'].
           apply elem_of_zrange in Hi', Hj'.
           unfold writes, sponge_write in Hwr. cbn [fst snd] in Hwr.
           destruct (Z.ltb_spec (edge_distance nx ny i' j') w) as [Hd'|Hd'];
             [ | discriminate Hwr ].
           rewrite (idx_exact nx ny) in Hwr by lia.
           apply andb_true_iff in Hwr as [_ Hwr]. apply Nat.eqb_eq in Hwr.
           assert (j' * nx + i' = j * nx + i) by nia.
           assert (j' = j) by nia. assert (i' = i) by nia. subst i' j'. lia.
        -- rewrite size_mul_exact by assumption. apply lookup_replicate_2. lia.
      * rewrite (proj2 (existsb_exists _ _)); [ reflexivity | ].
        exists (i, j). split.
        -- apply list_elem_of_In, elem_of_pairs. rewrite !elem_of_zrange. lia.
        -- unfold writes, sponge_write. cbn [fst snd].
           rewrite (proj2 (Z.ltb_lt _ _) Hin), (idx_exact nx ny) by lia.
           apply andb_true_iff. split; [ apply Z.leb_le; lia | apply Nat.eqb_refl ].
    + intros [i' j'] k v Hin Hwr Hk0 Heq.
      apply list_elem_of_In, elem_of_pairs in Hin as [Hi' Hj'].
      apply elem_of_zrange in Hi', Hj'.
      unfold sponge_write in Hwr. cbn [fst snd] in Hwr.
      destruct (edge_distance nx ny i' j' <? w); [ | discriminate Hwr ].
      injection Hwr as <- <-.
      rewrite (idx_exact nx ny) in Heq by lia.
      assert (j' * nx + i' = j * nx + i) by nia.
      assert (j' = j) by nia. assert (i' = i) by nia. subst i' j'. reflexivity.
    + rewrite length_replicate, size_mul_exact by assumption. lia.
Qed.

(** ** Conversion of an [int] and the quotient of a number by itself *)

Lemma digits2_size (p : positive) : digits2_pos p = Pos.size p.
Proof. induction p; cbn; congruence. Qed.

Lemma digits2_bounds (p : positive) :
  2 ^ (Zpos (digits2_pos p) - 1) <= Zpos p < 2 ^ Zpos (digits2_pos p).
Proof.
  rewrite digits2_size. split.
  - pose proof (Pos.size_le p) as H.
    assert (H' : Zpos (2 ^ Pos.size p) <= Zpos p~0) by exact H.
    rewrite Pos2Z.inj_pow in H'.
    replace (Zpos (Pos.size p)) with (Zpos (Pos.size p) - 1 + 1) in H' by lia.
    rewrite Z.pow_add_r in H' by lia. lia.
  - pose proof (Pos.size_gt p) as H.
    assert (H' : Zpos p < Zpos (2 ^ Pos.size p)) by exact H.
    rewrite Pos2Z.inj_pow in H'. exact H'.
Qed.

Lemma digits2_upper (p : positive) (k : Z) : Zpos p < 2 ^ k -> Zpos (digits2_pos p) <= k.
Proof.
  intros H. destruct (digits2_bounds p) as [Hlo _].
  destruct (Z.le_gt_cases (Zpos (digits2_pos p)) k) as [|Hgt]; [ assumption | ].
  exfalso. assert (2 ^ k <= 2 ^ (Zpos (digits2_pos p) - 1)).
  { apply Z.pow_le_mono_r; lia. }
  lia.
Qed.

Lemma digits2_iter_xO (p d : positive) :
  digits2_pos (Pos.iter xO p d) = (digits2_pos p + d)%positive.
Proof.
  induction d as [|d IH] using Pos.peano_ind.
  - cbn. lia.
  - rewrite Pos.iter_succ. cbn [digits2_pos]. rewrite IH. lia.
Qed.

Lemma shr_1_half (mrs : shr_record) :
  0 <= shr_m mrs -> shr_m (shr_1 mrs) = shr_m mrs / 2.
Proof.
  destruct mrs as [m r s]. cbn [shr_m]. intros Hm.
  destruct m as [|[p|p|]|p]; cbn [shr_1 shr_m]; try lia; try reflexivity.
  - change (Zpos p~1) with (2 * Zpos p + 1).
    apply (Z.div_unique _ _ _ 1); lia.
  - change (Zpos p~0) with (2 * Zpos p).
    apply (Z.div_unique _ _ _ 0); lia.
Qed.

Lemma iter_shr_1 (n : positive) :
  forall mrs, 0 <= shr_m mrs ->
    shr_m (@SpecFloat.iter_pos shr_record shr_1 n mrs) = shr_m mrs / 2 ^ Zpos n.
Proof.
  assert (Hpos : forall mrs, 0 <= shr_m mrs -> 0 <= shr_m (shr_1 mrs)).
  { intros mrs H. rewrite shr_1_half by exact H. apply Z.div_pos; lia. }
  induction n as [n IH|n IH|]; intros mrs Hm; cbn [SpecFloat.iter_pos].
  - assert (H1 := Hpos _ Hm).
    assert (H2 : 0 <= shr_m (@SpecFloat.iter_pos shr_record shr_1 n (shr_1 mrs))).
    { rewrite IH by exact H1. apply Z.div_pos; lia. }
    rewrite IH, IH, shr_1_half by assumption.
    rewrite !Z.div_div by lia. f_equal.
    replace (Zpos n~1) with (1 + Zpos n + Zpos n) by lia.
    rewrite !Z.pow_add_r by lia. change (2 ^ 1) with 2. ring.
  - assert (H2 : 0 <= shr_m (@SpecFloat.iter_pos shr_record shr_1 n mrs)).
    { rewrite IH by exact Hm. apply Z.div_pos; lia. }
    rewrite IH, IH by assumption.
    rewrite !Z.div_div by lia. f_equal.
    replace (Zpos n~0) with (Zpos n + Zpos n) by lia.
    rewrite !Z.pow_add_r by lia. ring.
  - rewrite shr_1_half by exact Hm. reflexivity.
Qed.

Lemma shr_record_of_loc_m (m : Z) (l : location) : shr_m (shr_record_of_loc m l) = m.
Proof. destruct l as [|[]]; reflexivity. Qed.

Lemma shr_fexp_spec (m e : Z) (l : location) :
  0 <= m ->
  shr_m (fst (shr_fexp f32.prec f32.emax m e l))
    = m / 2 ^ Z.max 0 (fexp f32.prec f32.emax (Zdigits2 m + e) - e)
  /\ snd (shr_fexp f32.prec f32.emax m e l)
    = e + Z.max 0 (fexp f32.prec f32.emax (Zdigits2 m + e) - e).
Proof.
  intros Hm. unfold shr_fexp, shr.
  destruct (fexp f32.prec f32.emax (Zdigits2 m + e) - e) as [|n|n] eqn:Hn; cbn [fst snd].
  - rewrite shr_record_of_loc_m. cbn. rewrite Z.div_1_r. lia.
  - rewrite iter_shr_1 by (rewrite shr_record_of_loc_m; exact Hm).
    rewrite shr_record_of_loc_m. rewrite Z.max_r by lia. split; reflexivity.
  - rewrite shr_record_of_loc_m. rewrite Z.max_l by lia. cbn. rewrite Z.div_1_r. lia.
Qed.

Lemma round_nearest_even_bounds (m : Z) (l : location) :
  m <= round_nearest_even m l <= m + 1.
Proof.
  destruct l as [|[]]; cbn; try lia.
  destruct (Z.even m); lia.
Qed.

Lemma fexp_normal (k : Z) : -124 <= k -> fexp f32.prec f32.emax k = k - 24.
Proof. intros H. unfold fexp, emin, f32.prec, f32.emax. lia. Qed.

Lemma Zdigits2_bounds (m : Z) :
  0 < m -> 1 <= Zdigits2 m /\ 2 ^ (Zdigits2 m - 1) <= m < 2 ^ Zdigits2 m.
Proof.
  destruct m as [|p|p]; try lia. intros _. cbn [Zdigits2].
  split; [ lia | apply digits2_bounds ].
Qed.

Lemma Zdigits2_upper (m k : Z) : 0 < m -> m < 2 ^ k -> Zdigits2 m <= k.
Proof.
  destruct m as [|p|p]; try lia. intros _. cbn [Zdigits2]. apply digits2_upper.
Qed.

(** One rounding step: a positive mantissa of at most 24 digits after
    the shift, and the exponent moved by the shift. *)
Lemma shr_fexp_normal (m e : Z) (l : location) :
  0 < m -> -125 <= e ->
  let m' := shr_m (fst (shr_fexp f32.prec f32.emax m e l)) in
  let e' := snd (shr_fexp f32.prec f32.emax m e l) in
  1 <= m' < 2 ^ 24 /\ e <= e' /\ e' <= Z.max e (Zdigits2 m + e - 24)
  /\ (m' < 2 ^ 23 -> Zdigits2 m < 24 /\ m' = m).
Proof.
  intros Hm He. cbv zeta.
  destruct (shr_fexp_spec m e l ltac:(lia)) as [-> ->].
  destruct (Zdigits2_bounds m Hm) as [Hd [Hlo Hhi]].
  rewrite fexp_normal by lia.
  replace (Zdigits2 m + e - 24 - e) with (Zdigits2 m - 24) by lia.
  destruct (Z.le_gt_cases (Zdigits2 m) 24) as [Hle|Hgt].
  - rewrite Z.max_l by lia. cbn. rewrite Z.div_1_r.
    assert (2 ^ Zdigits2 m <= 2 ^ 24) by (apply Z.pow_le_mono_r; lia).
    repeat split; try lia.
    destruct (Z.eq_dec (Zdigits2 m) 24) as [Heq|Hne]; [ | lia ].
    rewrite Heq in Hlo. change (2 ^ (24 - 1)) with (2 ^ 23) in Hlo. lia.
  - rewrite Z.max_r by lia.
    assert (Hsplit : 2 ^ Zdigits2 m = 2 ^ (Zdigits2 m - 24) * 2 ^ 24).
    { rewrite <- Z.pow_add_r by lia. f_equal. lia. }
    assert (Hsplit' : 2 ^ (Zdigits2 m - 1) = 2 ^ (Zdigits2 m - 24) * 2 ^ 23).
    { rewrite <- Z.pow_add_r by lia. f_equal. lia. }
    assert (Hp : 0 < 2 ^ (Zdigits2 m - 24)) by (apply Z.pow_pos_nonneg; lia).
    assert (2 ^ 23 <= m / 2 ^ (Zdigits2 m - 24)).
    { apply Z.div_le_lower_bound; lia. }
    assert (m / 2 ^ (Zdigits2 m - 24) < 2 ^ 24).
    { apply Z.div_lt_upper_bound; lia. }
    change (2 ^ 23) with 8388608 in *. change (2 ^ 24) with 16777216 in *.
    repeat split; lia.
Qed.

Lemma binary_round_aux_finite (mx ex : Z) (lx : location) :
  0 < mx -> -125 <= ex -> Zdigits2 mx + ex <= 100 ->
  exists m e, binary_round_aux f32.prec f32.emax false mx ex lx = S754_finite false m e.
Proof.
  intros Hm He Hmag. unfold binary_round_aux.
  pose proof (shr_fexp_normal mx ex lx Hm He) as H1. cbv zeta in H1.
  destruct (shr_fexp f32.prec f32.emax mx ex lx) as [mrs' e'].
  cbn [fst snd] in H1. destruct H1 as (Hm1 & He1 & He1' & _).
  pose proof (round_nearest_even_bounds (shr_m mrs') (loc_of_shr_record mrs')) as Hr.
  set (m2 := round_nearest_even (shr_m mrs') (loc_of_shr_record mrs')) in *.
  pose proof (shr_fexp_normal m2 e' loc_Exact ltac:(lia) ltac:(lia)) as H2. cbv zeta in H2.
  destruct (shr_fexp f32.prec f32.emax m2 e' loc_Exact) as [mrs'' e''].
  cbn [fst snd] in H2. destruct H2 as (Hm2 & He2 & He2' & _).
  assert (Hd2 : Zdigits2 m2 <= 25).
  { apply Zdigits2_upper; [ lia | ]. change (2 ^ 25) with 33554432.
    change (2 ^ 24) with 16777216 in *. lia. }
  destruct (Zdigits2_bounds mx Hm) as [Hd1 _].
  destruct (shr_m mrs'') as [|m|m]; try lia.
  assert (Hle : e'' <= f32.emax - f32.prec) by (unfold f32.emax, f32.prec; lia).
  rewrite (proj2 (Z.leb_le _ _) Hle). eauto.
Qed.

Lemma of_int_finite (w : Z) :
  0 < w <= Int.INT_MAX -> exists m e, f32.of_int w = S754_finite false m e.
Proof.
  intros Hw. destruct w as [|p|p]; try lia.
  unfold f32.of_int, binary_normalize, binary_round.
  destruct (digits2_bounds p) as [Hlo Hhi].
  assert (Hd : 1 <= Zpos (digits2_pos p) <= 31).
  { split; [ lia | ]. apply digits2_upper. unfold Int.INT_MAX in Hw.
    change (2 ^ 31) with 2147483648. lia. }
  rewrite Z.add_0_r, fexp_normal by lia.
  unfold shl_align. rewrite Z.sub_0_r.
  destruct (Zpos (digits2_pos p) - 24) as [|d|d] eqn:Hdig.
  - apply binary_round_aux_finite; cbn [Zdigits2]; lia.
  - apply binary_round_aux_finite; cbn [Zdigits2]; lia.
  - apply binary_round_aux_finite; cbn [Zdigits2]; try lia.
    rewrite digits2_iter_xO. lia.
Qed.

Lemma div_self (s : bool) (m : positive) (e : Z) :
  f32.div (S754_finite s m e) (S754_finite s m e) = f32.of_int 1.
Proof.
  unfold f32.div, SFdiv, SFdiv_core_binary.
  rewrite Z.sub_diag, Z.sub_diag.
  change (Z.min (fexp f32.prec f32.emax 0) 0) with (-24).
  change (0 - -24) with 24. cbv iota.
  rewrite Z.shiftl_mul_pow2 by lia.
  assert (Hq : Z.div_eucl (Zpos m * 2 ^ 24) (Zpos m) = (2 ^ 24, 0)).
  { pose proof (Z_div_mod_full (Zpos m * 2 ^ 24) (Zpos m) ltac:(lia)) as H.
    unfold Z.div, Z.modulo in *.
    pose proof (Z.div_mul (2 ^ 24) (Zpos m) ltac:(lia)) as Hd.
    pose proof (Z.mod_mul (2 ^ 24) (Zpos m) ltac:(lia)) as Hr.
    unfold Z.div, Z.modulo in Hd, Hr. rewrite (Z.mul_comm (Zpos m)).
    destruct (Z.div_eucl (2 ^ 24 * Zpos m) (Zpos m)) as [q r]. cbn in Hd, Hr.
    subst. reflexivity. }
  rewrite Hq.
  assert (Hloc : new_location (Zpos m) 0 = loc_Exact).
  { unfold new_location, new_location_even, new_location_odd.
    destruct (Z.even (Zpos m)); reflexivity. }
  rewrite Hloc. rewrite xorb_nilpotent. vm_compute. reflexivity.
Qed.

Lemma sponge_ratio_edge (w : Z) :
  0 < w <= Int.INT_MAX -> sponge_ratio w 0 = f32.of_int 1.
Proof.
  intros Hw. unfold sponge_ratio, Int.sub. rewrite Z.sub_0_r.
  rewrite wrap_small by (unfold Int.INT_MIN, Int.INT_MAX in *; lia).
  destruct (of_int_finite w Hw) as (m & e & ->). apply div_self.
Qed.

(** ** Rounding of a quotient *)

Lemma Zdigits2_eq (m k : Z) : 0 < m -> 2 ^ (k - 1) <= m < 2 ^ k -> Zdigits2 m = k.
Proof.
  intros Hm [Hlo Hhi].
  destruct (Zdigits2_bounds m Hm) as (Hd & Hl & Hh).
  destruct (Z.lt_trichotomy (Zdigits2 m) k) as [Hlt|[Heq|Hgt]]; [ | exact Heq | ].
  - exfalso. assert (0 <= k - 1) by lia.
    assert (2 ^ Zdigits2 m <= 2 ^ (k - 1)) by (apply Z.pow_le_mono_r; lia). lia.
  - exfalso. assert (0 <= k).
    { destruct (Z.le_gt_cases 0 k) as [|Hk]; [ assumption | ].
      rewrite (Z.pow_neg_r 2 k) in Hhi by lia. lia. }
    assert (2 ^ k <= 2 ^ (Zdigits2 m - 1)) by (apply Z.pow_le_mono_r; lia). lia.
Qed.

Lemma loc_of_shr_record_of_loc (m : Z) (l : location) :
  loc_of_shr_record (shr_record_of_loc m l) = l.
Proof. destruct l as [|[]]; reflexivity. Qed.

(** Rounding a mantissa of 24 digits: no shift, and a carry when the
    mantissa becomes [2^24]. *)
Lemma round_canon (m e : Z) (l : location) :
  8388608 <= m < 16777216 -> -149 <= e <= 103 ->
  binary_round_aux f32.prec f32.emax false m e l = canon (round_nearest_even m l) e.
Proof.
  intros Hm He. unfold binary_round_aux.
  assert (Hd : Zdigits2 m = 24) by (apply Zdigits2_eq; [ lia | change (2 ^ (24 - 1)) with 8388608; change (2 ^ 24) with 16777216; lia ]).
  assert (H1 : shr_fexp f32.prec f32.emax m e l = (shr_record_of_loc m l, e)).
  { unfold shr_fexp. rewrite Hd.
    replace (fexp f32.prec f32.emax (24 + e) - e) with 0
      by (unfold fexp, emin, f32.prec, f32.emax; lia).
    reflexivity. }
  rewrite H1, shr_record_of_loc_m, loc_of_shr_record_of_loc.
  pose proof (round_nearest_even_bounds m l) as Hr.
  set (M := round_nearest_even m l) in *.
  unfold canon. destruct (Z.ltb_spec M 16777216) as [Hlt|Hge].
  - assert (Hd2 : Zdigits2 M = 24) by (apply Zdigits2_eq; [ lia | change (2 ^ (24 - 1)) with 8388608; change (2 ^ 24) with 16777216; lia ]).
    assert (H2 : shr_fexp f32.prec f32.emax M e loc_Exact = (shr_record_of_loc M loc_Exact, e)).
    { unfold shr_fexp. rewrite Hd2.
      replace (fexp f32.prec f32.emax (24 + e) - e) with 0
        by (unfold fexp, emin, f32.prec, f32.emax; lia).
      reflexivity. }
    rewrite H2, shr_record_of_loc_m.
    destruct M as [|p|p]; try lia.
    rewrite (proj2 (Z.leb_le e (f32.emax - f32.prec)))
      by (unfold f32.emax, f32.prec; lia).
    reflexivity.
  - assert (HM : M = 16777216) by lia. rewrite HM.
    unfold shr_fexp. change (Zdigits2 16777216) with 25.
    replace (fexp f32.prec f32.emax (25 + e) - e) with 1
      by (unfold fexp, emin, f32.prec, f32.emax; lia).
    cbn.
    rewrite (proj2 (Z.leb_le (e + 1) (f32.emax - f32.prec)))
      by (unfold f32.emax, f32.prec; lia).
    reflexivity.
Qed.

(** The record after one shift: half the mantissa, its last digit as
    the round bit, and what was beyond it as the sticky bit. *)
Lemma shr_1_bits (m : Z) (l : location) :
  0 <= m ->
  shr_m (shr_1 (shr_record_of_loc m l)) = m / 2
  /\ shr_r (shr_1 (shr_record_of_loc m l)) = Z.odd m
  /\ shr_s (shr_1 (shr_record_of_loc m l))
     = match l with loc_Exact => false | _ => true end.
Proof.
  intros Hm. split.
  - rewrite shr_1_half by (rewrite shr_record_of_loc_m; exact Hm).
    rewrite shr_record_of_loc_m. reflexivity.
  - destruct m as [|[p|p|]|p]; try lia; destruct l as [|[]]; split; reflexivity.
Qed.

(** Rounding a mantissa of 25 digits: one shift first. *)
Lemma round_canon_shift (m e : Z) (l : location) :
  16777216 <= m < 33554432 -> -150 <= e <= 102 ->
  binary_round_aux f32.prec f32.emax false m e l
  = canon (round_nearest_even (m / 2)
             (loc_of_shr_record (shr_1 (shr_record_of_loc m l)))) (e + 1).
Proof.
  intros Hm He. unfold binary_round_aux.
  assert (Hd : Zdigits2 m = 25) by (apply Zdigits2_eq; [ lia | change (2 ^ (25 - 1)) with 16777216; change (2 ^ 25) with 33554432; lia ]).
  assert (H1 : shr_fexp f32.prec f32.emax m e l
               = (shr_1 (shr_record_of_loc m l), e + 1)).
  { unfold shr_fexp. rewrite Hd.
    replace (fexp f32.prec f32.emax (25 + e) - e) with 1
      by (unfold fexp, emin, f32.prec, f32.emax; lia).
    reflexivity. }
  rewrite H1.
  destruct (shr_1_bits m l ltac:(lia)) as (Hhalf & _ & _). rewrite Hhalf.
  assert (Hh : 8388608 <= m / 2 < 16777216).
  { split; [ apply Z.div_le_lower_bound; lia | apply Z.div_lt_upper_bound; lia ]. }
  set (l' := loc_of_shr_record (shr_1 (shr_record_of_loc m l))).
  pose proof (round_canon (m / 2) (e + 1) l' Hh ltac:(lia)) as Hc.
  unfold binary_round_aux in Hc.
  assert (Hd2 : Zdigits2 (m / 2) = 24) by (apply Zdigits2_eq; [ lia | change (2 ^ (24 - 1)) with 8388608; change (2 ^ 24) with 16777216; lia ]).
  assert (H2 : shr_fexp f32.prec f32.emax (m / 2) (e + 1) l'
               = (shr_record_of_loc (m / 2) l', e + 1)).
  { unfold shr_fexp. rewrite Hd2.
    replace (fexp f32.prec f32.emax (24 + (e + 1)) - (e + 1)) with 0
      by (unfold fexp, emin, f32.prec, f32.emax; lia).
    reflexivity. }
  rewrite H2, shr_record_of_loc_m, loc_of_shr_record_of_loc in Hc. exact Hc.
Qed.

(** The quotient of two positive numbers with mantissas of 24 digits:
    the quotient of the mantissas with 24 more digits has 24 or 25
    digits, and is rounded. *)
Lemma div_canonical (m1 m2 : positive) (e1 e2 : Z) :
  8388608 <= Zpos m1 < 16777216 -> 8388608 <= Zpos m2 < 16777216 ->
  -125 <= e1 - e2 <= 126 ->
  f32.div (S754_finite false m1 e1) (S754_finite false m2 e2)
  = let q := Zpos m1 * 16777216 / Zpos m2 in
    let l := new_location (Zpos m2) (Zpos m1 * 16777216 mod Zpos m2) in
    if Zpos m1 <? Zpos m2 then canon (round_nearest_even q l) (e1 - e2 - 24)
    else canon (round_nearest_even (q / 2)
                  (loc_of_shr_record (shr_1 (shr_record_of_loc q l))))
               (e1 - e2 - 23).
Proof.
  intros H1 H2 He. cbv zeta.
  unfold f32.div, SFdiv, SFdiv_core_binary. cbn [xorb].
  assert (Hd1 : Zdigits2 (Zpos m1) = 24) by (apply Zdigits2_eq; [ lia | change (2 ^ (24 - 1)) with 8388608; change (2 ^ 24) with 16777216; lia ]).
  assert (Hd2 : Zdigits2 (Zpos m2) = 24) by (apply Zdigits2_eq; [ lia | change (2 ^ (24 - 1)) with 8388608; change (2 ^ 24) with 16777216; lia ]).
  rewrite Hd1, Hd2.
  replace (Z.min (fexp f32.prec f32.emax (24 + e1 - (24 + e2))) (e1 - e2))
    with (e1 - e2 - 24) by (unfold fexp, emin, f32.prec, f32.emax; lia).
  replace (e1 - e2 - (e1 - e2 - 24)) with 24 by lia.
  rewrite Z.shiftl_mul_pow2 by lia. change (2 ^ 24) with 16777216.
  set (num := Zpos m1 * 16777216).
  assert (Hq : Z.div_eucl num (Zpos m2) = (num / Zpos m2, num mod Zpos m2)).
  { unfold Z.div, Z.modulo. destruct (Z.div_eucl num (Zpos m2)). reflexivity. }
  rewrite Hq.
  pose proof (Z.div_mod num (Zpos m2) ltac:(lia)) as Hdm.
  pose proof (Z.mod_pos_bound num (Zpos m2) ltac:(lia)) as Hr.
  set (q := num / Zpos m2) in *. set (r := num mod Zpos m2) in *.
  destruct (Z.ltb_spec (Zpos m1) (Zpos m2)) as [Hlt|Hge].
  - assert (Hqr : 8388608 <= q < 16777216) by (unfold num in *; nia).
    rewrite round_canon by lia. reflexivity.
  - assert (Hqr : 16777216 <= q < 33554432) by (unfold num in *; nia).
    rewrite round_canon_shift by lia.
    replace (e1 - e2 - 24 + 1) with (e1 - e2 - 23) by lia. reflexivity.
Qed.

(** The rounded quotient is a nearest integer. *)
Lemma round_quotient (num den : Z) :
  0 < den -> 0 <= num ->
  let q := num / den in
  let M := round_nearest_even q (new_location den (num mod den)) in
  q <= M <= q + 1 /\ 2 * Z.abs (M * den - num) <= den.
Proof.
  intros Hden Hnum. cbv zeta.
  pose proof (Z.div_mod num den ltac:(lia)) as Hdm.
  pose proof (Z.mod_pos_bound num den ltac:(lia)) as Hr.
  set (q := num / den) in *. set (r := num mod den) in *.
  assert (Hloc : new_location den r
                 = if r =? 0 then loc_Exact
                   else loc_Inexact (if 2 * r <? den then Lt
                                     else if 2 * r =? den then Eq else Gt)).
  { unfold new_location. destruct (Z.even den) eqn:Hev;
      unfold new_location_even, new_location_odd;
      (destruct (Z.eqb_spec r 0) as [Hr0|Hr0]; [ reflexivity | ]).
    - destruct (Z.compare_spec (2 * r) den), (Z.ltb_spec (2 * r) den),
        (Z.eqb_spec (2 * r) den); try lia; reflexivity.
    - assert (Hodd : Z.odd den = true) by (rewrite <- Z.negb_even, Hev; reflexivity).
      apply Z.odd_spec in Hodd as [k Hk].
      destruct (Z.compare_spec (2 * r + 1) den), (Z.ltb_spec (2 * r) den),
        (Z.eqb_spec (2 * r) den); try lia; reflexivity. }
  rewrite Hloc. unfold round_nearest_even.
  destruct (Z.eqb_spec r 0); [ nia | ].
  destruct (Z.ltb_spec (2 * r) den); [ nia | ].
  destruct (Z.eqb_spec (2 * r) den); [ destruct (Z.even q); nia | nia ].
Qed.

(** The same after one shift: the quotient is halved first. *)
Lemma round_quotient_shift (num den : Z) :
  0 < den -> 0 <= num ->
  let q := num / den in
  let M := round_nearest_even (q / 2)
             (loc_of_shr_record
                (shr_1 (shr_record_of_loc q (new_location den (num mod den))))) in
  q / 2 <= M <= q / 2 + 1 /\ Z.abs (2 * M * den - num) <= den.
Proof.
  intros Hden Hnum. cbv zeta.
  pose proof (Z.div_mod num den ltac:(lia)) as Hdm.
  pose proof (Z.mod_pos_bound num den ltac:(lia)) as Hr.
  set (q := num / den) in *. set (r := num mod den) in *.
  assert (Hq : 0 <= q) by (apply Z.div_pos; lia).
  destruct (shr_1_bits q (new_location den r) Hq) as (_ & Hrb & Hsb).
  assert (Hs : shr_s (shr_1 (shr_record_of_loc q (new_location den r)))
               = negb (r =? 0)).
  { rewrite Hsb. unfold new_location.
    destruct (Z.even den); unfold new_location_even, new_location_odd;
      destruct (r =? 0); reflexivity. }
  pose proof (Z.div_mod q 2 ltac:(lia)) as Hq2.
  pose proof (Z.mod_pos_bound q 2 ltac:(lia)) as Hq2r.
  assert (Hodd : Z.odd q = negb (q mod 2 =? 0)).
  { rewrite Zmod_odd. destruct (Z.odd q); reflexivity. }
  destruct (shr_1 (shr_record_of_loc q (new_location den r))) as [m' rb sb].
  cbn [shr_r shr_s] in Hrb, Hs. subst rb sb. rewrite Hodd.
  unfold loc_of_shr_record, round_nearest_even.
  destruct (Z.eqb_spec (q mod 2) 0), (Z.eqb_spec r 0); cbn [negb];
    try destruct (Z.even (q / 2)); nia.
Qed.

Lemma iter_xO_value (p d : positive) : Zpos (Pos.iter xO p d) = Zpos p * 2 ^ Zpos d.
Proof.
  induction d as [|d IH] using Pos.peano_ind.
  - cbn. lia.
  - rewrite Pos.iter_succ. change (Zpos (Pos.iter xO p d)~0) with (2 * Zpos (Pos.iter xO p d)).
    rewrite IH, Pos2Z.inj_succ, Z.pow_succ_r by lia. ring.
Qed.

(** The conversion of an [int] of at most 24 binary digits is exact:
    the mantissa holds the digits, moved to the left. *)
Lemma of_int_canonical (n : Z) :
  0 < n <= 16777216 ->
  exists (m : positive) (e : Z),
    f32.of_int n = S754_finite false m e
    /\ 8388608 <= Zpos m < 16777216 /\ -23 <= e <= 1
    /\ Zpos m * 2 ^ (e + 23) = n * 8388608
    /\ (n = 16777216 -> Zpos m = 8388608).
Proof.
  intros Hn. destruct (Z.eq_dec n 16777216) as [->|Hne].
  { exists 8388608%positive, 1. repeat split; try reflexivity; lia. }
  destruct n as [|p|p]; try lia.
  unfold f32.of_int, binary_normalize, binary_round.
  destruct (digits2_bounds p) as [Hlo Hhi].
  set (d := Zpos (digits2_pos p)) in *.
  assert (Hd : 1 <= d <= 24).
  { split; [ unfold d; lia | ]. apply digits2_upper. change (2 ^ 24) with 16777216. lia. }
  replace (fexp f32.prec f32.emax (d + 0)) with (d - 24)
    by (unfold fexp, emin, f32.prec, f32.emax; lia).
  assert (Hp23 : 2 ^ (d - 1) * 2 ^ (24 - d) = 8388608).
  { rewrite <- Z.pow_add_r by lia. replace (d - 1 + (24 - d)) with 23 by lia. reflexivity. }
  assert (Hp24 : 2 ^ d * 2 ^ (24 - d) = 16777216).
  { rewrite <- Z.pow_add_r by lia. replace (d + (24 - d)) with 24 by lia. reflexivity. }
  assert (Hpos : 0 < 2 ^ (24 - d)) by (apply Z.pow_pos_nonneg; lia).
  unfold shl_align. rewrite Z.sub_0_r.
  destruct (d - 24) as [|k|k] eqn:Hk; try lia.
  - (* 24 digits *)
    assert (Hd24 : d = 24) by lia. rewrite Hd24 in *.
    change (2 ^ (24 - 1)) with 8388608 in Hlo. change (2 ^ 24) with 16777216 in Hhi.
    rewrite round_canon by lia. cbn [round_nearest_even]. unfold canon.
    rewrite (proj2 (Z.ltb_lt _ _)) by lia. cbn [Z.to_pos].
    exists p, 0. repeat split; lia.
  - (* fewer digits: the mantissa is moved to the left *)
    assert (Hkd : Zpos k = 24 - d) by lia.
    assert (Hm : Zpos (Pos.iter xO p k) = Zpos p * 2 ^ (24 - d))
      by (rewrite iter_xO_value, Hkd; reflexivity).
    assert (Hrange : 8388608 <= Zpos (Pos.iter xO p k) < 16777216) by (rewrite Hm; nia).
    rewrite round_canon by lia. cbn [round_nearest_even]. unfold canon.
    rewrite (proj2 (Z.ltb_lt _ _)) by lia. cbn [Z.to_pos].
    exists (Pos.iter xO p k), (Z.neg k).
    split; [ reflexivity | ]. split; [ exact Hrange | ]. split; [ lia | ].
    split; [ | lia ].
    rewrite Hm. replace (Z.neg k + 23) with (d - 1) by lia.
    rewrite <- Z.mul_assoc, (Z.mul_comm (2 ^ (24 - d))), Hp23. reflexivity.
Qed.

(** The quotient [float(a) / float(w)] of two [int]s of at most 24
    digits, [a <= w]: a mantissa [M] and an exponent [E] with, in units
    of [2^-48 / w], the value [M * X] where [X = 2^(E + 48) * w] is the
    unit of the last place; [M * X] is within half a unit of the exact
    quotient [a * 2^48], which lies in the binade of [X]. *)
Lemma ratio_spec (a w : Z) :
  0 < a <= w -> w <= 16777216 ->
  exists M E,
    f32.div (f32.of_int a) (f32.of_int w) = canon M E
    /\ 8388608 <= M <= 16777216 /\ -48 <= E <= 2
    /\ 2 * Z.abs (M * (2 ^ (E + 48) * w) - a * 2 ^ 48) <= 2 ^ (E + 48) * w
    /\ 8388608 * (2 ^ (E + 48) * w) <= a * 2 ^ 48 < 16777216 * (2 ^ (E + 48) * w)
    /\ (w = 16777216 -> M * (2 ^ (E + 48) * w) = a * 2 ^ 48).
Proof.
  intros Ha Hw.
  destruct (of_int_canonical a ltac:(lia)) as (ma & ea & -> & Hma & Hea & Hva & _).
  destruct (of_int_canonical w ltac:(lia)) as (mw & ew & -> & Hmw & Hew & Hvw & Hw24).
  rewrite div_canonical by lia. cbv zeta.
  set (A := 2 ^ (ea + 23)) in *. set (Wp := 2 ^ (ew + 23)) in *.
  assert (HA : 0 < A) by (apply Z.pow_pos_nonneg; lia).
  assert (HW : 0 < Wp) by (apply Z.pow_pos_nonneg; lia).
  change (2 ^ 48) with 281474976710656.
  set (num := Zpos ma * 16777216).
  pose proof (Z.div_mod num (Zpos mw) ltac:(lia)) as Hdm.
  pose proof (Z.mod_pos_bound num (Zpos mw) ltac:(lia)) as Hr.
  destruct (Z.ltb_spec (Zpos ma) (Zpos mw)) as [Hlt|Hge].
  - destruct (round_quotient num (Zpos mw) ltac:(lia) ltac:(unfold num; lia)) as [HM Herr].
    cbv zeta in HM, Herr.
    set (M := round_nearest_even (num / Zpos mw) (new_location (Zpos mw) (num mod Zpos mw))) in *.
    assert (Hq : 8388608 <= num / Zpos mw < 16777216) by (unfold num in *; nia).
    exists M, (ea - ew - 24). split; [ reflexivity | ].
    split; [ lia | ]. split; [ lia | ].
    replace (ea - ew - 24 + 48) with ((ea + 23) - (ew + 23) + 24) by lia.
    set (U := 2 ^ (ea + 23 - (ew + 23) + 24)).
    assert (HU : U * Wp = A * 16777216).
    { unfold U, Wp, A. rewrite <- Z.pow_add_r by lia.
      replace (ea + 23 - (ew + 23) + 24 + (ew + 23)) with (ea + 23 + 24) by lia.
      rewrite Z.pow_add_r by lia. reflexivity. }
    assert (HUpos : 0 < U) by (apply Z.pow_pos_nonneg; lia).
    set (K := A * 16777216) in *.
    assert (HK : 0 < K) by (unfold K; lia).
    assert (HX : U * w * 8388608 = Zpos mw * K).
    { replace (U * w * 8388608) with (U * (w * 8388608)) by ring.
      rewrite <- Hvw. replace (U * (Zpos mw * Wp)) with (Zpos mw * (U * Wp)) by ring.
      rewrite HU. reflexivity. }
    assert (HN : a * 281474976710656 * 8388608 = num * K).
    { replace (a * 281474976710656 * 8388608) with (a * 8388608 * 281474976710656) by ring.
      rewrite <- Hva. unfold num, K. ring. }
    assert (HD : (M * (U * w) - a * 281474976710656) * 8388608
                 = K * (M * Zpos mw - num)).
    { replace ((M * (U * w) - a * 281474976710656) * 8388608)
        with (M * (U * w * 8388608) - a * 281474976710656 * 8388608) by ring.
      rewrite HX, HN. ring. }
    split; [ | split ].
    + assert (2 * Z.abs ((M * (U * w) - a * 281474976710656) * 8388608) <= U * w * 8388608).
      { rewrite HD, HX, Z.abs_mul, (Z.abs_eq K) by lia.
        assert (K * (2 * Z.abs (M * Zpos mw - num)) <= K * Zpos mw)
          by (apply Z.mul_le_mono_nonneg_l; lia).
        lia. }
      lia.
    + assert (K * (8388608 * Zpos mw) <= K * num)
        by (apply Z.mul_le_mono_nonneg_l; unfold num; lia).
      assert (K * num < K * (16777216 * Zpos mw))
        by (apply Z.mul_lt_mono_pos_l; unfold num; lia).
      lia.
    + intros Hw'. specialize (Hw24 Hw'). exfalso. lia.
  - destruct (round_quotient_shift num (Zpos mw) ltac:(lia) ltac:(unfold num; lia)) as [HM Herr].
    cbv zeta in HM, Herr.
    set (M := round_nearest_even (num / Zpos mw / 2) _) in *.
    assert (Hq : 16777216 <= num / Zpos mw < 33554432) by (unfold num in *; nia).
    assert (Hq2 : 8388608 <= num / Zpos mw / 2 < 16777216).
    { split; [ apply Z.div_le_lower_bound; lia | apply Z.div_lt_upper_bound; lia ]. }
    exists M, (ea - ew - 23). split; [ reflexivity | ].
    split; [ lia | ]. split; [ lia | ].
    replace (ea - ew - 23 + 48) with ((ea + 23) - (ew + 23) + 25) by lia.
    set (U := 2 ^ (ea + 23 - (ew + 23) + 25)).
    assert (HU : U * Wp = A * 33554432).
    { unfold U, Wp, A. rewrite <- Z.pow_add_r by lia.
      replace (ea + 23 - (ew + 23) + 25 + (ew + 23)) with (ea + 23 + 25) by lia.
      rewrite Z.pow_add_r by lia. reflexivity. }
    assert (HUpos : 0 < U) by (apply Z.pow_pos_nonneg; lia).
    set (K := A * 16777216) in *.
    assert (HK : 0 < K) by (unfold K; lia).
    assert (HX : U * w * 8388608 = 2 * Zpos mw * K).
    { replace (U * w * 8388608) with (U * (w * 8388608)) by ring.
      rewrite <- Hvw. replace (U * (Zpos mw * Wp)) with (Zpos mw * (U * Wp)) by ring.
      rewrite HU. unfold K. ring. }
    assert (HN : a * 281474976710656 * 8388608 = num * K).
    { replace (a * 281474976710656 * 8388608) with (a * 8388608 * 281474976710656) by ring.
      rewrite <- Hva. unfold num, K. ring. }
    assert (HD : (M * (U * w) - a * 281474976710656) * 8388608
                 = K * (2 * M * Zpos mw - num)).
    { replace ((M * (U * w) - a * 281474976710656) * 8388608)
        with (M * (U * w * 8388608) - a * 281474976710656 * 8388608) by ring.
      rewrite HX, HN. ring. }
    split; [ | split ].
    + assert (2 * Z.abs ((M * (U * w) - a * 281474976710656) * 8388608) <= U * w * 8388608).
      { rewrite HD, HX, Z.abs_mul, (Z.abs_eq K) by lia.
        assert (K * Z.abs (2 * M * Zpos mw - num) <= K * Zpos mw)
          by (apply Z.mul_le_mono_nonneg_l; lia).
        lia. }
      lia.
    + assert (K * (8388608 * (2 * Zpos mw)) <= K * num)
        by (apply Z.mul_le_mono_nonneg_l; unfold num; lia).
      assert (K * num < K * (16777216 * (2 * Zpos mw)))
        by (apply Z.mul_lt_mono_pos_l; unfold num; lia).
      lia.
    + intros Hw'. specialize (Hw24 Hw').
      assert (HM2 : 2 * M * Zpos mw - num = 0) by (unfold num in *; lia).
      assert ((M * (U * w) - a * 281474976710656) * 8388608 = 0); [ | lia ].
      rewrite HD, HM2. lia.
Qed.

(** Order of two such numbers, by exponent and then by mantissa. *)
Lemma canon_ltb (M1 E1 M2 E2 : Z) :
  8388608 <= M1 <= 16777216 -> 8388608 <= M2 <= 16777216 ->
  (E1 < E2 /\ ~ (M1 = 16777216 /\ M2 = 8388608 /\ E2 = E1 + 1)) \/ (E1 = E2 /\ M1 < M2) ->
  f32.ltb (canon M1 E1) (canon M2 E2) = true.
Proof.
  intros H1 H2 H. unfold canon, f32.ltb, SFltb, SFcompare.
  change (Pos.compare_cont Eq) with Pos.compare.
  destruct (Z.ltb_spec M1 16777216), (Z.ltb_spec M2 16777216);
    match goal with
    | |- context [(?x ?= ?y)%Z] => destruct (Z.compare_spec x y)
    end; try reflexivity; try lia;
    match goal with
    | |- context [(?x ?= ?y)%positive] => destruct (Pos.compare_spec x y)
    end; try reflexivity; try lia.
Qed.

Lemma pow2_below (k n : Z) : 0 <= k -> 0 <= n -> 2 ^ k < 2 ^ (n + 1) -> 2 ^ k <= 2 ^ n.
Proof.
  intros Hk Hn H. apply Z.pow_lt_mono_r_iff in H; [ | lia | lia ].
  apply Z.pow_le_mono_r; lia.
Qed.

(** On [int]s of at most 24 digits the quotient by [w] is strictly
    increasing: two numerators differ by 1 at least, their exact
    quotients by more than the unit of the last place, or by this unit
    when [w = 2^24], and then the quotients are exact. *)
Lemma ratio_increasing (a b w : Z) :
  0 < a < b -> b <= w -> w <= 16777216 ->
  f32.ltb (f32.of_int a / f32.of_int w)%f32 (f32.of_int b / f32.of_int w)%f32 = true.
Proof.
  intros Hab Hbw Hw.
  destruct (ratio_spec a w ltac:(lia) Hw) as (Ma & Ea & -> & HMa & HEa & Herra & Hbina & Hexa).
  destruct (ratio_spec b w ltac:(lia) Hw) as (Mb & Eb & -> & HMb & HEb & Herrb & Hbinb & Hexb).
  change (2 ^ 48) with 281474976710656 in *.
  set (Ua := 2 ^ (Ea + 48)) in *. set (Ub := 2 ^ (Eb + 48)) in *.
  assert (HUa : 0 < Ua) by (apply Z.pow_pos_nonneg; lia).
  assert (HUb : 0 < Ub) by (apply Z.pow_pos_nonneg; lia).
  (* the unit of [a / w] is at most [2^-24] *)
  assert (HUa24 : Ua <= 16777216).
  { change 16777216 with (2 ^ 24). apply pow2_below; [ lia | lia | ].
    change (2 ^ (24 + 1)) with 33554432. fold Ua.
    assert (8388608 * Ua * w < 281474976710656 * w) by nia.
    assert (8388608 * Ua < 281474976710656); [ | lia ].
    apply (Z.mul_lt_mono_pos_r w); lia. }
  assert (HXa : Ua * w <= 16777216 * w) by (apply Z.mul_le_mono_nonneg_r; lia).
  apply canon_ltb; try assumption.
  destruct (Z.lt_trichotomy Ea Eb) as [Hlt|[Heq|Hgt]].
  - left. split; [ exact Hlt | ]. intros (HMa' & HMb' & HE).
    assert (HUab : Ub = 2 * Ua).
    { unfold Ua, Ub. rewrite HE. replace (Ea + 1 + 48) with (Z.succ (Ea + 48)) by lia.
      rewrite Z.pow_succ_r by lia. reflexivity. }
    rewrite HUab, HMa', HMb' in *.
    destruct (Z.eq_dec Ua 16777216) as [HU|HU].
    + rewrite HU in *. lia.
    + assert (HU23 : Ua <= 8388608).
      { change 8388608 with (2 ^ 23). apply pow2_below; [ lia | lia | ].
        change (2 ^ (23 + 1)) with 16777216. fold Ua. lia. }
      assert (Ua * w <= 8388608 * w) by (apply Z.mul_le_mono_nonneg_r; lia).
      lia.
  - right. split; [ exact Heq | ].
    assert (HU : Ub = Ua) by (unfold Ua, Ub; rewrite Heq; reflexivity).
    rewrite HU in *.
    destruct (Z.lt_ge_cases Ma Mb) as [|Hge]; [ assumption | exfalso ].
    assert (Mb * (Ua * w) <= Ma * (Ua * w)) by (apply Z.mul_le_mono_nonneg_r; lia).
    destruct (Z.eq_dec w 16777216) as [Hw24|Hw24].
    + specialize (Hexa Hw24). specialize (Hexb Hw24). lia.
    + lia.
  - exfalso.
    assert (HUab : 2 * Ub <= Ua).
    { unfold Ua, Ub. replace (2 * 2 ^ (Eb + 48)) with (2 ^ (Z.succ (Eb + 48)))
        by (rewrite Z.pow_succ_r by lia; reflexivity).
      apply Z.pow_le_mono_r; lia. }
    assert (2 * Ub * w <= Ua * w) by (apply Z.mul_le_mono_nonneg_r; lia).
    lia.
Qed.

(** ** The profile of the mask *)

(** Inside a layer of at most [2^24] cells the ratio is strictly larger
    nearer the edge. *)
Lemma sponge_ratio_decreasing (w d1 d2 : Z) :
  0 <= d1 < d2 -> d2 < w -> w <= exact_thickness ->
  f32.ltb (sponge_ratio w d2) (sponge_ratio w d1) = true.
Proof.
  intros Hd Hw Hmax. unfold exact_thickness in Hmax. unfold sponge_ratio, Int.sub.
  rewrite !wrap_small by (unfold Int.INT_MIN, Int.INT_MAX; lia).
  apply ratio_increasing; lia.
Qed.

Lemma layer_ratios_elem (w d : Z) : 0 <= d < w -> In (sponge_ratio w d) (layer_ratios w).
Proof.
  intros Hd. unfold layer_ratios. apply in_map, list_elem_of_In, elem_of_zrange. exact Hd.
Qed.

(** C3, as the code has it.  For a grid of [nx] by [ny] cells and a
    thickness [w], the mask of cell [(i, j)], at distance [d] from the
    nearest edge, is 0 when [d >= w] (so everywhere when [w <= 0]) and
    [powf(r, 4.0f)] with [r = float(w - d) / float(w)] when [d < w].
    The ratio [r] is exactly 1 at distance 0, so the mask there is 1
    when [powf(1, 4)] is 1.  In a layer of at most [2^24] cells the
    ratio is strictly larger at a smaller distance, and with it the
    mask: a cell of the layer nearer the edge than [(i, j)] has a
    mask strictly above that of [(i, j)], when [powf(., 4)] is strictly
    increasing on the ratios of the layer. *)
Theorem make_sponge_profile `{R : Runtime} (nx ny w i j : Z) :
  0 < nx -> 0 < ny -> nx * ny <= Int.INT_MAX ->
  Int.INT_MIN <= w <= Int.INT_MAX ->
  0 <= i < nx -> 0 <= j < ny ->
  edge_distance nx ny i j = Z.min (Z.min i (nx - 1 - i)) (Z.min j (ny - 1 - j))
  /\ make_sponge nx ny w !! Z.to_nat (j * nx + i)
     = Some (if w <=? edge_distance nx ny i j then f32.zero
             else powf (sponge_ratio w (edge_distance nx ny i j)) (f32.of_int 4))
  /\ (w <= 0 -> make_sponge nx ny w !! Z.to_nat (j * nx + i) = Some f32.zero)
  /\ (0 < w -> sponge_ratio w 0 = f32.of_int 1)
  /\ (0 < w -> edge_distance nx ny i j = 0 ->
      powf (f32.of_int 1) (f32.of_int 4) = f32.of_int 1 ->
      make_sponge nx ny w !! Z.to_nat (j * nx + i) = Some (f32.of_int 1))
  /\ (forall d1 d2, 0 <= d1 < d2 -> d2 < w -> w <= exact_thickness ->
      f32.ltb (sponge_ratio w d2) (sponge_ratio w d1) = true)
  /\ (forall i' j', 0 <= i' < nx -> 0 <= j' < ny ->
      edge_distance nx ny i' j' < edge_distance nx ny i j ->
      edge_distance nx ny i j < w -> w <= exact_thickness ->
      increasing_on (fun x => powf x (f32.of_int 4)) (layer_ratios w) = true ->
      exists m m' : float32,
        make_sponge nx ny w !! Z.to_nat (j * nx + i) = Some m
        /\ make_sponge nx ny w !! Z.to_nat (j' * nx + i') = Some m'
        /\ f32.ltb m m' = true).
Proof.
  intros Hx Hy Hn Hw Hi Hj.
  assert (Hdist := edge_distance_exact nx ny i j
                     ltac:(unfold Int.INT_MAX in *; nia)
                     ltac:(unfold Int.INT_MAX in *; nia) Hi Hj).
  assert (Hcell := make_sponge_cell nx ny w i j Hx Hy Hn Hi Hj).
  split; [ exact Hdist | ]. split; [ exact Hcell | ].
  split; [ | split; [ | split; [ | split ] ] ].
  - intros Hw0. rewrite Hcell, (proj2 (Z.leb_le w _)) by lia. reflexivity.
  - intros Hw0. apply sponge_ratio_edge. lia.
  - intros Hw0 Hd0 Hpow. rewrite Hcell, Hd0, (proj2 (Z.leb_gt w 0)) by lia.
    rewrite sponge_ratio_edge by lia. f_equal. exact Hpow.
  - intros d1 d2 Hd Hd2 Hmax. exact (sponge_ratio_decreasing w d1 d2 Hd Hd2 Hmax).
  - intros i' j' Hi' Hj' Hnear Hin Hmax Hpow.
    assert (Hdist' := edge_distance_exact nx ny i' j'
                        ltac:(unfold Int.INT_MAX in *; nia)
                        ltac:(unfold Int.INT_MAX in *; nia) Hi' Hj').
    assert (Hd' : 0 <= edge_distance nx ny i' j') by lia.
    rewrite Hcell, (make_sponge_cell nx ny w i' j' Hx Hy Hn Hi' Hj').
    rewrite !(proj2 (Z.leb_gt w _)) by lia.
    eexists _, _. split; [ reflexivity | ]. split; [ reflexivity | ].
    assert (Hlt := sponge_ratio_decreasing w _ _ (conj Hd' Hnear) Hin Hmax).
    unfold increasing_on in Hpow.
    pose proof (proj1 (forallb_forall _ _)
                  (proj1 (forallb_forall _ _) Hpow _
                     (layer_ratios_elem w (edge_distance nx ny i j) ltac:(lia)))
                  _ (layer_ratios_elem w (edge_distance nx ny i' j') ltac:(lia))) as Himp.
    cbn beta in Himp. rewrite Hlt in Himp. exact Himp.
Qed.

(** The scenario of the specification with the reference [powf], whose
    fourth power is 1 at 1 and strictly increasing on the ratios of a
    layer of 10 cells: on a grid of 64 by 64 cells the corner has mask
    1, and the cell [(5, 3)], at distance 3, a mask strictly below
    it. *)
Lemma make_sponge_profile_witness :
  edge_distance 64 64 5 3 = 3 /\ edge_distance 64 64 0 0 = 0
  /\ make_sponge (H := ref_runtime) 64 64 10 !! Z.to_nat (0 * 64 + 0) = Some (f32.of_int 1)
  /\ f32.ltb (sponge_ratio 10 3) (sponge_ratio 10 0) = true
  /\ exists m m' : float32,
       make_sponge (H := ref_runtime) 64 64 10 !! Z.to_nat (3 * 64 + 5) = Some m
       /\ make_sponge (H := ref_runtime) 64 64 10 !! Z.to_nat (0 * 64 + 0) = Some m'
       /\ f32.ltb m m' = true.
Proof.
  destruct (make_sponge_profile (R := ref_runtime) 64 64 10 0 0)
    as (_ & _ & _ & _ & Hone & _); try (unfold Int.INT_MIN, Int.INT_MAX; lia).
  destruct (make_sponge_profile (R := ref_runtime) 64 64 10 5 3)
    as (_ & _ & _ & _ & _ & Hratio & Hmask); try (unfold Int.INT_MIN, Int.INT_MAX; lia).
  split; [ reflexivity | ]. split; [ reflexivity | ].
  split; [ apply Hone; [ lia | reflexivity | vm_compute; reflexivity ] | ].
  split; [ apply Hratio; unfold exact_thickness; lia | ].
  apply (Hmask 0 0); try lia; try (unfold exact_thickness; lia);
    vm_compute; reflexivity.
Defined.

(** The scenario of the specification, with the reference [powf]:
    [nx = 64], [ny = 64], [pml = 10]; a corner has mask 1 and a cell at
    20 cells from every edge has mask 0. *)
Example make_sponge_scenario :
  make_sponge (H := ref_runtime) 64 64 10 !! Z.to_nat (0 * 64 + 0) = Some (f32.of_int 1)
  /\ make_sponge (H := ref_runtime) 64 64 10 !! Z.to_nat (20 * 64 + 20) = Some f32.zero.
Proof.
  split.
  - rewrite (make_sponge_cell (R := ref_runtime) 64 64 10 0 0)
      by (unfold Int.INT_MAX; lia).
    vm_compute. reflexivity.
  - rewrite (make_sponge_cell (R := ref_runtime) 64 64 10 20 20)
      by (unfold Int.INT_MAX; lia).
    vm_compute. reflexivity.
Qed.

(** C3 as stated fails beyond [2^24]: with [w = 2^24 + 1] the
    conversion [float(w)] rounds to [2^24], which is [float(w - 1)],
    so on a grid of 3 by 3 cells the centre, at distance 1, has the
    mask of the corner, at distance 0, whatever [powf] is: the mask
    does not strictly increase as the distance decreases. *)
Lemma make_sponge_thick_flat :
  edge_distance 3 3 0 0 = 0 /\ edge_distance 3 3 1 1 = 1 /\ 1 < 16777217
  /\ sponge_ratio 16777217 1 = sponge_ratio 16777217 0
  /\ forall R : Runtime,
       make_sponge (H := R) 3 3 16777217 !! Z.to_nat (1 * 3 + 1)
       = make_sponge (H := R) 3 3 16777217 !! Z.to_nat (0 * 3 + 0).
Proof.
  split; [ reflexivity | ]. split; [ reflexivity | ]. split; [ lia | ].
  split; [ vm_compute; reflexivity | ].
  intros R. vm_compute. reflexivity.
Qed.

(** ** The velocity model *)

(** The loop [for (int i = 0; i < n; i++) cfield[i] = c0]. *)
Lemma fill_constant (n : Z) (c0 : float32) :
  foldl (fun cf i => store cf i c0) (replicate (Z.to_nat n) f32.zero) (zrange n)
  = replicate (Z.to_nat n) c0.
Proof.
  change (foldl (fun cf i => store cf i c0) (replicate (Z.to_nat n) f32.zero) (zrange n))
    with (scatter (fun i => Some (i, c0)) (replicate (Z.to_nat n) f32.zero) (zrange n)).
  apply list_eq. intros k.
  destruct (Nat.lt_ge_cases k (Z.to_nat n)) as [Hk|Hk].
  - rewrite (scatter_lookup _ c0);
      [ | intros ? ? ? _ [= _ <-] _ _; reflexivity | rewrite length_replicate; exact Hk ].
    rewrite (lookup_replicate_2 _ c0) by exact Hk.
    rewrite (proj2 (existsb_exists _ _)); [ reflexivity | ].
    exists (Z.of_nat k). split.
    + apply list_elem_of_In, elem_of_zrange. lia.
    + unfold writes. rewrite Nat2Z.id, Nat.eqb_refl.
      rewrite (proj2 (Z.leb_le 0 _)) by lia. reflexivity.
  - rewrite !(proj2 (lookup_ge_None _ _))
      by (rewrite ?scatter_length, length_replicate; exact Hk).
    reflexivity.
Qed.

Lemma fillCField_returns (P : Params) :
  0 <= Int.mul (Params.nx P) (Params.ny P) -> fillCField P = Returned (fill_model P).
Proof.
  intros H. unfold fillCField.
  destruct (Z.ltb_spec (Int.mul (Params.nx P) (Params.ny P)) 0); [ lia | reflexivity ].
Qed.

Lemma fillCField_throws (P : Params) :
  Int.mul (Params.nx P) (Params.ny P) < 0 -> fillCField P = Terminated length_error.
Proof.
  intros H. unfold fillCField.
  destruct (Z.ltb_spec (Int.mul (Params.nx P) (Params.ny P)) 0); [ reflexivity | lia ].
Qed.

Lemma fill_model_unknown (P : Params) (name : string) :
  name = "homogeneous" \/ (name <> "two_layer" /\ name <> "circle") ->
  fill_model (Params.set_model name P)
  = replicate (Z.to_nat (Int.mul (Params.nx P) (Params.ny P))) (Params.c0 P).
Proof.
  intros Hname. unfold fill_model. destruct P.
  cbn [Params.set_model Params.model Params.nx Params.ny Params.c0].
  destruct Hname as [->|[H2 H3]].
  - rewrite String.eqb_refl. apply fill_constant.
  - rewrite (proj2 (String.eqb_neq _ _) H2), (proj2 (String.eqb_neq _ _) H3).
    destruct (String.eqb name "homogeneous"); apply fill_constant.
Qed.

(** C6, as the code has it.  A model name that is none of
    "homogeneous", "two_layer" and "circle" does what the name
    "homogeneous" does, whatever the grid.  When the [int] product
    [nx * ny] is not negative, and so on every grid of [nx >= 0] by
    [ny >= 0] cells that an [int] counts, that is to return a field of
    [nx * ny] cells, each holding [c0].  When the product is negative,
    [resize] throws [std::length_error] under either name. *)
Theorem fillCField_unknown (P : Params) (name : string) :
  name <> "homogeneous" -> name <> "two_layer" -> name <> "circle" ->
  fillCField (Params.set_model name P) = fillCField (Params.set_model "homogeneous" P)
  /\ (0 <= Int.mul (Params.nx P) (Params.ny P) ->
      fillCField (Params.set_model name P)
      = Returned (replicate (Z.to_nat (Int.mul (Params.nx P) (Params.ny P))) (Params.c0 P)))
  /\ (0 <= Params.nx P -> 0 <= Params.ny P -> Params.nx P * Params.ny P <= Int.INT_MAX ->
      fillCField (Params.set_model name P)
      = Returned (replicate (Z.to_nat (Params.nx P * Params.ny P)) (Params.c0 P)))
  /\ (Int.mul (Params.nx P) (Params.ny P) < 0 ->
      fillCField (Params.set_model name P) = Terminated length_error).
Proof.
  intros H1 H2 H3.
  assert (Hgrid : forall m, Params.nx (Params.set_model m P) = Params.nx P
                            /\ Params.ny (Params.set_model m P) = Params.ny P)
    by (intros m; destruct P; split; reflexivity).
  assert (Hret : 0 <= Int.mul (Params.nx P) (Params.ny P) ->
                 fillCField (Params.set_model name P)
                 = Returned (replicate (Z.to_nat (Int.mul (Params.nx P) (Params.ny P)))
                                       (Params.c0 P))).
  { intros Hpos. rewrite fillCField_returns
      by (destruct (Hgrid name) as [-> ->]; exact Hpos).
    rewrite fill_model_unknown by (right; split; assumption). reflexivity. }
  split; [ | split; [ exact Hret | split ] ].
  - destruct (Z.lt_ge_cases (Int.mul (Params.nx P) (Params.ny P)) 0) as [Hneg|Hpos].
    + rewrite !fillCField_throws; [ reflexivity | | ];
        match goal with |- context [Params.set_model ?m P] =>
          destruct (Hgrid m) as [-> ->]; exact Hneg end.
    + rewrite Hret by exact Hpos.
      rewrite fillCField_returns
        by (destruct (Hgrid "homogeneous") as [-> ->]; exact Hpos).
      rewrite fill_model_unknown by (left; reflexivity). reflexivity.
  - intros Hx Hy Hn.
    assert (Hmul : Int.mul (Params.nx P) (Params.ny P) = Params.nx P * Params.ny P).
    { unfold Int.mul. apply wrap_small. unfold Int.INT_MIN, Int.INT_MAX in *. nia. }
    rewrite Hret by (rewrite Hmul; nia). rewrite Hmul. reflexivity.
  - intros Hneg. apply fillCField_throws.
    destruct (Hgrid name) as [-> ->]. exact Hneg.
Qed.

Lemma fillCField_unknown_witness :
  fillCField (Params.set_model "foo" (Params.set_ny 4 (Params.set_nx 4 Params.default)))
  = fillCField (Params.set_model "homogeneous"
                  (Params.set_ny 4 (Params.set_nx 4 Params.default)))
  /\ fillCField (Params.set_model "foo" (Params.set_ny 4 (Params.set_nx 4 Params.default)))
     = Returned (replicate 16 (f32.of_int 3000)).
Proof.
  destruct (fillCField_unknown (Params.set_ny 4 (Params.set_nx 4 Params.default)) "foo")
    as (Hsame & Hret & _); try discriminate.
  split; [ exact Hsame | ].
  apply Hret. vm_compute. discriminate.
Defined.

(** C6 as stated fails: on a grid of [-1] by [1] cells, which the
    parser reads without objection, the builder raises an error, under
    the name "foo" as under "homogeneous". *)
Lemma fillCField_negative_grid :
  fillCField (Params.set_model "foo" (Params.set_ny 1 (Params.set_nx (-1) Params.default)))
  = Terminated length_error
  /\ fillCField (Params.set_model "homogeneous"
                   (Params.set_ny 1 (Params.set_nx (-1) Params.default)))
     = Terminated length_error.
Proof. split; reflexivity. Qed.

(** The other two models, on a grid of 4 by 4 cells with [c0 = 3000]:
    the lower half at 4500; a disk of radius 0.8 around the centre
    cell at 2100. *)
Example fillCField_two_layer :
  fillCField (Params.set_model "two_layer" (Params.set_ny 4 (Params.set_nx 4 Params.default)))
  = Returned (replicate 8 (f32.of_int 3000) ++ replicate 8 (f32.of_int 4500)).
Proof. vm_compute. reflexivity. Qed.

Example fillCField_circle :
  fillCField (Params.set_model "circle" (Params.set_ny 4 (Params.set_nx 4 Params.default)))
  = Returned (<[10%nat := f32.of_int 2100]> (replicate 16 (f32.of_int 3000))).
Proof. vm_compute. reflexivity. Qed.

(** ** The main loop: frames *)

Section MainLoop.
Context `{R : Runtime}.
Variable P : Params.

Lemma zrange_succ (k : nat) : zrange (Z.of_nat (S k)) = zrange (Z.of_nat k) ++ [Z.of_nat k].
Proof.
  unfold zrange. replace (Z.of_nat (S k)) with (Z.of_nat k + 1) by lia.
  rewrite seqZ_app by lia. reflexivity.
Qed.

Lemma main_loop_succ (k : nat) :
  main_loop P (S k)
  = main_step P (fill_model P)
      (make_sponge (Params.nx P) (Params.ny P) (Params.pml P))
      (main_loop P k) (Z.of_nat k).
Proof. unfold main_loop. rewrite zrange_succ, foldl_app. reflexivity. Qed.

Lemma frames_of_app (l1 l2 : list output) :
  frames_of (l1 ++ l2) = frames_of l1 ++ frames_of l2.
Proof. unfold frames_of. apply omap_app. Qed.

Lemma report_frames (st : MainState) (n : Z) :
  frames_of (out (report P st n)) = frames_of (out st)
  /\ crashed (report P st n) = crashed st
  /\ d_u1 (report P st n) = d_u1 st.
Proof.
  unfold report. destruct ((Int.rem n REPORT_STEPS =? 0) && (0 <? n)); cbn.
  - rewrite frames_of_app. cbn. rewrite app_nil_r. auto.
  - auto.
Qed.

Lemma emit_frame_frames (st : MainState) (n : Z) :
  frames_of (out (emit_frame P st n))
  = frames_of (out st)
    ++ (if (Params.frames_every P =? 0) || negb (Int.rem n (Params.frames_every P) =? 0)
        then []
        else [concat (map f32_bytes (take (Z.to_nat (cells P)) (d_u1 st)))])
  /\ crashed (emit_frame P st n) = crashed st || (Params.frames_every P =? 0).
Proof.
  unfold emit_frame. destruct (Params.frames_every P =? 0); cbn.
  - rewrite app_nil_r, orb_true_r. auto.
  - destruct (Int.rem n (Params.frames_every P) =? 0); cbn.
    + rewrite frames_of_app, orb_false_r. auto.
    + rewrite app_nil_r, orb_false_r. auto.
Qed.

(** One turn of the loop writes at most one frame, at the turns whose
    number [frames_every] divides. *)
Lemma main_step_frames (c sponge : list float32) (st : MainState) (n : Z) :
  crashed st = false ->
  length (frames_of (out (main_step P c sponge st n)))
  = Nat.add (length (frames_of (out st)))
      (if (Params.frames_every P =? 0) || negb (Int.rem n (Params.frames_every P) =? 0)
       then 0%nat else 1%nat)
  /\ crashed (main_step P c sponge st n) = (Params.frames_every P =? 0).
Proof.
  intros Hc. unfold main_step. rewrite Hc.
  match goal with |- context [emit_frame P (report P ?s n) n] => set (st' := s) end.
  destruct (emit_frame_frames (report P st' n) n) as [-> ->].
  destruct (report_frames st' n) as (-> & -> & _).
  rewrite length_app. subst st'. cbn [out crashed].
  split; [ | reflexivity ].
  destruct ((Params.frames_every P =? 0) || negb (Int.rem n (Params.frames_every P) =? 0));
    reflexivity.
Qed.

Lemma main_step_crashed (c sponge : list float32) (st : MainState) (n : Z) :
  crashed st = true -> main_step P c sponge st n = st.
Proof. intros Hc. unfold main_step. rewrite Hc. reflexivity. Qed.

Lemma frame_turns_succ (k : nat) :
  frame_turns (Params.frames_every P) (S k)
  = frame_turns (Params.frames_every P) k
    ++ (if Int.rem (Z.of_nat k) (Params.frames_every P) =? 0 then [Z.of_nat k] else []).
Proof. unfold frame_turns. rewrite zrange_succ, List.filter_app. reflexivity. Qed.

(** The number of frames written when [k] turns have completed. *)
Lemma main_loop_frames (k : nat) :
  length (frames_of (out (main_loop P k)))
  = (if Params.frames_every P =? 0 then 0%nat
     else length (frame_turns (Params.frames_every P) k))
  /\ crashed (main_loop P k)
     = (Params.frames_every P =? 0) && negb (Nat.eqb k 0).
Proof.
  induction k as [|k [IHf IHc]].
  - cbn. destruct (Params.frames_every P =? 0); auto.
  - rewrite main_loop_succ.
    destruct (Params.frames_every P =? 0) eqn:Hfe.
    + destruct k as [|k].
      * destruct (main_step_frames (fill_model P)
                    (make_sponge (Params.nx P) (Params.ny P) (Params.pml P))
                    (main_loop P 0) 0 eq_refl) as [Hf Hc].
        rewrite Hfe in Hf, Hc. cbn in Hf. cbn. split; [ exact Hf | exact Hc ].
      * cbn in IHc. rewrite main_step_crashed by exact IHc. split; [ exact IHf | exact IHc ].
    + cbn in IHc.
      destruct (main_step_frames (fill_model P)
                  (make_sponge (Params.nx P) (Params.ny P) (Params.pml P))
                  (main_loop P k) (Z.of_nat k) IHc) as [Hf Hc].
      rewrite Hfe in Hf, Hc. cbn [orb] in Hf. split; [ | exact Hc ].
      rewrite Hf, IHf, frame_turns_succ, length_app.
      destruct (Int.rem (Z.of_nat k) (Params.frames_every P) =? 0); reflexivity.
Qed.

End MainLoop.

(** With a positive interval the frames are those of the turns 0,
    [frames_every], [2 * frames_every], ...: their number is [k]
    divided by the interval, rounded up. *)
Lemma frame_turns_count (fe : Z) (k : nat) :
  0 < fe -> Z.of_nat (length (frame_turns fe k)) = (Z.of_nat k + fe - 1) / fe.
Proof.
  intros Hfe. induction k as [|k IH].
  - cbn. symmetry. apply Z.div_small. lia.
  - unfold frame_turns in *. rewrite zrange_succ, List.filter_app, length_app, Nat2Z.inj_add, IH.
    cbn [List.filter]. unfold Int.rem. rewrite Z.rem_mod_nonneg by lia.
    pose proof (Z.div_mod (Z.of_nat k) fe ltac:(lia)) as Hdm.
    pose proof (Z.mod_pos_bound (Z.of_nat k) fe Hfe) as Hmb.
    set (q := Z.of_nat k / fe) in *. set (r := Z.of_nat k mod fe) in *.
    destruct (Z.eqb_spec r 0) as [Hr|Hr]; cbn [length].
    + replace (Z.of_nat k + fe - 1) with ((fe - 1) + q * fe) by lia.
      replace (Z.of_nat (S k) + fe - 1) with (0 + (q + 1) * fe) by lia.
      rewrite !Z.div_add by lia. rewrite Z.div_small, Z.div_small by lia. lia.
    + replace (Z.of_nat k + fe - 1) with ((r - 1) + (q + 1) * fe) by lia.
      replace (Z.of_nat (S k) + fe - 1) with (r + (q + 1) * fe) by lia.
      rewrite !Z.div_add by lia. rewrite Z.div_small, Z.div_small by lia. lia.
Qed.

(** C8, as the code has it.  A frame is written at the end of every
    turn [n] of the loop with [n % frames_every == 0], the first turn
    ([n = 0]) included.  So a run stopped before its first step has
    completed has written no frame, a run stopped after its first step
    has written one, and with a positive interval a run stopped after
    [k] steps has written [k / frames_every] frames, rounded up.  (With
    [frames_every = 0] the remainder ends the process at the first
    turn and no frame is written.) *)
Theorem frames_emitted `{R : Runtime} (P : Params) (k : nat) :
  length (frames_of (out (main_loop P k)))
  = (if Params.frames_every P =? 0 then 0%nat
     else length (frame_turns (Params.frames_every P) k))
  /\ frames_of (out (main_loop P 0)) = []
  /\ length (frames_of (out (main_loop P 1)))
     = (if Params.frames_every P =? 0 then 0%nat else 1%nat)
  /\ ((0 <? Params.frames_every P) = true
      -> Z.of_nat (length (frames_of (out (main_loop P k))))
         = (Z.of_nat k + Params.frames_every P - 1) / Params.frames_every P).
Proof.
  destruct (main_loop_frames P k) as [Hk _].
  destruct (main_loop_frames P 1) as [H1 _].
  split; [ exact Hk | ]. split; [ reflexivity | ]. split.
  - rewrite H1. destruct (Params.frames_every P =? 0); [ reflexivity | ].
    reflexivity.
  - intros Hfe. apply Z.ltb_lt in Hfe. rewrite Hk.
    rewrite (proj2 (Z.eqb_neq _ 0)) by lia. apply frame_turns_count, Hfe.
Qed.

(** C8 as stated fails: with the interval 60 the relay passes, a run
    stopped when one step has completed (fewer than 60) has written a
    frame. *)
Lemma frame_after_first_step :
  1 < 60
  /\ forall R : Runtime,
       length (frames_of (out (main_loop (H := R)
                                 (Params.set_frames_every 60 Params.default) 1))) = 1%nat.
Proof.
  split; [ lia | ]. intros R.
  destruct (main_loop_frames (R := R) (Params.set_frames_every 60 Params.default) 1) as [H _].
  rewrite H. reflexivity.
Qed.

(** ** The main loop: size of a frame *)

Lemma f32_bytes_length (x : float32) : length (f32_bytes x) = 4%nat.
Proof. reflexivity. Qed.

Lemma frame_bytes_length (u : list float32) :
  length (concat (map f32_bytes u)) = (4 * length u)%nat.
Proof.
  induction u as [|x u IH]; [ reflexivity | ].
  cbn [map concat]. rewrite length_app, IH, f32_bytes_length. cbn [length]. lia.
Qed.

Lemma add_source_length `{R : Runtime} (u : list float32) (nx ny sx sy : Z) (val : float32) :
  length (add_source u nx ny sx sy val) = length u.
Proof.
  unfold add_source.
  rewrite (foldl_nested (fun u ddx ddy =>
             if on_ring nx ny (Int.add sx ddx) (Int.add sy ddy) then u
             else atomicAdd u (idx nx (Int.add sx ddx) (Int.add sy ddy))
                    (val * source_weight ddx ddy)%f32)).
  generalize (ddy ← source_offsets; ddx ← source_offsets; [(ddx, ddy)]).
  intros l. revert u. induction l as [|t l IH]; intros u; [ reflexivity | ].
  cbn [foldl]. rewrite IH.
  destruct (on_ring nx ny (Int.add sx t.1) (Int.add sy t.2)); [ reflexivity | ].
  unfold atomicAdd. apply store_length.
Qed.

Lemma step_launch_length `{R : Runtime} (sched : list (Z * Z))
    (u0 u1 u2 c sponge : list float32) (nx ny : Z) (dt dx alpha : float32) :
  length (step_launch sched u0 u1 u2 c sponge nx ny dt dx alpha) = length u2.
Proof. rewrite step_launch_scatter. apply scatter_length. Qed.

Section FrameSize.
Context `{R : Runtime}.
Variable P : Params.

Lemma main_step_sized (c sponge : list float32) (st : MainState) (n : Z) :
  buffers_sized P st -> buffers_sized P (main_step P c sponge st n).
Proof.
  intros (H0 & H1 & H2). unfold main_step.
  destruct (crashed st); [ repeat split; assumption | ].
  unfold emit_frame, report, buffers_sized.
  repeat match goal with |- context [if ?b then _ else _] => destruct b end;
    cbn [d_u0 d_u1 d_u2]; rewrite ?add_source_length, ?step_launch_length; auto.
Qed.

Lemma main_loop_sized (k : nat) : buffers_sized P (main_loop P k).
Proof.
  induction k as [|k IH].
  - unfold main_loop. change (zrange (Z.of_nat 0)) with (@nil Z). cbn [foldl].
    unfold buffers_sized, main_init. cbn [d_u0 d_u1 d_u2].
    rewrite !length_replicate. auto.
  - rewrite main_loop_succ. apply main_step_sized, IH.
Qed.



End FrameSize.

(** ** The relay: reassembly of frames *)

Section Reassembly.
Import Relay.

Lemma binaries_app (l1 l2 : list message) :
  binaries (l1 ++ l2) = binaries l1 ++ binaries l2.
Proof. unfold binaries. apply omap_app. Qed.

Lemma binaries_map (fs : list (list Z)) : binaries (map Binary fs) = fs.
Proof.
  induction fs as [|f fs IH]; [ reflexivity | ].
  unfold binaries in *. cbn. f_equal. exact IH.
Qed.

(** The loop of the [stdout] handler: it sends the whole frames at the
    front of the buffer, in order, and leaves less than a frame; the
    fuel given is enough. *)
Lemma forward_spec (size : nat) (fuel : nat) :
  forall (buf : list Z) (sent : list message),
    (0 < size)%nat -> (length buf <= fuel)%nat ->
    exists fs : list (list Z),
      forward fuel size buf sent
      = (drop (length fs * size) buf, sent ++ map Binary fs)
      /\ concat fs = take (length fs * size) buf
      /\ Forall (fun f => length f = size) fs
      /\ (length fs * size <= length buf < length fs * size + size)%nat.
Proof.
  induction fuel as [|fuel IH]; intros buf sent Hs Hf.
  - exists []. destruct buf; [ | cbn in Hf; lia ].
    cbn. rewrite app_nil_r. repeat split; auto; lia.
  - cbn [forward]. destruct (Nat.leb_spec size (length buf)) as [Hle|Hgt].
    + destruct (IH (drop size buf) (sent ++ [Binary (take size buf)]) Hs) as (fs & Hfw & Hc & Hall & Hlen).
      { rewrite length_drop. lia. }
      exists (take size buf :: fs). rewrite Hfw. cbn [length map concat].
      rewrite drop_drop, <- app_assoc. cbn [app]. rewrite length_drop in Hlen.
      replace (size + length fs * size)%nat with (S (length fs) * size)%nat by lia.
      repeat split; try lia.
      * rewrite Hc. rewrite <- (take_drop size buf) at 3.
        rewrite take_app_ge by (rewrite length_take; lia).
        rewrite length_take, Nat.min_l by lia.
        do 2 f_equal. lia.
      * constructor; [ rewrite length_take; lia | exact Hall ].
    + exists []. cbn. rewrite app_nil_r, drop_0. repeat split; auto; lia.
Qed.


Variables (nx ny : nat).




End Reassembly.

(** ** Frames from the engine to the client *)



(** What was sent before a start command plays no part in what the
    relay does after it. *)
Section SentBefore.
Import Relay.



Lemma with_sent_with_sent (s s' : list message) (ws : session) :
  with_sent s (with_sent s' ws) = with_sent s ws.
Proof. reflexivity. Qed.


End SentBefore.



(** In the small run the relay sends the meta message, then the one
    frame, whole, and keeps nothing. *)
Example demo_forwarded :
  Relay.binaries (Relay.sent
    (foldl Relay.handle (Relay.startEngine Relay.connected demo_config) demo_events))
  = frames_of (out (main_loop (H := ref_runtime) demo_params 1))
  /\ length (frames_of (out (main_loop (H := ref_runtime) demo_params 1))) = 1%nat
  /\ Relay.stdoutBuffer
       (foldl Relay.handle (Relay.startEngine Relay.connected demo_config) demo_events) = [].
Proof. vm_compute. repeat split. Qed.


(** ** The relay: one engine a connection *)

Section Engines.
Import Relay.

Lemma kill_lookup (p q : nat) (ps : list (proc_status * list string)) :
  kill p ps !! q
  = match ps !! q with
    | Some (Running, a) => if decide (q = p) then Some (Signalled, a) else Some (Running, a)
    | o => o
    end.
Proof.
  unfold kill. destruct (decide (q = p)) as [->|Hne].
  - destruct (ps !! p) as [[[] a]|] eqn:Hp; rewrite ?Hp; try reflexivity.
    rewrite list_lookup_insert_eq by (eapply lookup_lt_Some; exact Hp). reflexivity.
  - destruct (ps !! p) as [[[] a]|] eqn:Hp;
      rewrite ?list_lookup_insert_ne by congruence;
      destruct (ps !! q) as [[[] b]|]; reflexivity.
Qed.

Lemma kill_length (p : nat) (ps : list (proc_status * list string)) :
  length (kill p ps) = length ps.
Proof.
  unfold kill. destruct (ps !! p) as [[[] a]|]; try reflexivity. apply length_insert.
Qed.

(** After [stopEngine] no engine of the connection is running: the one
    that was has been sent the signal. *)
Lemma stopEngine_none_running (ws : session) :
  handle_names_running ws ->
  engineProc (stopEngine ws) = None
  /\ length (procs (stopEngine ws)) = length (procs ws)
  /\ (forall p, ~ running (stopEngine ws) p)
  /\ (forall p a, procs ws !! p = Some (Running, a) ->
                  procs (stopEngine ws) !! p = Some (Signalled, a))
  /\ (forall p, live (stopEngine ws) p <-> live ws p).
Proof.
  intros Hinv. unfold handle_names_running, running in Hinv.
  unfold running, live, stopEngine. cbn [engineProc procs].
  destruct (engineProc ws) as [p0|].
  - split; [ reflexivity | ]. split; [ apply kill_length | ]. split; [ | split ].
    + intros p [a Hp]. rewrite kill_lookup in Hp.
      destruct (procs ws !! p) as [[[] b]|] eqn:Hq; try discriminate Hp.
      assert (Hr : Some p0 = Some p) by (apply Hinv; exists b; exact Hq).
      injection Hr as ->.
      rewrite decide_True in Hp by reflexivity. discriminate Hp.
    + intros p a Hp. rewrite kill_lookup, Hp.
      assert (Hr : Some p0 = Some p) by (apply Hinv; exists a; exact Hp).
      injection Hr as ->.
      rewrite decide_True by reflexivity. reflexivity.
    + intros p. rewrite kill_lookup.
      destruct (procs ws !! p) as [[[] b]|]; try reflexivity.
      destruct (decide (p = p0)); split; intros (st & a & Heq & Hne);
        injection Heq as <- <-; eexists _, _; split; try reflexivity; discriminate.
  - split; [ reflexivity | ]. split; [ reflexivity | ]. split; [ | split ].
    + intros p Hp. apply Hinv in Hp. discriminate Hp.
    + intros p a Hp.
      assert (Hr : None = Some p) by (apply Hinv; exists a; exact Hp).
      discriminate Hr.
    + reflexivity.
Qed.

Lemma stopEngine_names (ws : session) :
  handle_names_running ws -> handle_names_running (stopEngine ws).
Proof.
  intros Hinv p. destruct (stopEngine_none_running ws Hinv) as (Hh & _ & Hnone & _).
  rewrite Hh. split; [ intros Hp; destruct (Hnone p Hp) | discriminate ].
Qed.

(** After [startEngine] the new process, and no other, is running. *)
Lemma startEngine_one_running (ws : session) (cfg : config) :
  handle_names_running ws ->
  engineProc (startEngine ws cfg) = Some (length (procs ws))
  /\ (forall p, running (startEngine ws cfg) p <-> p = length (procs ws))
  /\ (forall p a, procs ws !! p = Some (Running, a) ->
                  procs (startEngine ws cfg) !! p = Some (Signalled, a))
  /\ (forall p, live ws p -> live (startEngine ws cfg) p).
Proof.
  intros Hinv.
  destruct (stopEngine_none_running ws Hinv) as (Hh & Hlen & Hnone & Hsig & Hlive).
  unfold startEngine. unfold running, live in *. cbn [engineProc procs]. rewrite Hlen.
  split; [ reflexivity | ]. split; [ | split ].
  - intros p. split.
    + intros [a Hp]. destruct (Nat.lt_ge_cases p (length (procs ws))) as [Hlt|Hge].
      * rewrite lookup_app_l in Hp by lia. destruct (Hnone p). exists a. exact Hp.
      * rewrite lookup_app_r in Hp by lia. rewrite Hlen in Hp.
        destruct (p - length (procs ws))%nat as [|n] eqn:Hn; [ lia | ].
        destruct n; discriminate Hp.
    + intros ->. exists (engine_args cfg).
      rewrite lookup_app_r by lia. rewrite Hlen, Nat.sub_diag. reflexivity.
  - intros p a Hp. rewrite lookup_app_l.
    + apply Hsig, Hp.
    + rewrite Hlen. eapply lookup_lt_Some. exact Hp.
  - intros p Hp. apply Hlive in Hp. destruct Hp as (st & a & Hp & Hne).
    exists st, a. split; [ | exact Hne ].
    rewrite lookup_app_l; [ exact Hp | eapply lookup_lt_Some; exact Hp ].
Qed.

Lemma startEngine_names (ws : session) (cfg : config) :
  handle_names_running ws -> handle_names_running (startEngine ws cfg).
Proof.
  intros Hinv p. destruct (startEngine_one_running ws cfg Hinv) as (Hh & Hrun & _).
  rewrite Hh, Hrun. split; congruence.
Qed.

Lemma on_exit_names (ws : session) (p : nat) :
  handle_names_running ws -> handle_names_running (on_exit ws p).
Proof.
  intros Hinv q. unfold on_exit, running. cbn [engineProc procs].
  assert (Hlk : forall (ps : list (proc_status * list string)),
             (exists a, match ps !! p with
                        | Some (_, b) => <[p := (Gone, b)]> ps
                        | None => ps
                        end !! q = Some (Running, a))
             <-> q <> p /\ exists a, ps !! q = Some (Running, a)).
  { intros ps. destruct (decide (q = p)) as [->|Hne].
    - split; [ | intros [[] _]; reflexivity ].
      intros [a Ha]. destruct (ps !! p) as [[st b]|] eqn:Hp; [ | congruence ].
      rewrite list_lookup_insert_eq in Ha by (eapply lookup_lt_Some; exact Hp).
      discriminate Ha.
    - destruct (ps !! p) as [[st b]|];
        rewrite ?list_lookup_insert_ne by congruence; intuition. }
  rewrite Hlk. fold (running ws q). rewrite (Hinv q).
  destruct (decide (engineProc ws = Some p)) as [Hp|Hp].
  - split; [ intros [Hne Hq]; congruence | discriminate ].
  - split; [ intros [_ Hq]; exact Hq | intros Hq; split; [ congruence | exact Hq ] ].
Qed.

Lemma handle_names (ws : session) (e : event) :
  handle_names_running ws -> handle_names_running (handle ws e).
Proof.
  intros Hinv. destruct e as [cfg| | |p|chunk|l]; cbn [handle].
  - destruct (is_open ws); [ apply startEngine_names, Hinv | exact Hinv ].
  - destruct (is_open ws); [ apply stopEngine_names, Hinv | exact Hinv ].
  - apply stopEngine_names in Hinv. exact Hinv.
  - apply on_exit_names, Hinv.
  - unfold on_stdout. destruct (negb (is_open ws)); [ exact Hinv | ].
    destruct (frameSize ws =? 0)%nat; [ exact Hinv | ].
    destruct (forward _ _ _ _). exact Hinv.
  - destruct l; exact Hinv.
Qed.

Lemma reachable_names (ws : session) : reachable ws -> handle_names_running ws.
Proof.
  induction 1 as [|ws e _ IH _].
  - intros p. unfold running, connected. cbn. split; [ intros [a Ha]; discriminate Ha | discriminate ].
  - apply handle_names, IH.
Qed.

End Engines.

(** C7, as the code has it.  In every state a connection can reach, a
    process is running (it has not been sent the signal of [kill()] and
    is not gone) exactly when the connection's handle is this process,
    so at most one engine of the connection is running.  A start
    command sends the signal to the engine that was running and spawns
    the new one at once: afterwards the new process alone is running,
    and every process that was alive before is still alive; its end is
    not awaited. *)
Theorem one_running_engine (ws : Relay.session) (cfg : Relay.config) :
  Relay.reachable ws ->
  (forall p, Relay.running ws p <-> Relay.engineProc ws = Some p)
  /\ (forall p q, Relay.running ws p -> Relay.running ws q -> p = q)
  /\ Relay.engineProc (Relay.startEngine ws cfg) = Some (length (Relay.procs ws))
  /\ (forall p, Relay.running (Relay.startEngine ws cfg) p <-> p = length (Relay.procs ws))
  /\ (forall p a, Relay.procs ws !! p = Some (Relay.Running, a) ->
        Relay.procs (Relay.startEngine ws cfg) !! p = Some (Relay.Signalled, a))
  /\ (forall p, Relay.live ws p -> Relay.live (Relay.startEngine ws cfg) p).
Proof.
  intros Hreach. pose proof (reachable_names ws Hreach) as Hinv.
  destruct (startEngine_one_running ws cfg Hinv) as (Hh & Hrun & Hsig & Hlive).
  split; [ exact Hinv | ]. split; [ | auto ].
  intros p q Hp Hq. apply Hinv in Hp, Hq. congruence.
Qed.

Lemma one_running_engine_witness :
  (forall p, Relay.running (Relay.handle Relay.connected (Relay.Start demo_config)) p
             <-> Relay.engineProc (Relay.handle Relay.connected (Relay.Start demo_config))
                 = Some p)
  /\ (forall p q,
        Relay.running (Relay.handle Relay.connected (Relay.Start demo_config)) p ->
        Relay.running (Relay.handle Relay.connected (Relay.Start demo_config)) q -> p = q)
  /\ Relay.engineProc
       (Relay.startEngine (Relay.handle Relay.connected (Relay.Start demo_config)) demo_config)
     = Some (length (Relay.procs (Relay.handle Relay.connected (Relay.Start demo_config))))
  /\ (forall p,
        Relay.running
          (Relay.startEngine (Relay.handle Relay.connected (Relay.Start demo_config))
             demo_config) p
        <-> p = length (Relay.procs (Relay.handle Relay.connected (Relay.Start demo_config))))
  /\ (forall p a,
        Relay.procs (Relay.handle Relay.connected (Relay.Start demo_config)) !! p
        = Some (Relay.Running, a) ->
        Relay.procs
          (Relay.startEngine (Relay.handle Relay.connected (Relay.Start demo_config))
             demo_config) !! p
        = Some (Relay.Signalled, a))
  /\ (forall p,
        Relay.live (Relay.handle Relay.connected (Relay.Start demo_config)) p ->
        Relay.live
          (Relay.startEngine (Relay.handle Relay.connected (Relay.Start demo_config))
             demo_config) p).
Proof.
  apply (one_running_engine (Relay.handle Relay.connected (Relay.Start demo_config))
           demo_config).
  apply Relay.reach_step; [ apply Relay.reach_connected | exact I ].
Defined.

(** C7 as stated fails: a start command after a start command leaves
    two processes of the connection alive, the first sent the signal
    and not gone, the second running. *)
Lemma two_live_engines :
  Relay.reachable
    (Relay.handle (Relay.handle Relay.connected (Relay.Start demo_config))
       (Relay.Start demo_config))
  /\ Relay.procs
       (Relay.handle (Relay.handle Relay.connected (Relay.Start demo_config))
          (Relay.Start demo_config))
     = [(Relay.Signalled, Relay.engine_args demo_config);
        (Relay.Running, Relay.engine_args demo_config)]
  /\ Relay.live
       (Relay.handle (Relay.handle Relay.connected (Relay.Start demo_config))
          (Relay.Start demo_config)) 0
  /\ Relay.live
       (Relay.handle (Relay.handle Relay.connected (Relay.Start demo_config))
          (Relay.Start demo_config)) 1.
Proof.
  split.
  { apply Relay.reach_step; [ | exact I ].
    apply Relay.reach_step; [ apply Relay.reach_connected | exact I ]. }
  split; [ reflexivity | ].
  split; eexists _, _; (split; [ reflexivity | discriminate ]).
Qed.

(** The arguments the relay gives the engine are read without error,
    with the sponge thickness as [--pml] and the frame interval 60. *)
Example start_command_parsed :
  parse_args (H := ref_runtime) ("engine" :: Relay.engine_args demo_config)
  = Returned (Params.set_sy 1 (Params.set_sx 1
               (Params.set_frames_every 60 (Params.set_ny 3 (Params.set_nx 3 Params.default))))).
Proof. vm_compute. reflexivity. Qed.

(** ** A field at rest *)

Lemma zero_add (a b : float32) :
  f32.is_zero a = true -> f32.is_zero b = true -> f32.is_zero (a + b)%f32 = true.
Proof. destruct a as [[]| | |], b as [[]| | |]; try discriminate; reflexivity. Qed.

Lemma zero_sub (a b : float32) :
  f32.is_zero a = true -> f32.is_zero b = true -> f32.is_zero (a - b)%f32 = true.
Proof. destruct a as [[]| | |], b as [[]| | |]; try discriminate; reflexivity. Qed.

Lemma zero_mul_r (a b : float32) :
  f32.is_finite a = true -> f32.is_zero b = true -> f32.is_zero (a * b)%f32 = true.
Proof. destruct a as [| | |], b as [| | |]; try discriminate; reflexivity. Qed.

Lemma zero_mul_l (a b : float32) :
  f32.is_zero a = true -> f32.is_finite b = true -> f32.is_zero (a * b)%f32 = true.
Proof. destruct a as [| | |], b as [| | |]; try discriminate; reflexivity. Qed.

Lemma zero_div (a b : float32) :
  f32.is_zero a = true -> finite_nonzero b = true -> f32.is_zero (a / b)%f32 = true.
Proof. destruct a as [| | |], b as [| | |]; try discriminate; reflexivity. Qed.

Lemma zero_square (a : float32) : f32.is_zero a = true -> (a * a)%f32 = f32.zero.
Proof. destruct a as [[]| | |]; try discriminate; reflexivity. Qed.

Lemma zero_finite (a : float32) : f32.is_zero a = true -> f32.is_finite a = true.
Proof. destruct a; try discriminate; reflexivity. Qed.

Lemma load_zeros (u : list float32) (k : Z) : zeros u -> f32.is_zero (load u k) = true.
Proof.
  intros Hu. unfold load. destruct (k <? 0); [ reflexivity | ].
  destruct (u !! Z.to_nat k) as [x|] eqn:Hx.
  - rewrite (list_lookup_total_correct _ _ _ Hx).
    exact (proj1 (Forall_lookup _ _) Hu _ _ Hx).
  - rewrite list_lookup_total_alt, Hx. reflexivity.
Qed.

Lemma store_zeros (u : list float32) (k : Z) (v : float32) :
  zeros u -> f32.is_zero v = true -> zeros (store u k v).
Proof.
  intros Hu Hv. unfold store. destruct (k <? 0); [ exact Hu | ].
  apply Forall_insert; assumption.
Qed.

Section AtRest.
Context `{R : Runtime}.
Hypothesis tanhf_zero : forall x, f32.is_zero x = true -> f32.is_zero (tanhf x) = true.

(** The update of a cell whose neighbourhood is at rest is zero. *)
Lemma step_value_zero (u0 u1 c sponge : list float32) (nx : Z) (dt dx alpha : float32) (k : Z) :
  zeros u0 -> zeros u1 ->
  finite_nonzero dt = true ->
  f32.is_finite (alpha * dt)%f32 = true ->
  f32.is_finite (wave_coef (load c k) dt dx) = true ->
  (f32.gtb (load sponge k) f32.zero = true ->
   f32.is_finite (attenuation (load sponge k)) = true) ->
  f32.is_zero (step_value u0 u1 c sponge nx dt dx alpha k) = true.
Proof.
  intros H0 H1 Hdt Hadt Hcoef Hatt. unfold step_value.
  assert (Hl0 := fun k => load_zeros u0 k H0).
  assert (Hl1 := fun k => load_zeros u1 k H1).
  assert (H4 : forall x, f32.is_zero x = true -> f32.is_zero (f32.of_int 4 * x)%f32 = true)
    by (intros x Hx; apply zero_mul_r; [ reflexivity | exact Hx ]).
  assert (Hd : forall k, f32.is_zero ((load u1 k - load u0 k) / dt)%f32 = true)
    by (intros k'; apply zero_div; [ apply zero_sub; auto | exact Hdt ]).
  set (lap := (_ + _ + _ + _ - f32.of_int 4 * load u1 k)%f32).
  assert (Hlap : f32.is_zero lap = true)
    by (subst lap; apply zero_sub; [ repeat apply zero_add; auto | apply H4; auto ]).
  set (lap_dudt := (_ + _ + _ + _ - f32.of_int 4 * _)%f32).
  assert (Hlapd : f32.is_zero lap_dudt = true)
    by (subst lap_dudt; apply zero_sub; [ repeat apply zero_add; auto | apply H4; auto ]).
  set (un := (f32.of_int 2 * load u1 k - load u0 k + _ * lap - alpha * dt * lap_dudt)%f32).
  assert (Hun : f32.is_zero un = true).
  { subst un. apply zero_sub; [ apply zero_add; [ apply zero_sub | ] | ].
    - apply zero_mul_r; [ reflexivity | auto ].
    - auto.
    - apply zero_mul_r; [ exact Hcoef | exact Hlap ].
    - apply zero_mul_r; [ exact Hadt | exact Hlapd ]. }
  apply tanhf_zero. apply zero_mul_r; [ reflexivity | ].
  destruct (f32.gtb (load sponge k) f32.zero) eqn:Hsp; [ | exact Hun ].
  apply zero_mul_l; [ exact Hun | ].
  change (f32.is_finite (attenuation (load sponge k)) = true). apply Hatt. reflexivity.
Qed.

End AtRest.

Lemma scatter_zeros {T : Type} (wr : T -> option (Z * float32)) (l : list T) :
  (forall t k v, In t l -> wr t = Some (k, v) -> f32.is_zero v = true) ->
  forall u, zeros u -> zeros (scatter wr u l).
Proof.
  induction l as [|t l IH]; intros Hw u Hu; [ exact Hu | ].
  cbn. apply IH.
  - intros t' k v Hin. apply Hw. right. exact Hin.
  - destruct (wr t) as [[k v]|] eqn:Ht; [ | exact Hu ].
    apply store_zeros; [ exact Hu | ]. apply (Hw t k v); [ left; reflexivity | exact Ht ].
Qed.

Lemma fill_model_length (P : Params) :
  length (fill_model P) = Z.to_nat (Int.mul (Params.nx P) (Params.ny P)).
Proof.
  unfold fill_model.
  assert (Hfill : forall c0 n (u : list float32),
             length (foldl (fun cf i => store cf i c0) u (zrange n)) = length u).
  { intros c0 n u.
    change (foldl (fun cf i => store cf i c0) u (zrange n))
      with (scatter (fun i => Some (i, c0)) u (zrange n)).
    apply scatter_length. }
  assert (Hnest : forall (g : Z -> Z -> float32) (u : list float32),
             length (foldl (fun cf j => foldl (fun cf i => store cf (idx (Params.nx P) i j) (g i j))
                                          cf (zrange (Params.nx P)))
                           u (zrange (Params.ny P))) = length u).
  { intros g u.
    rewrite (foldl_nested (fun cf i j => store cf (idx (Params.nx P) i j) (g i j))).
    change (foldl (fun cf ij => store cf (idx (Params.nx P) ij.1 ij.2) (g ij.1 ij.2)) u
              (j ← zrange (Params.ny P); i ← zrange (Params.nx P); [(i, j)]))
      with (scatter (fun ij : Z * Z => Some (idx (Params.nx P) ij.1 ij.2, g ij.1 ij.2)) u
              (j ← zrange (Params.ny P); i ← zrange (Params.nx P); [(i, j)])).
    apply scatter_length. }
  repeat match goal with |- context [if ?b then _ else _] => destruct b end;
    rewrite ?Hfill, ?length_replicate; try reflexivity.
  - rewrite (Hnest (fun i j => if Int.div (Params.ny P) 2 <=? j
                               then (Params.c0 P * f32.lit 15 1)%f32 else Params.c0 P)).
    apply length_replicate.
  - rewrite (Hnest (fun i j =>
               if f32.ltb (f32.of_int (Int.sub i (Int.div (Params.nx P) 2))
                           * f32.of_int (Int.sub i (Int.div (Params.nx P) 2))
                           + f32.of_int (Int.sub j (Int.div (Params.ny P) 2))
                             * f32.of_int (Int.sub j (Int.div (Params.ny P) 2)))%f32
                          ((f32.of_int (Params.nx P) * f32.lit 2 1)
                           * (f32.of_int (Params.nx P) * f32.lit 2 1))%f32
               then (Params.c0 P * f32.lit 7 1)%f32 else Params.c0 P)).
    apply length_replicate.
Qed.

Lemma make_sponge_length `{R : Runtime} (nx ny w : Z) :
  length (make_sponge nx ny w) = Z.to_nat (Int.size_mul nx ny).
Proof.
  destruct (Z.leb_spec w 0) as [Hw|Hw].
  - unfold make_sponge. rewrite (proj2 (Z.leb_le w 0) Hw). apply length_replicate.
  - rewrite make_sponge_scatter by exact Hw. rewrite scatter_length. apply length_replicate.
Qed.

(** The energy of a field at rest is [+0] exactly. *)
Lemma energy_block_zero (u : list float32) (N b : Z) :
  zeros u -> energy_block u N b = f32.zero.
Proof.
  intros Hu. unfold energy_block.
  set (sdata0 := map _ (zrange ENERGY_THREADS)).
  assert (H0 : Forall (fun x => x = f32.zero) sdata0).
  { subst sdata0. apply Forall_fmap, Forall_forall. intros tid _. cbv beta zeta.
    unfold compose. cbv beta zeta.
    destruct (b * ENERGY_THREADS + tid <? N); [ | reflexivity ].
    apply zero_square, load_zeros, Hu. }
  assert (Hload : forall (sd : list float32) k, Forall (fun x => x = f32.zero) sd ->
                                                load sd k = f32.zero).
  { intros sd k Hsd. unfold load. destruct (k <? 0); [ reflexivity | ].
    destruct (sd !! Z.to_nat k) as [x|] eqn:Hx.
    - rewrite (list_lookup_total_correct _ _ _ Hx).
      exact (proj1 (Forall_lookup _ _) Hsd _ _ Hx).
    - rewrite list_lookup_total_alt, Hx. reflexivity. }
  apply Hload. clear Hload. revert H0. generalize sdata0. clear sdata0.
  induction (strides 32 (ENERGY_THREADS / 2)) as [|s l IH]; intros sd Hsd; [ exact Hsd | ].
  cbn [foldl]. apply IH. clear IH. revert sd Hsd.
  induction (zrange s) as [|tid l' IH']; intros sd Hsd; [ exact Hsd | ].
  cbn [foldl]. apply IH'.
  assert (Hl : forall k, load sd k = f32.zero).
  { intros k. unfold load. destruct (k <? 0); [ reflexivity | ].
    destruct (sd !! Z.to_nat k) as [x|] eqn:Hx.
    - rewrite (list_lookup_total_correct _ _ _ Hx).
      exact (proj1 (Forall_lookup _ _) Hsd _ _ Hx).
    - rewrite list_lookup_total_alt, Hx. reflexivity. }
  rewrite !Hl. unfold store. destruct (tid <? 0); [ exact Hsd | ].
  apply Forall_insert; [ exact Hsd | reflexivity ].
Qed.

Lemma sum_energy_zero (sched : list Z) (u : list float32) (N : Z) :
  zeros u -> sum_energy_kernel sched u f32.zero N = f32.zero.
Proof.
  intros Hu. unfold sum_energy_kernel.
  induction sched as [|b l IH] using rev_ind; [ reflexivity | ].
  rewrite foldl_app. cbn [foldl]. rewrite IH, energy_block_zero by exact Hu. reflexivity.
Qed.

Lemma foldl_invariant {A B : Type} (Q : A -> Prop) (f : A -> B -> A) (l : list B) :
  (forall a x, In x l -> Q a -> Q (f a x)) -> forall a, Q a -> Q (foldl f a l).
Proof.
  induction l as [|x l IH]; intros Hf a Ha; [ exact Ha | ].
  cbn. apply IH; [ intros; apply Hf; [ right | ]; assumption | ].
  apply Hf; [ left; reflexivity | exact Ha ].
Qed.

Lemma load_in (u : list float32) (k : Z) :
  0 <= k -> (Z.to_nat k < length u)%nat -> In (load u k) u.
Proof.
  intros Hk Hlen. unfold load. rewrite (proj2 (Z.ltb_ge k 0) Hk).
  destruct (lookup_lt_is_Some_2 u (Z.to_nat k) Hlen) as [x Hx].
  rewrite (list_lookup_total_correct _ _ _ Hx).
  apply list_elem_of_In, list_elem_of_lookup. eauto.
Qed.

Section ZeroField.
Context `{R : Runtime}.
Hypothesis tanhf_zero : forall x, f32.is_zero x = true -> f32.is_zero (tanhf x) = true.
Variable P : Params.
Hypothesis grid : 0 < Params.nx P /\ 0 < Params.ny P
                  /\ Params.nx P * Params.ny P <= Int.INT_MAX.
Hypothesis silent : f32.is_zero (Params.amp P) = true.

Lemma regular_parts (K : nat) :
  regular P K = true ->
  finite_nonzero (Params.dt P) = true
  /\ f32.is_finite (VISC_ALPHA * Params.dt P)%f32 = true
  /\ (forall c, In c (fill_model P) ->
        f32.is_finite (wave_coef c (Params.dt P) (Params.dx P)) = true)
  /\ (forall sp, In sp (make_sponge (Params.nx P) (Params.ny P) (Params.pml P)) ->
        f32.gtb sp f32.zero = true -> f32.is_finite (attenuation sp) = true)
  /\ (forall n, (n < K)%nat ->
        f32.is_finite (ricker (sim_time (Params.dt P) n) (Params.f0 P)) = true)
  /\ (forall ddx ddy, In ddx source_offsets -> In ddy source_offsets ->
        f32.is_finite (source_weight ddx ddy) = true).
Proof.
  unfold regular. rewrite !andb_true_iff.
  intros [[[[[Hdt Hadt] Hc] Hs] Hr] Hw].
  split; [ exact Hdt | ]. split; [ exact Hadt | ].
  split; [ exact (proj1 (forallb_forall _ _) Hc) | ].
  split.
  { intros sp Hin Hgt. apply (proj1 (forallb_forall _ _) Hs) in Hin.
    rewrite Hgt in Hin. exact Hin. }
  split.
  { intros n Hn. apply (proj1 (forallb_forall _ _) Hr). apply in_seq. lia. }
  intros ddx ddy Hx Hy.
  apply (proj1 (forallb_forall _ _) (proj1 (forallb_forall _ _) Hw ddy Hy) ddx Hx).
Qed.

Lemma step_launch_zeros (K : nat) (u0 u1 u2 : list float32) :
  regular P K = true -> zeros u0 -> zeros u1 -> zeros u2 ->
  zeros (step_launch (launch_threads (Params.nx P) (Params.ny P)) u0 u1 u2
           (fill_model P) (make_sponge (Params.nx P) (Params.ny P) (Params.pml P))
           (Params.nx P) (Params.ny P) (Params.dt P) (Params.dx P) VISC_ALPHA).
Proof.
  intros Hreg H0 H1 H2. destruct grid as (Hx & Hy & Hn).
  destruct (regular_parts K Hreg) as (Hdt & Hadt & Hc & Hs & _).
  rewrite step_launch_scatter. apply scatter_zeros; [ | exact H2 ].
  intros [i j] k v _ Hw. unfold step_write in Hw. cbn [fst snd] in Hw.
  destruct (on_ring (Params.nx P) (Params.ny P) i j) eqn:Hring; [ discriminate Hw | ].
  injection Hw as <- <-.
  apply on_ring_interior in Hring as [Hi Hj];
    try (unfold Int.INT_MIN, Int.INT_MAX in *; nia).
  rewrite (idx_exact (Params.nx P) (Params.ny P)) by lia.
  assert (Hk : 0 <= j * Params.nx P + i < Params.nx P * Params.ny P) by nia.
  apply step_value_zero; auto.
  - apply Hc, load_in; [ lia | ].
    rewrite fill_model_length. unfold Int.mul.
    rewrite wrap_small by (unfold Int.INT_MIN, Int.INT_MAX in *; nia). lia.
  - apply Hs, load_in; [ lia | ].
    rewrite make_sponge_length, size_mul_exact by assumption. lia.
Qed.

Lemma add_source_zeros (K : nat) (u : list float32) (val : float32) :
  regular P K = true -> zeros u -> f32.is_zero val = true ->
  zeros (add_source u (Params.nx P) (Params.ny P) (Params.sx P) (Params.sy P) val).
Proof.
  intros Hreg Hu Hval. destruct (regular_parts K Hreg) as (_ & _ & _ & _ & _ & Hw).
  unfold add_source. apply (foldl_invariant zeros); [ | exact Hu ].
  intros u' ddy Hy Hu'. apply (foldl_invariant zeros); [ | exact Hu' ].
  intros u'' ddx Hx Hu''.
  destruct (on_ring _ _ _ _); [ exact Hu'' | ].
  unfold atomicAdd. apply store_zeros; [ exact Hu'' | ].
  apply zero_add; [ apply load_zeros, Hu'' | ].
  apply zero_mul_l; [ exact Hval | apply Hw; assumption ].
Qed.

Lemma energies_of_app (l1 l2 : list output) :
  energies_of (l1 ++ l2) = energies_of l1 ++ energies_of l2.
Proof. unfold energies_of. apply omap_app. Qed.

Lemma main_step_at_rest (K k : nat) (st : MainState) :
  regular P K = true -> (k < K)%nat ->
  at_rest P k st ->
  at_rest P (S k) (main_step P (fill_model P)
                   (make_sponge (Params.nx P) (Params.ny P) (Params.pml P))
                   st (Z.of_nat k)).
Proof.
  intros Hreg Hk (H0 & H1 & H2 & Ht & He). unfold main_step.
  destruct (crashed st) eqn:Hc.
  { repeat split; auto. intros Hc'. rewrite Hc' in Hc. discriminate Hc. }
  destruct (regular_parts K Hreg) as (_ & _ & _ & _ & Hr & _).
  assert (Hsrc : f32.is_zero (Params.amp P * ricker (sim_t st) (Params.f0 P))%f32 = true).
  { apply zero_mul_l; [ exact silent | ]. rewrite (Ht eq_refl). apply Hr, Hk. }
  pose proof (add_source_zeros K _ _ Hreg (step_launch_zeros K _ _ _ Hreg H0 H1 H2) Hsrc) as Hnew.
  set (u2' := add_source _ _ _ _ _ _) in *.
  unfold emit_frame, report, at_rest.
  repeat match goal with |- context [if ?b then _ else _] => destruct b end;
    cbn [d_u0 d_u1 d_u2 sim_t out crashed];
    rewrite ?energies_of_app; cbn [energies_of omap]; rewrite ?app_nil_r;
    repeat split; auto; try discriminate;
    try (intros _; cbn [sim_time]; rewrite (Ht eq_refl); reflexivity);
    try (apply Forall_app; split; [ exact He | ]; repeat constructor;
         apply sum_energy_zero; exact Hnew).
Qed.

Lemma main_loop_at_rest (K : nat) :
  regular P K = true -> forall k, (k <= K)%nat -> at_rest P k (main_loop P k).
Proof.
  intros Hreg. induction k as [|k IH]; intros Hk.
  - unfold main_loop. change (zrange (Z.of_nat 0)) with (@nil Z). cbn [foldl].
    unfold at_rest, main_init. cbn [d_u0 d_u1 d_u2 sim_t out crashed].
    repeat split; try (apply Forall_replicate; reflexivity); constructor.
  - rewrite main_loop_succ. apply (main_step_at_rest K); [ exact Hreg | lia | apply IH; lia ].
Qed.

End ZeroField.

(** C4, as the code has it.  A run that starts from the cleared
    buffers with the source amplitude zero, on a grid whose index
    arithmetic does not overflow, with a configuration that is
    [regular] for [k] turns and a [tanhf] that maps zero to zero: when
    [k] turns have completed every cell of the three buffers is a zero,
    as it was after each turn before, the energy of the current field
    is [+0] in whatever order the blocks add up, and every energy the
    run has reported is [+0] exactly. *)
Theorem silent_run_at_rest `{R : Runtime} (P : Params) (k : nat) :
  (forall x, f32.is_zero x = true -> f32.is_zero (tanhf x) = true) ->
  0 < Params.nx P /\ 0 < Params.ny P /\ Params.nx P * Params.ny P <= Int.INT_MAX ->
  f32.is_zero (Params.amp P) = true ->
  regular P k = true ->
  (forall j, (j <= k)%nat ->
     zeros (d_u0 (main_loop P j)) /\ zeros (d_u1 (main_loop P j))
     /\ zeros (d_u2 (main_loop P j))
     /\ forall sched, sum_energy_kernel sched (d_u1 (main_loop P j)) f32.zero (cells P)
                      = f32.zero)
  /\ Forall (fun e => e = f32.zero) (energies_of (out (main_loop P k))).
Proof.
  intros Htanh Hgrid Hamp Hreg. split.
  - intros j Hj.
    destruct (main_loop_at_rest Htanh P Hgrid Hamp k Hreg j Hj) as (H0 & H1 & H2 & _ & _).
    repeat split; auto. intros sched. apply sum_energy_zero, H1.
  - destruct (main_loop_at_rest Htanh P Hgrid Hamp k Hreg k (Nat.le_refl k))
      as (_ & _ & _ & _ & He).
    exact He.
Qed.

Lemma ref_tanhf_zero (x : float32) :
  f32.is_zero x = true -> f32.is_zero (ref_tanhf x) = true.
Proof. destruct x as [[]| | |]; try discriminate; reflexivity. Qed.

Lemma silent_run_at_rest_witness :
  (forall j, (j <= 101)%nat ->
     zeros (d_u0 (main_loop (H := ref_runtime) (Params.set_amp f32.zero demo_params) j))
     /\ zeros (d_u1 (main_loop (H := ref_runtime) (Params.set_amp f32.zero demo_params) j))
     /\ zeros (d_u2 (main_loop (H := ref_runtime) (Params.set_amp f32.zero demo_params) j))
     /\ forall sched,
          sum_energy_kernel sched
            (d_u1 (main_loop (H := ref_runtime) (Params.set_amp f32.zero demo_params) j))
            f32.zero (cells (Params.set_amp f32.zero demo_params))
          = f32.zero)
  /\ Forall (fun e => e = f32.zero)
       (energies_of (out (main_loop (H := ref_runtime)
                            (Params.set_amp f32.zero demo_params) 101))).
Proof.
  apply (silent_run_at_rest (R := ref_runtime) (Params.set_amp f32.zero demo_params) 101).
  - exact ref_tanhf_zero.
  - vm_compute. repeat split; discriminate.
  - reflexivity.
  - vm_compute. reflexivity.
Defined.

(** At its first report, after turn 100, the silent run of the small
    grid reports the energy [+0]. *)
Example silent_run_energy :
  energies_of (out (main_loop (H := ref_runtime) (Params.set_amp f32.zero demo_params) 101))
  = [f32.zero].
Proof. vm_compute. reflexivity. Qed.

Lemma nan_add (v : float32) : (f32.nan + v)%f32 = f32.nan.
Proof. reflexivity. Qed.

Lemma load_store (u : list float32) (k k' : Z) (v : float32) :
  0 <= k -> (Z.to_nat k < length u)%nat ->
  load (store u k' v) k = if k' =? k then v else load u k.
Proof.
  intros Hk Hlen. unfold load, store. rewrite (proj2 (Z.ltb_ge k 0) Hk).
  destruct (Z.ltb_spec k' 0) as [Hneg|Hpos].
  - rewrite (proj2 (Z.eqb_neq k' k)) by lia. reflexivity.
  - destruct (Z.eqb_spec k' k) as [->|Hne].
    + apply list_lookup_total_correct, list_lookup_insert_eq, Hlen.
    + rewrite !list_lookup_total_alt, list_lookup_insert_ne by lia. reflexivity.
Qed.

(** A cell that holds no number holds none after the source is added. *)
Lemma add_source_nan `{R : Runtime} (u : list float32) (nx ny sx sy : Z) (val : float32) (k : Z) :
  0 <= k -> (Z.to_nat k < length u)%nat -> load u k = f32.nan ->
  load (add_source u nx ny sx sy val) k = f32.nan.
Proof.
  intros Hk Hlen Hnan. unfold add_source.
  apply (foldl_invariant (fun u => (Z.to_nat k < length u)%nat /\ load u k = f32.nan));
    [ | auto ].
  intros u' ddy _ Hu'.
  apply (foldl_invariant (fun u => (Z.to_nat k < length u)%nat /\ load u k = f32.nan));
    [ | exact Hu' ].
  intros u'' ddx _ [Hlen'' Hnan''].
  destruct (on_ring _ _ _ _); [ auto | ].
  unfold atomicAdd. rewrite store_length. split; [ exact Hlen'' | ].
  rewrite load_store by assumption.
  destruct (Z.eqb_spec (idx nx (Int.add sx ddx) (Int.add sy ddy)) k) as [->|_];
    [ rewrite Hnan''; apply nan_add | exact Hnan'' ].
Qed.

(** C4 as stated fails: with the time step zero, [--dt 0], the time
    derivative of a field at rest is [0.0f / 0.0f]; after the first
    step the interior cell holds [tanhf] of no number, which is no
    number for a [tanhf] that keeps NaN.  (The sponge is switched off,
    [--pml 0], so that [powf] plays no part.) *)
Lemma zero_dt_not_at_rest :
  f32.is_zero (Params.amp (Params.set_pml 0 (Params.set_dt f32.zero (Params.set_amp f32.zero demo_params))))
  = true
  /\ (forall R : Runtime,
       tanhf f32.nan = f32.nan ->
       load (d_u1 (main_loop (H := R)
                     (Params.set_pml 0 (Params.set_dt f32.zero (Params.set_amp f32.zero demo_params))) 1)) 4
       = f32.nan)
  /\ f32.is_zero f32.nan = false.
Proof.
  split; [ reflexivity | ]. split; [ | reflexivity ]. intros R Hnan.
  rewrite main_loop_succ. unfold main_step.
  change (crashed (main_loop (Params.set_pml 0 (Params.set_dt f32.zero (Params.set_amp f32.zero demo_params))) 0))
    with false. cbv iota.
  match goal with |- context [emit_frame ?P (report ?P ?s ?n) ?n] => set (st' := s) end.
  assert (Hu1 : d_u1 (emit_frame (Params.set_pml 0 (Params.set_dt f32.zero (Params.set_amp f32.zero demo_params)))
                        (report (Params.set_pml 0 (Params.set_dt f32.zero (Params.set_amp f32.zero demo_params)))
                           st' (Z.of_nat 0)) (Z.of_nat 0)) = d_u1 st').
  { unfold emit_frame, report.
    repeat match goal with |- context [if ?b then _ else _] => destruct b end; reflexivity. }
  rewrite Hu1. subst st'. cbn [d_u1].
  apply add_source_nan; [ lia | rewrite step_launch_length; vm_compute; lia | ].
  rewrite step_launch_scatter.
  unfold load. change (4 <? 0) with false. cbv iota.
  apply list_lookup_total_correct.
  rewrite (scatter_lookup _ f32.nan).
  - vm_compute. reflexivity.
  - intros [i j] k v Hin Hw _ Hk. unfold step_write in Hw. cbn [fst snd] in Hw.
    destruct (on_ring _ _ i j) eqn:Hring; [ discriminate Hw | ].
    injection Hw as <- <-.
    assert (Hij : i = 1 /\ j = 1).
    { apply (on_ring_interior 3 3) in Hring as [Hi Hj];
        unfold interior, Int.INT_MIN, Int.INT_MAX in *; lia. }
    destruct Hij as [-> ->]. clear Hin Hring Hk.
    vm_compute. exact Hnan.
  - vm_compute. lia.
Qed.

(** * Further properties of the code *)

Section ParserMore.
Context `{R : Runtime}.

Lemma stoi_in_range (v : string) (n : Z) : stoi v = inr n -> Int.in_range n = true.
Proof.
  unfold stoi. destruct (sign_of (skip_spaces v)) as [neg s].
  destruct (digits None s) as [d|]; [ | discriminate ].
  destruct (Int.in_range (if neg then - d else d)) eqn:Hr; [ | discriminate ].
  intros [= <-]. exact Hr.
Qed.

(** A turn that returns has set one member and left the others. *)
Lemma parse_option_override (p p1 : Params) (a v v' : string) (r1 r2 : list string) :
  parse_option p a (v :: r1) = Returned p1 ->
  parse_option p1 a (v' :: r2) = parse_option p a (v' :: r2).
Proof.
  unfold parse_option.
  repeat (destruct (String.eqb a _);
          [ cbn; destruct (stoi v), (stoi v'), (stof v), (stof v'); cbn;
            intros H; try discriminate H; injection H as <-; reflexivity | ]).
  discriminate.
Qed.

Lemma parse_option_ints (p p1 : Params) (a : string) (rest : list string) :
  ints_in_range p -> parse_option p a rest = Returned p1 -> ints_in_range p1.
Proof.
  intros (H1 & H2 & H3 & H4 & H5 & H6 & H7). unfold parse_option.
  repeat (destruct (String.eqb a _);
          [ destruct rest as [|v rest]; [ discriminate | ]; cbn;
            destruct (stoi v) as [|n] eqn:Hn, (stof v); cbn;
            intros H; try discriminate H; injection H as <-;
            try apply stoi_in_range in Hn;
            unfold ints_in_range; cbn; tauto | ]).
  discriminate.
Qed.

Lemma parse_option_source (p p1 : Params) (a : string) (rest : list string) :
  parse_option p a rest = Returned p1 ->
  (a <> "--sx" -> Params.sx p1 = Params.sx p)
  /\ (a <> "--sy" -> Params.sy p1 = Params.sy p).
Proof.
  unfold parse_option.
  repeat (destruct (String.eqb a _) eqn:Heq;
          [ apply String.eqb_eq in Heq; subst a;
            destruct rest as [|v rest]; [ discriminate | ]; cbn;
            destruct (stoi v) as [|n], (stof v); cbn;
            intros H; try discriminate H; injection H as <-;
            split; intros Hne; solve [ reflexivity | congruence ] | clear Heq ]).
  discriminate.
Qed.

Lemma parse_loop_invariants (args : list string) :
  forall p q, parse_loop p args = Returned q ->
    (ints_in_range p -> ints_in_range q)
    /\ ("--sx" ∉ args -> Params.sx q = Params.sx p)
    /\ ("--sy" ∉ args -> Params.sy q = Params.sy p).
Proof.
  induction args as [args IH] using (induction_ltof1 _ (@length string)).
  unfold ltof in IH. intros p q Hq.
  destruct args as [|a [|v rest]].
  - cbn in Hq. injection Hq as <-. auto.
  - cbn in Hq. destruct (parse_option p a []) eqn:Ho; try discriminate.
    exfalso. exact (parse_option_last _ _ _ Ho).
  - cbn [parse_loop] in Hq.
    destruct (parse_option p a (v :: rest)) as [p1| |] eqn:Ho; try discriminate.
    destruct (IH rest ltac:(cbn; lia) p1 q Hq) as (Hr & Hsx & Hsy).
    destruct (parse_option_source _ _ _ _ Ho) as [Hx Hy].
    split; [ | split ].
    + intros Hp. apply Hr. exact (parse_option_ints _ _ _ _ Hp Ho).
    + intros Hn. rewrite !not_elem_of_cons in Hn. destruct Hn as (Ha & _ & Hrest).
      rewrite Hsx, Hx; auto.
    + intros Hn. rewrite !not_elem_of_cons in Hn. destruct Hn as (Ha & _ & Hrest).
      rewrite Hsy, Hy; auto.
Qed.

End ParserMore.

(** X2. The source of a parsed configuration.  Every [int] member holds
    an [int]; without an option [--sx] the source column is the middle
    column [nx / 2] of the grid as finally sized, wherever [--nx]
    stands on the command line, and likewise for [--sy]; and on a grid
    with [nx >= 0] the source column is never negative, since a
    negative [--sx] is replaced by the middle too. *)
Theorem parse_args_source `{R : Runtime} (argv : list string) (P : Params) :
  parse_args argv = Returned P ->
  ints_in_range P
  /\ ("--sx" ∉ tail argv -> Params.sx P = Z.quot (Params.nx P) 2)
  /\ ("--sy" ∉ tail argv -> Params.sy P = Z.quot (Params.ny P) 2)
  /\ (0 <= Params.nx P -> 0 <= Params.sx P)
  /\ (0 <= Params.ny P -> 0 <= Params.sy P).
Proof.
  unfold parse_args. destruct (parse_loop Params.default (tail argv)) as [q| |] eqn:Hq;
    try discriminate.
  cbn. intros [= <-].
  destruct (parse_loop_invariants _ _ _ Hq) as (Hr & Hsx & Hsy).
  destruct Hr as (H1 & H2 & H3 & H4 & H5 & H6 & H7).
  { repeat split; reflexivity. }
  assert (Hhalf : forall n, Int.in_range n = true ->
            Int.div n 2 = Z.quot n 2 /\ Int.in_range (Int.div n 2) = true
            /\ (0 <= n -> 0 <= Int.div n 2)).
  { intros n Hn. unfold Int.in_range, Int.INT_MIN, Int.INT_MAX in Hn.
    apply andb_true_iff in Hn as [Hlo Hhi]. apply Z.leb_le in Hlo, Hhi.
    assert (Hq2 : -1073741824 <= Z.quot n 2 <= 1073741823)
      by (Z.quot_rem_to_equations; lia).
    unfold Int.div. rewrite wrap_small by (unfold Int.INT_MIN, Int.INT_MAX; lia).
    split; [ reflexivity | ]. split.
    - unfold Int.in_range, Int.INT_MIN, Int.INT_MAX.
      apply andb_true_iff. split; apply Z.leb_le; lia.
    - intros Hn0. Z.quot_rem_to_equations. lia. }
  destruct (Hhalf _ H1) as (Ex & Rx & Px). destruct (Hhalf _ H2) as (Ey & Ry & Py).
  destruct q as [nx ny dx dt st fe pml c0 amp f0 sx sy cfl model].
  unfold centre_source, ints_in_range. cbn in *.
  destruct (Z.ltb_spec sx 0) as [Hx|Hx]; cbn;
    destruct (Z.ltb_spec sy 0) as [Hy|Hy]; cbn;
    (split; [ tauto | ]);
    (split; [ intros Hn; first [ exact Ex | specialize (Hsx Hn); lia ] | ]);
    (split; [ intros Hn; first [ exact Ey | specialize (Hsy Hn); lia ] | ]);
    split; intros; auto.
Qed.

Lemma parse_args_source_witness :
  ints_in_range (Params.set_sy 256 (Params.set_sx 32 (Params.set_nx 64 Params.default)))
  /\ ("--sx" ∉ tail ["engine"; "--nx"; "64"] ->
      Params.sx (Params.set_sy 256 (Params.set_sx 32 (Params.set_nx 64 Params.default)))
      = Z.quot (Params.nx (Params.set_sy 256 (Params.set_sx 32 (Params.set_nx 64 Params.default)))) 2)
  /\ ("--sy" ∉ tail ["engine"; "--nx"; "64"] ->
      Params.sy (Params.set_sy 256 (Params.set_sx 32 (Params.set_nx 64 Params.default)))
      = Z.quot (Params.ny (Params.set_sy 256 (Params.set_sx 32 (Params.set_nx 64 Params.default)))) 2)
  /\ (0 <= Params.nx (Params.set_sy 256 (Params.set_sx 32 (Params.set_nx 64 Params.default))) ->
      0 <= Params.sx (Params.set_sy 256 (Params.set_sx 32 (Params.set_nx 64 Params.default))))
  /\ (0 <= Params.ny (Params.set_sy 256 (Params.set_sx 32 (Params.set_nx 64 Params.default))) ->
      0 <= Params.sy (Params.set_sy 256 (Params.set_sx 32 (Params.set_nx 64 Params.default)))).
Proof.
  apply (parse_args_source (R := ref_runtime) ["engine"; "--nx"; "64"]).
  vm_compute. reflexivity.
Defined.

Lemma parse_loop_pair `{R : Runtime} (p : Params) (a v : string) (rest : list string) :
  parse_loop p (a :: v :: rest) = (p' ← parse_option p a [v]; parse_loop p' rest).
Proof.
  cbn [parse_loop]. rewrite (parse_option_rest p a v rest []).
  destruct (parse_option p a [v]); reflexivity.
Qed.

(** ** An option given more than once *)

Section Setters.
Context `{R : Runtime}.

(** A turn of the parser does not look at the configuration: it ends
    the process or sets one member, the same whatever the members
    hold. *)
Lemma parse_option_setter (p : Params) (a : string) (rest : list string) :
  match parse_option p a rest with
  | Returned p1 =>
      exists s, member s = option_member a
                /\ forall q, parse_option q a rest = Returned (apply_setter s q)
  | Exited st m => forall q, parse_option q a rest = Exited st m
  | Terminated e => forall q, parse_option q a rest = Terminated e
  end.
Proof.
  unfold parse_option, option_member.
  repeat (destruct (String.eqb a _);
          [ destruct rest as [|v rest]; [ intros q; reflexivity | ]; cbn;
            destruct (stoi v) as [e|n], (stof v) as [e'|x]; cbn;
            first [ intros q; reflexivity
                  | eexists (SetNx _); split; [ reflexivity | intros q; reflexivity ]
                  | eexists (SetNy _); split; [ reflexivity | intros q; reflexivity ]
                  | eexists (SetDx _); split; [ reflexivity | intros q; reflexivity ]
                  | eexists (SetDt _); split; [ reflexivity | intros q; reflexivity ]
                  | eexists (SetSteps _); split; [ reflexivity | intros q; reflexivity ]
                  | eexists (SetFramesEvery _); split; [ reflexivity | intros q; reflexivity ]
                  | eexists (SetPml _); split; [ reflexivity | intros q; reflexivity ]
                  | eexists (SetC0 _); split; [ reflexivity | intros q; reflexivity ]
                  | eexists (SetAmp _); split; [ reflexivity | intros q; reflexivity ]
                  | eexists (SetF0 _); split; [ reflexivity | intros q; reflexivity ]
                  | eexists (SetSx _); split; [ reflexivity | intros q; reflexivity ]
                  | eexists (SetSy _); split; [ reflexivity | intros q; reflexivity ]
                  | eexists (SetCfl _); split; [ reflexivity | intros q; reflexivity ]
                  | eexists (SetModel _); split; [ reflexivity | intros q; reflexivity ] ]
          | ]).
  intros q. reflexivity.
Qed.

End Setters.

(** Two setters of one member: the second alone does as much.  Two
    setters of different members: their order does not matter. *)
Lemma setter_absorb (s t : setter) (p : Params) :
  member s = member t -> apply_setter t (apply_setter s p) = apply_setter t p.
Proof. destruct s, t; try discriminate; intros _; destruct p; reflexivity. Qed.

Lemma setter_commute (s t : setter) (p : Params) :
  member s <> member t ->
  apply_setter t (apply_setter s p) = apply_setter s (apply_setter t p).
Proof. destruct s, t; intros H; try (exfalso; apply H; reflexivity); destruct p; reflexivity. Qed.

Lemma parse_loop_forgets `{R : Runtime} (s : setter) (b v' : string) (rest : list string)
    (between : list (string * string)) :
  member s = option_member b ->
  forall p, parse_loop (apply_setter s p) (option_list between ++ b :: v' :: rest)
            = parse_loop p (option_list between ++ b :: v' :: rest).
Proof.
  intros Hb. induction between as [|[o x] between IH]; intros p.
  - cbn [option_list flat_map app]. rewrite !parse_loop_pair.
    pose proof (parse_option_setter p b [v']) as Hp.
    destruct (parse_option p b [v']) as [p1|st m|e] eqn:Ho.
    + destruct Hp as (t & Ht & Hq). rewrite (Hq (apply_setter s p)).
      rewrite Hq in Ho. injection Ho as <-. cbn [mbind outcome_bind].
      rewrite setter_absorb by congruence. reflexivity.
    + rewrite Hp. reflexivity.
    + rewrite Hp. reflexivity.
  - cbn [option_list flat_map app fst snd]. fold (option_list between).
    rewrite !parse_loop_pair.
    pose proof (parse_option_setter p o [x]) as Hp.
    destruct (parse_option p o [x]) as [p1|st m|e] eqn:Ho.
    + destruct Hp as (t & Ht & Hq). rewrite (Hq (apply_setter s p)).
      rewrite Hq in Ho. injection Ho as <-. cbn [mbind outcome_bind].
      destruct (Nat.eq_dec (member s) (member t)) as [Heq|Hne].
      * rewrite setter_absorb by exact Heq. reflexivity.
      * rewrite setter_commute by exact Hne. apply IH.
    + rewrite Hp. reflexivity.
    + rewrite Hp. reflexivity.
Qed.

(** X1. An option given more than once: the last value wins.  When the
    value of an occurrence of an option is read without error and the
    option, or for [--pml] and [--sponge] the other spelling of it,
    stands again later on the command line, whatever options stand
    before and between the two, the command line is read as if the
    earlier occurrence were not there. *)
Theorem parse_args_last_wins `{R : Runtime} (argv0 : string)
    (before between : list (string * string)) (a v b v' : string) (rest : list string)
    (p0 p1 : Params) :
  parse_option p0 a [v] = Returned p1 ->
  b = a \/ (a = "--pml" /\ b = "--sponge") \/ (a = "--sponge" /\ b = "--pml") ->
  parse_args (argv0 :: option_list before ++ a :: v :: option_list between ++ b :: v' :: rest)
  = parse_args (argv0 :: option_list before ++ option_list between ++ b :: v' :: rest).
Proof.
  intros Ha Hb. unfold parse_args. cbn [tail]. f_equal.
  pose proof (parse_option_setter p0 a [v]) as Hs. rewrite Ha in Hs.
  destruct Hs as (s & Hm & Hq).
  assert (Hsame : member s = option_member b).
  { rewrite Hm. destruct Hb as [->|[[-> ->]|[-> ->]]]; reflexivity. }
  generalize Params.default.
  induction before as [|[o x] before IH]; intros p.
  - cbn [option_list flat_map app]. rewrite parse_loop_pair, Hq. cbn [mbind outcome_bind].
    apply parse_loop_forgets. exact Hsame.
  - cbn [option_list flat_map app fst snd]. fold (option_list before).
    rewrite !parse_loop_pair.
    destruct (parse_option p o [x]); cbn [mbind outcome_bind]; [ apply IH | reflexivity.. ].
Qed.

Lemma parse_args_last_wins_witness :
  parse_args (H := ref_runtime)
    ("engine" :: option_list [("--f0", "2")] ++ "--pml" :: "64"
       :: option_list [("--ny", "32"); ("--dx", "1")] ++ "--sponge" :: "128" :: ["--steps"; "5"])
  = parse_args (H := ref_runtime)
      ("engine" :: option_list [("--f0", "2")]
         ++ option_list [("--ny", "32"); ("--dx", "1")] ++ "--sponge" :: "128" :: ["--steps"; "5"]).
Proof.
  apply (parse_args_last_wins (R := ref_runtime) "engine" [("--f0", "2")]
           [("--ny", "32"); ("--dx", "1")] "--pml" "64" "--sponge" "128" ["--steps"; "5"]
           Params.default (Params.set_pml 64 Params.default)).
  - vm_compute. reflexivity.
  - right. left. split; reflexivity.
Defined.

(** The repeated option need not stand next to its first occurrence. *)
Example last_nx_wins :
  parse_args (H := ref_runtime) ["engine"; "--nx"; "64"; "--ny"; "32"; "--nx"; "128"]
  = Returned (Params.set_sy 16 (Params.set_sx 64
               (Params.set_nx 128 (Params.set_ny 32 Params.default)))).
Proof. vm_compute. reflexivity. Qed.

Section ParserSteps.
Context `{R : Runtime}.
Variables (p : Params) (v : string) (rest : list string).

Lemma parse_loop_nx :
  parse_loop p ("--nx" :: v :: rest)
  = match stoi v with
    | inr n => parse_loop (Params.set_nx n p) rest
    | inl e => Terminated e
    end.
Proof.
  rewrite parse_loop_pair.
  change (parse_option p "--nx" [v]) with (n ← throwing (stoi v); mret (Params.set_nx n p)).
  destruct (stoi v); reflexivity.
Qed.

Lemma parse_loop_ny :
  parse_loop p ("--ny" :: v :: rest)
  = match stoi v with
    | inr n => parse_loop (Params.set_ny n p) rest
    | inl e => Terminated e
    end.
Proof.
  rewrite parse_loop_pair.
  change (parse_option p "--ny" [v]) with (n ← throwing (stoi v); mret (Params.set_ny n p)).
  destruct (stoi v); reflexivity.
Qed.

Lemma parse_loop_dx :
  parse_loop p ("--dx" :: v :: rest)
  = match stof v with
    | inr n => parse_loop (Params.set_dx n p) rest
    | inl e => Terminated e
    end.
Proof.
  rewrite parse_loop_pair.
  change (parse_option p "--dx" [v]) with (n ← throwing (stof v); mret (Params.set_dx n p)).
  destruct (stof v); reflexivity.
Qed.

Lemma parse_loop_dt :
  parse_loop p ("--dt" :: v :: rest)
  = match stof v with
    | inr n => parse_loop (Params.set_dt n p) rest
    | inl e => Terminated e
    end.
Proof.
  rewrite parse_loop_pair.
  change (parse_option p "--dt" [v]) with (n ← throwing (stof v); mret (Params.set_dt n p)).
  destruct (stof v); reflexivity.
Qed.

Lemma parse_loop_steps :
  parse_loop p ("--steps" :: v :: rest)
  = match stoi v with
    | inr n => parse_loop (Params.set_steps n p) rest
    | inl e => Terminated e
    end.
Proof.
  rewrite parse_loop_pair.
  change (parse_option p "--steps" [v]) with (n ← throwing (stoi v); mret (Params.set_steps n p)).
  destruct (stoi v); reflexivity.
Qed.

Lemma parse_loop_frames_every :
  parse_loop p ("--frames_every" :: v :: rest)
  = match stoi v with
    | inr n => parse_loop (Params.set_frames_every n p) rest
    | inl e => Terminated e
    end.
Proof.
  rewrite parse_loop_pair.
  change (parse_option p "--frames_every" [v]) with (n ← throwing (stoi v); mret (Params.set_frames_every n p)).
  destruct (stoi v); reflexivity.
Qed.

Lemma parse_loop_pml :
  parse_loop p ("--pml" :: v :: rest)
  = match stoi v with
    | inr n => parse_loop (Params.set_pml n p) rest
    | inl e => Terminated e
    end.
Proof.
  rewrite parse_loop_pair.
  change (parse_option p "--pml" [v]) with (n ← throwing (stoi v); mret (Params.set_pml n p)).
  destruct (stoi v); reflexivity.
Qed.

Lemma parse_loop_c0 :
  parse_loop p ("--c0" :: v :: rest)
  = match stof v with
    | inr n => parse_loop (Params.set_c0 n p) rest
    | inl e => Terminated e
    end.
Proof.
  rewrite parse_loop_pair.
  change (parse_option p "--c0" [v]) with (n ← throwing (stof v); mret (Params.set_c0 n p)).
  destruct (stof v); reflexivity.
Qed.

Lemma parse_loop_amp :
  parse_loop p ("--amp" :: v :: rest)
  = match stof v with
    | inr n => parse_loop (Params.set_amp n p) rest
    | inl e => Terminated e
    end.
Proof.
  rewrite parse_loop_pair.
  change (parse_option p "--amp" [v]) with (n ← throwing (stof v); mret (Params.set_amp n p)).
  destruct (stof v); reflexivity.
Qed.

Lemma parse_loop_f0 :
  parse_loop p ("--f0" :: v :: rest)
  = match stof v with
    | inr n => parse_loop (Params.set_f0 n p) rest
    | inl e => Terminated e
    end.
Proof.
  rewrite parse_loop_pair.
  change (parse_option p "--f0" [v]) with (n ← throwing (stof v); mret (Params.set_f0 n p)).
  destruct (stof v); reflexivity.
Qed.

Lemma parse_loop_sx :
  parse_loop p ("--sx" :: v :: rest)
  = match stoi v with
    | inr n => parse_loop (Params.set_sx n p) rest
    | inl e => Terminated e
    end.
Proof.
  rewrite parse_loop_pair.
  change (parse_option p "--sx" [v]) with (n ← throwing (stoi v); mret (Params.set_sx n p)).
  destruct (stoi v); reflexivity.
Qed.

Lemma parse_loop_sy :
  parse_loop p ("--sy" :: v :: rest)
  = match stoi v with
    | inr n => parse_loop (Params.set_sy n p) rest
    | inl e => Terminated e
    end.
Proof.
  rewrite parse_loop_pair.
  change (parse_option p "--sy" [v]) with (n ← throwing (stoi v); mret (Params.set_sy n p)).
  destruct (stoi v); reflexivity.
Qed.

Lemma parse_loop_model :
  parse_loop p ("--model" :: v :: rest) = parse_loop (Params.set_model v p) rest.
Proof. rewrite parse_loop_pair. reflexivity. Qed.

End ParserSteps.

(** The parser has returned [q]: no fatal exit, and what is to be
    shown of the configuration is to be shown of [q]. *)
Ltac returned :=
  match goal with
  | |- context [mbind ?f (Returned ?x)] =>
      change (mbind f (Returned x)) with (Returned (centre_source x));
      let Q := fresh "Q" in
      let HQ := fresh "HQ" in
      remember (centre_source x) as Q eqn:HQ;
      split; [ intros ? ? Hne; discriminate Hne | ];
      let P := fresh "P" in
      let HP := fresh "HP" in
      intros P HP; injection HP as <-; subst Q
  end.

Ltac thrown :=
  split; [ intros ? ? Hne; discriminate Hne | intros ? Hne; discriminate Hne ].

(** X3. The command line the relay builds is read by the engine's parser
    without a fatal exit, whatever the start command holds: the parser
    returns, or a value that is no number makes [std::stoi] or
    [std::stof] throw.  When it returns, the run has a thousand million
    steps, a frame every 60 steps and the default CFL number, the model
    is the one asked for, and the other members are the values of the
    start command as [std::stoi] and [std::stof] read them, the
    thickness of the sponge going to [pml]. *)
Theorem engine_args_parsed `{R : Runtime} (argv0 : string) (cfg : Relay.config) :
  (forall s m, parse_args (argv0 :: Relay.engine_args cfg) <> Exited s m)
  /\ (forall P, parse_args (argv0 :: Relay.engine_args cfg) = Returned P ->
        Params.steps P = 1000000000 /\ Params.frames_every P = 60
        /\ Params.cfl P = CFL_DEFAULT /\ Params.model P = Relay.cfg_model cfg
        /\ stoi (Relay.cfg_nx cfg) = inr (Params.nx P)
        /\ stoi (Relay.cfg_ny cfg) = inr (Params.ny P)
        /\ stoi (Relay.cfg_sponge cfg) = inr (Params.pml P)
        /\ stof (Relay.cfg_dx cfg) = inr (Params.dx P)
        /\ stof (Relay.cfg_dt cfg) = inr (Params.dt P)
        /\ stof (Relay.cfg_c0 cfg) = inr (Params.c0 P)
        /\ stof (Relay.cfg_amp cfg) = inr (Params.amp P)
        /\ stof (Relay.cfg_f0 cfg) = inr (Params.f0 P)).
Proof.
  destruct cfg as [nxs nys dxs dts sps c0s amps f0s ms src].
  unfold parse_args, Relay.engine_args. cbn [tail app Relay.cfg_nx Relay.cfg_ny Relay.cfg_dx
    Relay.cfg_dt Relay.cfg_sponge Relay.cfg_c0 Relay.cfg_amp Relay.cfg_f0 Relay.cfg_model
    Relay.cfg_source].
  rewrite parse_loop_nx. destruct (stoi nxs) as [e|nx]; [ thrown | ].
  rewrite parse_loop_ny. destruct (stoi nys) as [e|ny]; [ thrown | ].
  rewrite parse_loop_dx. destruct (stof dxs) as [e|dx]; [ thrown | ].
  rewrite parse_loop_dt. destruct (stof dts) as [e|dt]; [ thrown | ].
  rewrite parse_loop_steps.
  replace (stoi "1000000000") with (@inr cxx_exception Z 1000000000) by (vm_compute; reflexivity).
  rewrite parse_loop_frames_every.
  replace (stoi "60") with (@inr cxx_exception Z 60) by (vm_compute; reflexivity).
  rewrite parse_loop_pml. destruct (stoi sps) as [e|pml]; [ thrown | ].
  rewrite parse_loop_c0. destruct (stof c0s) as [e|c0]; [ thrown | ].
  rewrite parse_loop_amp. destruct (stof amps) as [e|amp]; [ thrown | ].
  rewrite parse_loop_f0. destruct (stof f0s) as [e|f0]; [ thrown | ].
  rewrite parse_loop_model.
  destruct src as [[sxs sys]|]; cbn [app].
  - rewrite parse_loop_sx. destruct (stoi sxs) as [e|sx]; [ thrown | ].
    rewrite parse_loop_sy. destruct (stoi sys) as [e|sy]; [ thrown | ].
    cbn [parse_loop]. returned.
    unfold centre_source. cbn [Params.sx Params.set_sx Params.set_sy].
    destruct (sx <? 0); cbn [Params.sy Params.set_sx Params.set_sy];
      destruct (sy <? 0); repeat split; reflexivity.
  - cbn [parse_loop]. returned.
    repeat split; reflexivity.
Qed.

(** ** The velocity model, cell by cell *)

(** Two loops over the grid that write every cell once. *)
Lemma grid_fill_lookup (f : Z -> Z -> float32) (nx ny : Z) (u : list float32) (i j : Z) :
  0 < nx -> 0 < ny -> nx * ny <= Int.INT_MAX ->
  length u = Z.to_nat (nx * ny) ->
  0 <= i < nx -> 0 <= j < ny ->
  foldl (fun cf j => foldl (fun cf i => store cf (idx nx i j) (f i j)) cf (zrange nx))
        u (zrange ny) !! Z.to_nat (j * nx + i)
  = Some (f i j).
Proof.
  intros Hx Hy Hn Hlen Hi Hj.
  rewrite (foldl_nested (fun cf i j => store cf (idx nx i j) (f i j))).
  change (foldl _ u ?l) with (scatter (fill_write nx f) u l).
  assert (Hk : 0 <= j * nx + i < nx * ny) by nia.
  rewrite (scatter_lookup _ (f i j)).
  - rewrite (proj2 (existsb_exists _ _)); [ reflexivity | ].
    exists (i, j). split.
    + apply list_elem_of_In, elem_of_pairs. rewrite !elem_of_zrange. lia.
    + unfold writes, fill_write. cbn [fst snd]. rewrite (idx_exact nx ny) by lia.
      apply andb_true_iff. split; [ apply Z.leb_le; lia | apply Nat.eqb_refl ].
  - intros [i' j'] k v Hin Hwr Hk0 Heq.
    apply list_elem_of_In, elem_of_pairs in Hin as [Hi' Hj'].
    apply elem_of_zrange in Hi', Hj'.
    unfold fill_write in Hwr. cbn [fst snd] in Hwr. injection Hwr as <- <-.
    rewrite (idx_exact nx ny) in Heq by lia.
    assert (j' * nx + i' = j * nx + i) by nia.
    assert (j' = j) by nia. assert (i' = i) by nia. subst i' j'. reflexivity.
  - rewrite Hlen. lia.
Qed.

(** The loops of the two models with structure, cell by cell. *)
Lemma fill_model_layers (P : Params) (i j : Z) :
  0 < Params.nx P -> 0 < Params.ny P -> Params.nx P * Params.ny P <= Int.INT_MAX ->
  0 <= i < Params.nx P -> 0 <= j < Params.ny P ->
  fill_model (Params.set_model "two_layer" P) !! Z.to_nat (j * Params.nx P + i)
  = Some (two_layer_speed (Params.c0 P) (Params.ny P) j)
  /\ fill_model (Params.set_model "circle" P) !! Z.to_nat (j * Params.nx P + i)
     = Some (circle_speed (Params.c0 P) (Params.nx P) (Params.ny P) i j)
  /\ length (fill_model (Params.set_model "two_layer" P))
     = Z.to_nat (Params.nx P * Params.ny P)
  /\ length (fill_model (Params.set_model "circle" P))
     = Z.to_nat (Params.nx P * Params.ny P).
Proof.
  intros Hx Hy Hn Hi Hj.
  assert (Hmul : Int.mul (Params.nx P) (Params.ny P) = Params.nx P * Params.ny P).
  { unfold Int.mul. apply wrap_small. unfold Int.INT_MIN, Int.INT_MAX in *. nia. }
  assert (Hhalf : forall n, 0 < n <= Int.INT_MAX -> Int.div n 2 = n / 2).
  { intros n Hn'. unfold Int.div. rewrite Z.quot_div_nonneg by lia.
    apply wrap_small. unfold Int.INT_MIN, Int.INT_MAX in *.
    split; [ assert (0 <= n / 2) by (apply Z.div_pos; lia); lia | ].
    assert (n / 2 <= n) by (apply Z.div_le_upper_bound; lia). lia. }
  assert (Hnx : 0 < Params.nx P <= Int.INT_MAX) by (unfold Int.INT_MAX in *; nia).
  assert (Hny : 0 < Params.ny P <= Int.INT_MAX) by (unfold Int.INT_MAX in *; nia).
  assert (Hsub : forall a n, 0 <= a < n -> 0 < n <= Int.INT_MAX ->
                             Int.sub a (Int.div n 2) = a - n / 2).
  { intros a n Ha Hn'. rewrite Hhalf by exact Hn'. unfold Int.sub. apply wrap_small.
    unfold Int.INT_MIN, Int.INT_MAX in *.
    assert (0 <= n / 2) by (apply Z.div_pos; lia).
    assert (n / 2 <= n) by (apply Z.div_le_upper_bound; lia). lia. }
  split; [ | split; [ | split ] ].
  - unfold fill_model. destruct P as [nx ny dx dt st fe pml c0 amp f0 sx sy cfl model].
    cbn [Params.set_model Params.model Params.nx Params.ny Params.c0] in *.
    change (String.eqb "two_layer" "homogeneous") with false.
    change (String.eqb "two_layer" "two_layer") with true. cbv iota.
    rewrite Hmul.
    rewrite (grid_fill_lookup
               (fun _ j => if Int.div ny 2 <=? j then (c0 * f32.lit 15 1)%f32 else c0))
      by (rewrite ?length_replicate; auto).
    unfold two_layer_speed. rewrite Hhalf by exact Hny. reflexivity.
  - unfold fill_model. destruct P as [nx ny dx dt st fe pml c0 amp f0 sx sy cfl model].
    cbn [Params.set_model Params.model Params.nx Params.ny Params.c0] in *.
    change (String.eqb "circle" "homogeneous") with false.
    change (String.eqb "circle" "two_layer") with false.
    change (String.eqb "circle" "circle") with true. cbv iota.
    rewrite Hmul.
    rewrite (grid_fill_lookup
               (fun i j =>
                  if f32.ltb (f32.of_int (Int.sub i (Int.div nx 2))
                              * f32.of_int (Int.sub i (Int.div nx 2))
                              + f32.of_int (Int.sub j (Int.div ny 2))
                                * f32.of_int (Int.sub j (Int.div ny 2)))%f32
                             ((f32.of_int nx * f32.lit 2 1) * (f32.of_int nx * f32.lit 2 1))%f32
                  then (c0 * f32.lit 7 1)%f32 else c0))
      by (rewrite ?length_replicate; auto).
    unfold circle_speed. rewrite !Hsub by assumption. reflexivity.
  - rewrite fill_model_length. destruct P; cbn in *. rewrite Hmul. reflexivity.
  - rewrite fill_model_length. destruct P; cbn in *. rewrite Hmul. reflexivity.
Qed.

(** X4. The two models with structure.  On a grid whose cells an [int]
    counts, the two-layer model gives the rows above the middle row
    [ny / 2] the speed [c0] and the middle row and the rows below it
    [c0 * 1.5f]; the circle model gives [c0 * 0.7f] to the cells whose
    squared distance to the middle cell is below [(nx * 0.2f)^2], in
    single precision, and [c0] to the others.  Both return a field of
    [nx * ny] cells. *)
Theorem fillCField_layers (P : Params) (i j : Z) :
  0 < Params.nx P -> 0 < Params.ny P -> Params.nx P * Params.ny P <= Int.INT_MAX ->
  0 <= i < Params.nx P -> 0 <= j < Params.ny P ->
  exists layers disk : list float32,
    fillCField (Params.set_model "two_layer" P) = Returned layers
    /\ fillCField (Params.set_model "circle" P) = Returned disk
    /\ layers !! Z.to_nat (j * Params.nx P + i)
       = Some (two_layer_speed (Params.c0 P) (Params.ny P) j)
    /\ disk !! Z.to_nat (j * Params.nx P + i)
       = Some (circle_speed (Params.c0 P) (Params.nx P) (Params.ny P) i j)
    /\ length layers = Z.to_nat (Params.nx P * Params.ny P)
    /\ length disk = Z.to_nat (Params.nx P * Params.ny P).
Proof.
  intros Hx Hy Hn Hi Hj.
  destruct (fill_model_layers P i j Hx Hy Hn Hi Hj) as (H1 & H2 & H3 & H4).
  assert (Hmul : forall m, 0 <= Int.mul (Params.nx (Params.set_model m P))
                                        (Params.ny (Params.set_model m P))).
  { intros m. destruct P; cbn [Params.set_model Params.nx Params.ny] in *.
    unfold Int.mul. rewrite wrap_small by (unfold Int.INT_MIN, Int.INT_MAX in *; nia). nia. }
  exists (fill_model (Params.set_model "two_layer" P)),
         (fill_model (Params.set_model "circle" P)).
  rewrite !fillCField_returns by apply Hmul. auto 10.
Qed.

Lemma fillCField_layers_witness :
  exists layers disk : list float32,
    fillCField (Params.set_model "two_layer" demo_params) = Returned layers
    /\ fillCField (Params.set_model "circle" demo_params) = Returned disk
    /\ layers !! Z.to_nat (2 * Params.nx demo_params + 1)
       = Some (two_layer_speed (Params.c0 demo_params) (Params.ny demo_params) 2)
    /\ disk !! Z.to_nat (2 * Params.nx demo_params + 1)
       = Some (circle_speed (Params.c0 demo_params) (Params.nx demo_params)
                 (Params.ny demo_params) 1 2)
    /\ length layers = Z.to_nat (Params.nx demo_params * Params.ny demo_params)
    /\ length disk = Z.to_nat (Params.nx demo_params * Params.ny demo_params).
Proof.
  apply (fillCField_layers demo_params 1 2); vm_compute; try split; congruence.
Defined.

(** ** The source *)

Section Accumulate.
Context {T : Type} `{EqDecision T} (tgt : T -> option (Z * float32)).

Lemma accumulate_cons (u : list float32) (t : T) (l : list T) :
  accumulate tgt u (t :: l)
  = accumulate tgt (match tgt t with Some (k, v) => atomicAdd u k v | None => u end) l.
Proof. reflexivity. Qed.

Lemma atomicAdd_length (u : list float32) (k : Z) (v : float32) :
  length (atomicAdd u k v) = length u.
Proof. apply store_length. Qed.

Lemma accumulate_length (l : list T) : forall u, length (accumulate tgt u l) = length u.
Proof.
  induction l as [|t l IH]; intros u; [ reflexivity | ].
  cbn. unfold accumulate in IH. rewrite IH.
  destruct (tgt t) as [[k v]|]; [ apply atomicAdd_length | reflexivity ].
Qed.

Lemma atomicAdd_other (u : list float32) (k : Z) (v : float32) (n : nat) :
  ((0 <=? k) && Nat.eqb (Z.to_nat k) n = false) ->
  atomicAdd u k v !! n = u !! n.
Proof.
  unfold atomicAdd, store. intros Hk.
  destruct (Z.ltb_spec k 0) as [Hneg|Hpos]; [ reflexivity | ].
  rewrite (proj2 (Z.leb_le 0 k) Hpos) in Hk. cbn in Hk. apply Nat.eqb_neq in Hk.
  apply list_lookup_insert_ne. exact Hk.
Qed.

(** A cell no turn adds to holds what it held. *)
Lemma accumulate_untouched (n : nat) (l : list T) :
  (forall t, In t l -> writes tgt n t = false) ->
  forall u, accumulate tgt u l !! n = u !! n.
Proof.
  induction l as [|t l IH]; intros Hl u; [ reflexivity | ].
  rewrite accumulate_cons.
  rewrite IH by (intros t' Ht'; apply Hl; right; exact Ht').
  specialize (Hl t (or_introl eq_refl)). unfold writes in Hl.
  destruct (tgt t) as [[k v]|]; [ | reflexivity ].
  apply atomicAdd_other, Hl.
Qed.

(** A cell one turn adds to, and no other, holds the sum. *)
Lemma accumulate_once (n : nat) (t0 : T) (k : Z) (v : float32) (l : list T) :
  NoDup l -> t0 ∈ l ->
  (forall t, In t l -> writes tgt n t = true -> t = t0) ->
  tgt t0 = Some (k, v) -> 0 <= k -> Z.to_nat k = n ->
  forall u, (n < length u)%nat ->
    accumulate tgt u l !! n = Some (load u k + v)%f32.
Proof.
  intros Hnd Hin Huniq Ht0 Hk Hn.
  induction l as [|t l IH]; intros u Hlen; [ inversion Hin | ].
  apply NoDup_cons in Hnd as [Hnotin Hnd].
  rewrite accumulate_cons.
  destruct (decide (t = t0)) as [->|Hne].
  - rewrite Ht0.
    rewrite accumulate_untouched.
    + unfold atomicAdd, store. rewrite (proj2 (Z.ltb_ge k 0) Hk), Hn.
      apply list_lookup_insert_eq. exact Hlen.
    + intros t Ht. destruct (writes tgt n t) eqn:Hw; [ | reflexivity ].
      exfalso. apply Hnotin. rewrite <- (Huniq t (or_intror Ht) Hw).
      apply list_elem_of_In. exact Ht.
  - assert (Hw : writes tgt n t = false).
    { destruct (writes tgt n t) eqn:Hw; [ | reflexivity ].
      exfalso. apply Hne. apply Huniq; [ left; reflexivity | exact Hw ]. }
    apply elem_of_cons in Hin as [Heq|Hin]; [ congruence | ].
    assert (Hsame : forall u', (match tgt t with Some (k', v') => atomicAdd u k' v' | None => u end) = u' ->
                               u' !! n = u !! n /\ length u' = length u).
    { intros u' <-. unfold writes in Hw. destruct (tgt t) as [[k' v']|]; [ | auto ].
      split; [ apply atomicAdd_other, Hw | apply atomicAdd_length ]. }
    destruct (Hsame _ eq_refl) as [Hcell Hlen'].
    rewrite IH; auto.
    + f_equal. f_equal. unfold load. rewrite (proj2 (Z.ltb_ge k 0) Hk), Hn.
      rewrite !list_lookup_total_alt, Hcell. reflexivity.
    + intros t' Ht'. apply Huniq. right. exact Ht'.
    + rewrite Hlen'. exact Hlen.
Qed.

End Accumulate.

Lemma add_source_accumulate `{R : Runtime} (u : list float32) (nx ny sx sy : Z) (val : float32) :
  add_source u nx ny sx sy val = accumulate (source_write nx ny sx sy val) u source_turns.
Proof.
  unfold add_source, source_turns.
  rewrite (foldl_nested (fun u ddx ddy =>
             if on_ring nx ny (Int.add sx ddx) (Int.add sy ddy) then u
             else atomicAdd u (idx nx (Int.add sx ddx) (Int.add sy ddy))
                    (val * source_weight ddx ddy)%f32)).
  unfold accumulate. generalize u.
  induction (ddy ← source_offsets; ddx ← source_offsets; [(ddx, ddy)]) as [|t l IH];
    intros u'; [ reflexivity | ].
  cbn [foldl]. rewrite IH. f_equal. unfold source_write.
  destruct (on_ring nx ny (Int.add sx t.1) (Int.add sy t.2)); reflexivity.
Qed.

Lemma elem_of_source_turns (ddx ddy : Z) :
  (ddx, ddy) ∈ source_turns <-> (-3 <= ddx <= 3) /\ (-3 <= ddy <= 3).
Proof.
  unfold source_turns. rewrite elem_of_pairs.
  assert (H : forall d, d ∈ source_offsets <-> -3 <= d <= 3).
  { intros d. change source_offsets with [-3; -2; -1; 0; 1; 2; 3].
    rewrite !elem_of_cons, elem_of_nil. lia. }
  rewrite !H. tauto.
Qed.

Lemma source_turns_NoDup : NoDup source_turns.
Proof. apply (bool_decide_unpack (NoDup source_turns)). vm_compute. exact I. Qed.

(** A turn of [add_source] that adds, adds to an interior cell. *)
Lemma source_write_interior `{R : Runtime} (nx ny sx sy : Z) (val : float32) (d : Z * Z)
    (k : Z) (v : float32) :
  0 < nx -> 0 < ny -> nx * ny <= Int.INT_MAX ->
  source_write nx ny sx sy val d = Some (k, v) ->
  interior nx ny (Int.add sx d.1) (Int.add sy d.2)
  /\ k = Int.add sy d.2 * nx + Int.add sx d.1
  /\ v = (val * source_weight d.1 d.2)%f32.
Proof.
  intros Hx Hy Hn. unfold source_write.
  destruct (on_ring nx ny (Int.add sx d.1) (Int.add sy d.2)) eqn:Hring; [ discriminate | ].
  intros [= <- <-].
  apply on_ring_interior in Hring; [ | unfold Int.INT_MIN, Int.INT_MAX in *; nia .. ].
  split; [ exact Hring | ]. split; [ | reflexivity ].
  destruct Hring as [Hi Hj]. apply (idx_exact nx ny); lia.
Qed.

(** X5. [add_source] on a grid whose cells an [int] counts, with the source
    at least three cells inside the range of an [int]: a cell on the
    boundary ring, or more than three columns or rows from the source,
    holds what it held; any other cell has gained [val] times the
    weight of its offset from the source, once. *)
Theorem add_source_cell `{R : Runtime} (u : list float32) (nx ny sx sy : Z)
    (val : float32) (i j : Z) :
  0 < nx -> 0 < ny -> nx * ny <= Int.INT_MAX ->
  length u = Z.to_nat (nx * ny) ->
  Int.INT_MIN + 3 <= sx <= Int.INT_MAX - 3 ->
  Int.INT_MIN + 3 <= sy <= Int.INT_MAX - 3 ->
  0 <= i < nx -> 0 <= j < ny ->
  add_source u nx ny sx sy val !! Z.to_nat (j * nx + i)
  = if on_ring nx ny i j || (3 <? Z.abs (i - sx)) || (3 <? Z.abs (j - sy))
    then u !! Z.to_nat (j * nx + i)
    else Some (load u (j * nx + i) + val * source_weight (i - sx) (j - sy))%f32.
Proof.
  intros Hx Hy Hn Hlen Hsx Hsy Hi Hj.
  assert (Hk : 0 <= j * nx + i < nx * ny) by nia.
  assert (Hadd : forall s d, Int.INT_MIN + 3 <= s <= Int.INT_MAX - 3 -> -3 <= d <= 3 ->
                             Int.add s d = s + d).
  { intros s d Hs Hd. unfold Int.add. apply wrap_small. lia. }
  rewrite add_source_accumulate.
  assert (Hwriter : forall d, d ∈ source_turns ->
            writes (source_write nx ny sx sy val) (Z.to_nat (j * nx + i)) d = true ->
            d = (i - sx, j - sy) /\ on_ring nx ny i j = false).
  { intros [ddx ddy] Hin Hw. apply elem_of_source_turns in Hin as [Hdx Hdy].
    unfold writes in Hw.
    destruct (source_write nx ny sx sy val (ddx, ddy)) as [[k v]|] eqn:Hsw; [ | discriminate ].
    apply source_write_interior in Hsw as ([Hxi Hyi] & -> & _); try assumption.
    cbn [fst snd] in *. rewrite !Hadd in * by assumption.
    apply andb_true_iff in Hw as [_ Hw]. apply Nat.eqb_eq in Hw.
    assert ((sy + ddy) * nx + (sx + ddx) = j * nx + i) by nia.
    assert (sy + ddy = j) by nia. assert (sx + ddx = i) by nia.
    split; [ f_equal; lia | ].
    apply on_ring_interior; [ unfold Int.INT_MIN, Int.INT_MAX in *; nia .. | ].
    split; lia. }
  destruct (on_ring nx ny i j || (3 <? Z.abs (i - sx)) || (3 <? Z.abs (j - sy))) eqn:Hout.
  - apply accumulate_untouched. intros d Hd.
    destruct (writes _ _ d) eqn:Hw; [ | reflexivity ]. exfalso.
    apply list_elem_of_In in Hd.
    destruct (Hwriter d Hd Hw) as [-> Hring].
    apply elem_of_source_turns in Hd.
    rewrite Hring in Hout. cbn in Hout.
    apply orb_true_iff in Hout as [Hout|Hout]; apply Z.ltb_lt in Hout; lia.
  - apply orb_false_iff in Hout as [Hout Hfar2]. apply orb_false_iff in Hout as [Hring Hfar1].
    apply Z.ltb_ge in Hfar1, Hfar2.
    assert (Hin : (i - sx, j - sy) ∈ source_turns) by (apply elem_of_source_turns; lia).
    apply (accumulate_once _ _ (i - sx, j - sy) (j * nx + i)).
    + apply source_turns_NoDup.
    + exact Hin.
    + intros d Hd Hw. apply list_elem_of_In in Hd. apply (Hwriter d Hd Hw).
    + unfold source_write. cbn [fst snd]. rewrite !Hadd by lia.
      replace (sx + (i - sx)) with i by lia. replace (sy + (j - sy)) with j by lia.
      rewrite Hring. rewrite (idx_exact nx ny) by lia. reflexivity.
    + lia.
    + reflexivity.
    + rewrite Hlen. lia.
Qed.

Lemma add_source_cell_witness :
  add_source (H := ref_runtime) (replicate 25 (f32.of_int 1)) 5 5 2 2 (f32.of_int 2)
    !! Z.to_nat (1 * 5 + 3)
  = if on_ring 5 5 3 1 || (3 <? Z.abs (3 - 2)) || (3 <? Z.abs (1 - 2))
    then replicate 25 (f32.of_int 1) !! Z.to_nat (1 * 5 + 3)
    else Some (load (replicate 25 (f32.of_int 1)) (1 * 5 + 3)
               + f32.of_int 2 * source_weight (H := ref_runtime) (3 - 2) (1 - 2))%f32.
Proof.
  apply (add_source_cell (R := ref_runtime)); unfold Int.INT_MIN, Int.INT_MAX;
    first [ lia | reflexivity ].
Defined.

(** ** The main loop, turn by turn *)

Section MainTurns.
Context `{R : Runtime}.
Variable P : Params.

Local Abbreviation next := (next_field P).
Local Abbreviation turn :=
  (main_step P (fill_model P) (make_sponge (Params.nx P) (Params.ny P) (Params.pml P))).

(** What a turn does to the buffers: they rotate. *)
Lemma main_step_buffers (st : MainState) (n : Z) :
  crashed st = false ->
  d_u0 (turn st n) = d_u1 st /\ d_u1 (turn st n) = next st /\ d_u2 (turn st n) = d_u0 st.
Proof.
  intros Hc. unfold main_step, next_field. rewrite Hc. unfold emit_frame, report.
  repeat match goal with |- context [if ?b then _ else _] => destruct b end;
    cbn [d_u0 d_u1 d_u2]; auto.
Qed.

(** What a turn writes, with a frame interval other than zero. *)
Lemma main_step_out (st : MainState) (n : Z) :
  crashed st = false -> Params.frames_every P <> 0 ->
  crashed (turn st n) = false
  /\ out (turn st n)
     = out st
       ++ (if (Int.rem n REPORT_STEPS =? 0) && (0 <? n)
           then [Perf ((acc st + elapsed_ms n) / f32.of_int REPORT_STEPS)%f32;
                 Energy (energy_of P n (next st))]
           else [])
       ++ (if Int.rem n (Params.frames_every P) =? 0
           then [Frame (field_bytes (take (Z.to_nat (cells P)) (next st)))]
           else [])
  /\ acc (turn st n)
     = if (Int.rem n REPORT_STEPS =? 0) && (0 <? n) then f32.of_int 0
       else (acc st + elapsed_ms n)%f32.
Proof.
  intros Hc Hfe. unfold main_step, next_field. rewrite Hc. unfold emit_frame, report.
  rewrite (proj2 (Z.eqb_neq _ 0) Hfe).
  destruct ((Int.rem n REPORT_STEPS =? 0) && (0 <? n));
    destruct (Int.rem n (Params.frames_every P) =? 0);
    cbn [out acc crashed d_u1]; rewrite <- ?app_assoc, ?app_nil_r; auto.
Qed.

Lemma main_loop_running (k : nat) :
  Params.frames_every P <> 0 -> crashed (main_loop P k) = false.
Proof.
  intros Hfe. destruct (main_loop_frames P k) as [_ ->].
  rewrite (proj2 (Z.eqb_neq _ 0) Hfe). reflexivity.
Qed.

Lemma field_after_succ (k : nat) :
  crashed (main_loop P k) = false ->
  field_after P (Z.of_nat k) = next (main_loop P k).
Proof.
  intros Hc. unfold field_after. rewrite Nat2Z.id, main_loop_succ.
  apply (main_step_buffers _ _ Hc).
Qed.

Lemma next_length (st : MainState) : length (next st) = length (d_u2 st).
Proof. unfold next. rewrite add_source_length, step_launch_length. reflexivity. Qed.

Lemma report_turns_succ (k : nat) :
  report_turns (S k)
  = report_turns k
    ++ (if (Int.rem (Z.of_nat k) REPORT_STEPS =? 0) && (0 <? Z.of_nat k)
        then [Z.of_nat k] else []).
Proof. unfold report_turns. rewrite zrange_succ, List.filter_app. reflexivity. Qed.

Lemma perfs_of_app (l1 l2 : list output) : perfs_of (l1 ++ l2) = perfs_of l1 ++ perfs_of l2.
Proof. unfold perfs_of. apply omap_app. Qed.

Lemma energies_of_concat (l1 l2 : list output) :
  energies_of (l1 ++ l2) = energies_of l1 ++ energies_of l2.
Proof. unfold energies_of. apply omap_app. Qed.

(** The frames written are the fields after the turns whose number the
    interval divides. *)
Lemma main_loop_snapshots (k : nat) :
  Params.frames_every P <> 0 ->
  frames_of (out (main_loop P k))
  = map (fun n => field_bytes (field_after P n)) (frame_turns (Params.frames_every P) k).
Proof.
  intros Hfe. induction k as [|k IH]; [ reflexivity | ].
  pose proof (main_loop_running k Hfe) as Hc.
  rewrite frame_turns_succ, map_app, <- IH, main_loop_succ.
  destruct (main_step_out (main_loop P k) (Z.of_nat k) Hc Hfe) as (_ & Hout & _).
  rewrite Hout, !frames_of_app. f_equal.
  replace (frames_of (if (Int.rem (Z.of_nat k) REPORT_STEPS =? 0) && (0 <? Z.of_nat k)
                      then _ else _)) with (@nil (list Z))
    by (destruct (_ && _); reflexivity).
  cbn [app].
  destruct (Int.rem (Z.of_nat k) (Params.frames_every P) =? 0); [ | reflexivity ].
  cbn. rewrite (field_after_succ k Hc).
  rewrite take_ge; [ reflexivity | ].
  rewrite next_length. destruct (main_loop_sized P k) as (_ & _ & ->). lia.
Qed.

End MainTurns.

(** X7. The frames of a run with a frame interval other than zero, when
    [k] turns have completed: one for each turn [n < k] whose number
    the interval divides, in order, and the frame of turn [n] is the
    bytes of the current field [d_u1] as that turn left it, every
    cell of it, four bytes each. *)
Theorem frames_are_snapshots `{R : Runtime} (P : Params) (k : nat) :
  Params.frames_every P <> 0 ->
  frames_of (out (main_loop P k))
  = map (fun n => field_bytes (field_after P n)) (frame_turns (Params.frames_every P) k)
  /\ (forall n, n ∈ frame_turns (Params.frames_every P) k ->
        0 <= n < Z.of_nat k /\ Z.rem n (Params.frames_every P) = 0
        /\ length (field_after P n) = Z.to_nat (cells P)).
Proof.
  intros Hfe. split; [ apply main_loop_snapshots, Hfe | ].
  intros n Hn. unfold frame_turns in Hn. apply list_elem_of_In, filter_In in Hn as [Hin Hrem].
  apply list_elem_of_In, elem_of_zrange in Hin. apply Z.eqb_eq in Hrem.
  split; [ exact Hin | ]. split; [ exact Hrem | ].
  unfold field_after. destruct (main_loop_sized P (S (Z.to_nat n))) as (_ & -> & _).
  reflexivity.
Qed.

Lemma frames_are_snapshots_witness :
  frames_of (out (main_loop (H := ref_runtime) demo_params 12))
  = map (fun n => field_bytes (field_after (H := ref_runtime) demo_params n))
        (frame_turns (Params.frames_every demo_params) 12)
  /\ (forall n, n ∈ frame_turns (Params.frames_every demo_params) 12 ->
        0 <= n < Z.of_nat 12 /\ Z.rem n (Params.frames_every demo_params) = 0
        /\ length (field_after (H := ref_runtime) demo_params n)
           = Z.to_nat (cells demo_params)).
Proof.
  apply (frames_are_snapshots (R := ref_runtime) demo_params 12). discriminate.
Defined.

(** ** The report *)

Section Reports.
Context `{R : Runtime}.
Variable P : Params.
Hypothesis interval : Params.frames_every P <> 0.

Lemma step_times_snoc (a b : Z) :
  a <= b -> step_times a (b + 1) = (step_times a b + elapsed_ms b)%f32.
Proof.
  intros Hab. unfold step_times.
  replace (b + 1 - a) with ((b - a) + 1) by lia.
  rewrite seqZ_app by lia. rewrite foldl_app.
  replace (a + (b - a)) with b by lia. reflexivity.
Qed.

Lemma step_times_empty (a : Z) : step_times a a = f32.of_int 0.
Proof. unfold step_times. rewrite Z.sub_diag. reflexivity. Qed.

Lemma acc_start_bounds (k : Z) : 0 <= k -> 0 <= acc_start k <= k.
Proof.
  intros Hk. unfold acc_start, REPORT_STEPS.
  destruct (Z.leb_spec k 100); [ lia | ].
  pose proof (Z.div_mod (k - 1) 100 ltac:(lia)).
  pose proof (Z.mod_pos_bound (k - 1) 100 ltac:(lia)). lia.
Qed.

Lemma acc_start_succ (k : Z) :
  0 <= k ->
  acc_start (k + 1)
  = if (Int.rem k REPORT_STEPS =? 0) && (0 <? k) then k + 1 else acc_start k.
Proof.
  intros Hk. unfold acc_start, Int.rem, REPORT_STEPS.
  rewrite Z.rem_mod_nonneg by lia.
  pose proof (Z.div_mod k 100 ltac:(lia)).
  pose proof (Z.mod_pos_bound k 100 ltac:(lia)).
  replace (k + 1 - 1) with k by lia.
  destruct (Z.eqb_spec (k mod 100) 0) as [Hm|Hm]; cbn [andb].
  - destruct (Z.ltb_spec 0 k) as [Hpos|Hzero].
    + rewrite (proj2 (Z.leb_gt (k + 1) 100)) by lia. lia.
    + rewrite (proj2 (Z.leb_le (k + 1) 100)), (proj2 (Z.leb_le k 100)) by lia. reflexivity.
  - destruct (Z.leb_spec (k + 1) 100) as [Hle|Hgt].
    + rewrite (proj2 (Z.leb_le k 100)) by lia. reflexivity.
    + rewrite (proj2 (Z.leb_gt k 100)) by lia.
      pose proof (Z.div_mod (k - 1) 100 ltac:(lia)).
      pose proof (Z.mod_pos_bound (k - 1) 100 ltac:(lia)).
      assert ((k - 1) / 100 = k / 100) by lia. lia.
Qed.

Lemma window_start_report (k : Z) :
  0 <= k -> (Int.rem k REPORT_STEPS =? 0) && (0 <? k) = true -> window_start k = acc_start k.
Proof.
  intros Hk Hrep. apply andb_true_iff in Hrep as [Hrem Hpos].
  apply Z.eqb_eq in Hrem. apply Z.ltb_lt in Hpos.
  unfold Int.rem in Hrem. rewrite Z.rem_mod_nonneg in Hrem by (unfold REPORT_STEPS; lia).
  unfold window_start, acc_start, REPORT_STEPS in *.
  destruct (Z.leb_spec k 100); [ reflexivity | ].
  pose proof (Z.div_mod k 100 ltac:(lia)).
  pose proof (Z.div_mod (k - 1) 100 ltac:(lia)).
  pose proof (Z.mod_pos_bound (k - 1) 100 ltac:(lia)).
  assert ((k - 1) / 100 = k / 100 - 1) by lia. lia.
Qed.

(** The times added up since the last report, and the reports so far. *)
Lemma main_loop_reports (k : nat) :
  acc (main_loop P k) = step_times (acc_start (Z.of_nat k)) (Z.of_nat k)
  /\ energies_of (out (main_loop P k))
     = map (fun n => energy_of P n (field_after P n)) (report_turns k)
  /\ perfs_of (out (main_loop P k))
     = map (fun n => (step_times (window_start n) (n + 1) / f32.of_int REPORT_STEPS)%f32)
           (report_turns k).
Proof.
  induction k as [|k (IHacc & IHen & IHperf)].
  - repeat split; reflexivity.
  - pose proof (main_loop_running P k interval) as Hc.
    rewrite main_loop_succ.
    destruct (main_step_out P (main_loop P k) (Z.of_nat k) Hc interval) as (_ & Hout & Hacc).
    rewrite Hout, Hacc, report_turns_succ, !map_app, <- IHen, <- IHperf.
    rewrite !energies_of_concat, !perfs_of_app.
    replace (energies_of (if Int.rem (Z.of_nat k) (Params.frames_every P) =? 0 then _ else _))
      with (@nil float32)
      by (destruct (Int.rem (Z.of_nat k) (Params.frames_every P) =? 0); reflexivity).
    replace (perfs_of (if Int.rem (Z.of_nat k) (Params.frames_every P) =? 0 then _ else _))
      with (@nil float32)
      by (destruct (Int.rem (Z.of_nat k) (Params.frames_every P) =? 0); reflexivity).
    rewrite !app_nil_r.
    replace (Z.of_nat (S k)) with (Z.of_nat k + 1) by lia.
    rewrite acc_start_succ by lia.
    pose proof (acc_start_bounds (Z.of_nat k) ltac:(lia)) as Hb.
    destruct ((Int.rem (Z.of_nat k) REPORT_STEPS =? 0) && (0 <? Z.of_nat k)) eqn:Hrep.
    + split; [ symmetry; apply step_times_empty | ].
      cbn. rewrite (field_after_succ P k Hc).
      split; [ reflexivity | ].
      rewrite (window_start_report (Z.of_nat k) ltac:(lia) Hrep), step_times_snoc, IHacc by lia.
      reflexivity.
    + rewrite step_times_snoc, IHacc by lia. repeat split; reflexivity.
Qed.

Lemma report_turns_count (k : nat) :
  Z.of_nat (length (report_turns k)) = Z.max 0 (Z.of_nat k - 1) / REPORT_STEPS.
Proof.
  induction k as [|k IH]; [ reflexivity | ].
  rewrite report_turns_succ, length_app, Nat2Z.inj_add, IH.
  unfold Int.rem, REPORT_STEPS. rewrite Z.rem_mod_nonneg by lia.
  replace (Z.of_nat (S k) - 1) with (Z.of_nat k) by lia.
  rewrite (Z.max_r 0 (Z.of_nat k)) by lia.
  pose proof (Z.div_mod (Z.of_nat k) 100 ltac:(lia)).
  pose proof (Z.mod_pos_bound (Z.of_nat k) 100 ltac:(lia)).
  destruct k as [|k]; [ reflexivity | ].
  rewrite Z.max_r by lia.
  pose proof (Z.div_mod (Z.of_nat (S k) - 1) 100 ltac:(lia)).
  pose proof (Z.mod_pos_bound (Z.of_nat (S k) - 1) 100 ltac:(lia)).
  destruct (Z.eqb_spec (Z.of_nat (S k) mod 100) 0) as [Hm|Hm]; cbn [andb].
  - rewrite (proj2 (Z.ltb_lt 0 _)) by lia. cbn [length].
    assert ((Z.of_nat (S k) - 1) / 100 = Z.of_nat (S k) / 100 - 1) by lia. lia.
  - cbn [length].
    assert ((Z.of_nat (S k) - 1) / 100 = Z.of_nat (S k) / 100) by lia. lia.
Qed.

End Reports.

(** X8. The reports of a run with a frame interval other than zero, when
    [k] turns have completed: one at the end of every turn [n] with
    [n > 0] that 100 divides, so none while the first 100 turns run
    and [(k - 1) / 100] in all.  The energy reported at turn [n] is the
    reduction of the field that turn left, every block of the launch
    added once, in the order the device has the blocks of that launch
    add to the total (the sum in single precision may depend on it).
    The step time reported is the sum of the times of the turns since
    the report before, divided by 100: the first report, at turn 100,
    counts the 101 turns 0 to 100, every later one 100 turns. *)
Theorem reports_emitted `{R : Runtime} (P : Params) (k : nat) :
  Params.frames_every P <> 0 ->
  energies_of (out (main_loop P k))
  = map (fun n => energy_of P n (field_after P n)) (report_turns k)
  /\ (forall n u, exists sched,
        Permutation sched (zrange (energy_blocks P))
        /\ energy_of P n u = sum_energy_kernel sched u f32.zero (cells P))
  /\ perfs_of (out (main_loop P k))
     = map (fun n => (step_times (window_start n) (n + 1) / f32.of_int REPORT_STEPS)%f32)
           (report_turns k)
  /\ Z.of_nat (length (report_turns k)) = Z.max 0 (Z.of_nat k - 1) / REPORT_STEPS
  /\ window_start 100 = 0 /\ window_start 200 = 101
  /\ (forall n, n ∈ report_turns k -> 0 < n < Z.of_nat k /\ Z.rem n REPORT_STEPS = 0).
Proof.
  intros Hfe. destruct (main_loop_reports P Hfe k) as (_ & Hen & Hperf).
  split; [ exact Hen | ].
  split; [ intros n u; exists (block_order n (energy_blocks P));
           split; [ apply block_order_all | reflexivity ] | ].
  split; [ exact Hperf | ].
  split; [ apply report_turns_count | ]. split; [ reflexivity | ]. split; [ reflexivity | ].
  intros n Hn. unfold report_turns in Hn. apply list_elem_of_In, filter_In in Hn as [Hin Hrep].
  apply list_elem_of_In, elem_of_zrange in Hin.
  apply andb_true_iff in Hrep as [Hrem Hpos]. apply Z.eqb_eq in Hrem. apply Z.ltb_lt in Hpos.
  split; [ lia | exact Hrem ].
Qed.

Lemma reports_emitted_witness :
  energies_of (out (main_loop (H := ref_runtime) demo_params 101))
  = map (fun n => energy_of (H := ref_runtime) demo_params n (field_after (H := ref_runtime) demo_params n))
        (report_turns 101)
  /\ (forall n u, exists sched,
        Permutation sched (zrange (energy_blocks demo_params))
        /\ energy_of (H := ref_runtime) demo_params n u
           = sum_energy_kernel sched u f32.zero (cells demo_params))
  /\ perfs_of (out (main_loop (H := ref_runtime) demo_params 101))
     = map (fun n => (step_times (H := ref_runtime) (window_start n) (n + 1)
                      / f32.of_int REPORT_STEPS)%f32)
           (report_turns 101)
  /\ Z.of_nat (length (report_turns 101)) = Z.max 0 (Z.of_nat 101 - 1) / REPORT_STEPS
  /\ window_start 100 = 0 /\ window_start 200 = 101
  /\ (forall n, n ∈ report_turns 101 -> 0 < n < Z.of_nat 101 /\ Z.rem n REPORT_STEPS = 0).
Proof.
  apply (reports_emitted (R := ref_runtime) demo_params 101). discriminate.
Defined.

(** With the reference times of one millisecond a step, the first
    report says 1.01 and the second 1. *)
Example first_report_counts_101 :
  perfs_of (out (main_loop (H := ref_runtime) demo_params 201))
  = [(f32.of_int 101 / f32.of_int 100)%f32; f32.of_int 1].
Proof. vm_compute. reflexivity. Qed.

(** ** The boundary ring *)

Lemma step_launch_ring `{R : Runtime} (sched : list (Z * Z))
    (u0 u1 u2 c sponge : list float32) (nx ny : Z) (dt dx alpha : float32) (i j : Z) :
  0 < nx -> 0 < ny -> nx * ny <= Int.INT_MAX ->
  length u2 = Z.to_nat (nx * ny) ->
  0 <= i < nx -> 0 <= j < ny -> on_ring nx ny i j = true ->
  step_launch sched u0 u1 u2 c sponge nx ny dt dx alpha !! Z.to_nat (j * nx + i)
  = u2 !! Z.to_nat (j * nx + i).
Proof.
  intros Hx Hy Hn Hlen Hi Hj Hring.
  assert (Hrx : Int.INT_MIN < nx <= Int.INT_MAX) by (unfold Int.INT_MIN, Int.INT_MAX in *; nia).
  assert (Hry : Int.INT_MIN < ny <= Int.INT_MAX) by (unfold Int.INT_MIN, Int.INT_MAX in *; nia).
  rewrite step_launch_scatter.
  rewrite (scatter_lookup _ f32.zero).
  - destruct (existsb _ sched) eqn:Hex; [ | reflexivity ].
    exfalso. apply existsb_exists in Hex as ([i' j'] & _ & Hw).
    unfold writes, step_write in Hw. cbn [fst snd] in Hw.
    destruct (on_ring nx ny i' j') eqn:Hring'; [ discriminate Hw | ].
    apply on_ring_interior in Hring' as [Hi' Hj']; try assumption.
    rewrite (idx_exact nx ny) in Hw by lia.
    apply andb_true_iff in Hw as [_ Hw]. apply Nat.eqb_eq in Hw.
    assert (j' * nx + i' = j * nx + i) by nia.
    assert (j' = j) by nia. assert (i' = i) by nia. subst i' j'.
    assert (Hint : interior nx ny i j) by (split; assumption).
    apply on_ring_interior in Hint; try assumption. congruence.
  - intros [i' j'] k v _ Hw Hk0 Heq. exfalso.
    unfold step_write in Hw. cbn [fst snd] in Hw.
    destruct (on_ring nx ny i' j') eqn:Hring'; [ discriminate Hw | ].
    injection Hw as <- _.
    apply on_ring_interior in Hring' as [Hi' Hj']; try assumption.
    rewrite (idx_exact nx ny) in Heq by lia.
    assert (j' * nx + i' = j * nx + i) by nia.
    assert (j' = j) by nia. assert (i' = i) by nia. subst i' j'.
    assert (Hint : interior nx ny i j) by (split; assumption).
    apply on_ring_interior in Hint; try assumption. congruence.
  - rewrite Hlen. nia.
Qed.

Lemma add_source_ring `{R : Runtime} (u : list float32) (nx ny sx sy : Z) (val : float32)
    (i j : Z) :
  0 < nx -> 0 < ny -> nx * ny <= Int.INT_MAX ->
  0 <= i < nx -> 0 <= j < ny -> on_ring nx ny i j = true ->
  add_source u nx ny sx sy val !! Z.to_nat (j * nx + i) = u !! Z.to_nat (j * nx + i).
Proof.
  intros Hx Hy Hn Hi Hj Hring.
  rewrite add_source_accumulate. apply accumulate_untouched.
  intros d _. destruct (writes _ _ d) eqn:Hw; [ | reflexivity ]. exfalso.
  unfold writes in Hw.
  destruct (source_write nx ny sx sy val d) as [[k v]|] eqn:Hsw; [ | discriminate ].
  apply source_write_interior in Hsw as ([Hxi Hyi] & -> & _); try assumption.
  apply andb_true_iff in Hw as [_ Hw]. apply Nat.eqb_eq in Hw.
  assert (Int.add sy d.2 * nx + Int.add sx d.1 = j * nx + i) by nia.
  assert (Int.add sy d.2 = j) by nia. assert (Int.add sx d.1 = i) by nia.
  assert (Hint : interior nx ny i j) by (split; lia).
  apply on_ring_interior in Hint;
    [ congruence | unfold Int.INT_MIN, Int.INT_MAX in *; nia .. ].
Qed.

(** The four bytes of cell [n] in the bytes of a field. *)
Lemma field_bytes_cell (u : list float32) (n : nat) (x : float32) :
  u !! n = Some x -> take 4 (drop (4 * n) (field_bytes u)) = f32_bytes x.
Proof.
  revert n. induction u as [|y u IH]; intros n Hn; [ discriminate | ].
  unfold field_bytes. cbn [map concat]. fold (field_bytes u).
  destruct n as [|n].
  - cbn in Hn. injection Hn as ->. change (4 * 0)%nat with 0%nat. rewrite drop_0.
    apply take_app_length'. exact (f32_bytes_length x).
  - cbn in Hn. replace (4 * S n)%nat with (length (f32_bytes y) + 4 * n)%nat
      by (rewrite f32_bytes_length; lia).
    rewrite drop_app_add'; [ | reflexivity ]. apply IH, Hn.
Qed.

Section Ring.
Context `{R : Runtime}.
Variables (P : Params) (i j : Z).
Hypothesis grid : 0 < Params.nx P /\ 0 < Params.ny P
                  /\ Params.nx P * Params.ny P <= Int.INT_MAX.
Hypothesis cell : 0 <= i < Params.nx P /\ 0 <= j < Params.ny P.
Hypothesis ring : on_ring (Params.nx P) (Params.ny P) i j = true.

Lemma main_loop_ring (k : nat) :
  cell_clear (Params.nx P) i j (d_u0 (main_loop P k))
  /\ cell_clear (Params.nx P) i j (d_u1 (main_loop P k))
  /\ cell_clear (Params.nx P) i j (d_u2 (main_loop P k))
  /\ Forall (fun f => take 4 (drop (4 * Z.to_nat (j * Params.nx P + i)) f) = [0; 0; 0; 0])
            (frames_of (out (main_loop P k))).
Proof.
  destruct grid as (Hx & Hy & Hn). destruct cell as [Hi Hj].
  assert (Hcells : Z.to_nat (cells P) = Z.to_nat (Params.nx P * Params.ny P)).
  { unfold cells. rewrite size_mul_exact by assumption. reflexivity. }
  induction k as [|k (IH0 & IH1 & IH2 & IHf)].
  - unfold main_loop. change (zrange (Z.of_nat 0)) with (@nil Z). cbn [foldl].
    unfold cell_clear, main_init. cbn [d_u0 d_u1 d_u2 out]. rewrite Hcells.
    repeat split; try (apply lookup_replicate_2; nia). constructor.
  - rewrite main_loop_succ.
    destruct (crashed (main_loop P k)) eqn:Hc.
    { rewrite main_step_crashed by exact Hc. auto. }
    destruct (main_step_buffers P (main_loop P k) (Z.of_nat k) Hc) as (-> & E1 & ->).
    destruct (main_loop_sized P k) as (_ & _ & L2).
    assert (Hnew : cell_clear (Params.nx P) i j
                     (d_u1 (main_step P (fill_model P)
                              (make_sponge (Params.nx P) (Params.ny P) (Params.pml P))
                              (main_loop P k) (Z.of_nat k)))).
    { rewrite E1. unfold cell_clear, next_field.
      rewrite add_source_ring by assumption.
      rewrite step_launch_ring by (try assumption; rewrite L2; exact Hcells).
      exact IH2. }
    split; [ exact IH1 | ]. split; [ exact Hnew | ]. split; [ exact IH0 | ].
    unfold main_step. rewrite Hc.
    match goal with |- context [emit_frame P (report P ?s ?n) ?n] => set (st' := s) end.
    destruct (emit_frame_frames P (report P st' (Z.of_nat k)) (Z.of_nat k)) as [-> _].
    destruct (report_frames P st' (Z.of_nat k)) as (-> & _ & ->).
    apply Forall_app. split; [ exact IHf | ].
    destruct (_ || _); constructor; [ | constructor ].
    change (concat (map f32_bytes ?u)) with (field_bytes u).
    apply (field_bytes_cell _ _ f32.zero).
    rewrite lookup_take_lt by (rewrite Hcells; nia).
    rewrite E1 in Hnew. exact Hnew.
Qed.

End Ring.

(** X6. The boundary ring is never written.  On a grid whose cells an
    [int] counts, whatever the other parameters and however many turns
    have completed, each cell of the boundary ring holds [+0] in the
    three field buffers, and its four bytes are zero in every frame
    the run has written. *)
Theorem boundary_stays_zero `{R : Runtime} (P : Params) (k : nat) (i j : Z) :
  0 < Params.nx P /\ 0 < Params.ny P /\ Params.nx P * Params.ny P <= Int.INT_MAX ->
  0 <= i < Params.nx P /\ 0 <= j < Params.ny P ->
  on_ring (Params.nx P) (Params.ny P) i j = true ->
  cell_clear (Params.nx P) i j (d_u0 (main_loop P k))
  /\ cell_clear (Params.nx P) i j (d_u1 (main_loop P k))
  /\ cell_clear (Params.nx P) i j (d_u2 (main_loop P k))
  /\ Forall (fun f => take 4 (drop (4 * Z.to_nat (j * Params.nx P + i)) f) = [0; 0; 0; 0])
            (frames_of (out (main_loop P k))).
Proof. intros Hgrid Hcell Hring. exact (main_loop_ring P i j Hgrid Hcell Hring k). Qed.

Lemma boundary_stays_zero_witness :
  cell_clear (Params.nx demo_params) 2 1 (d_u0 (main_loop (H := ref_runtime) demo_params 30))
  /\ cell_clear (Params.nx demo_params) 2 1 (d_u1 (main_loop (H := ref_runtime) demo_params 30))
  /\ cell_clear (Params.nx demo_params) 2 1 (d_u2 (main_loop (H := ref_runtime) demo_params 30))
  /\ Forall (fun f => take 4 (drop (4 * Z.to_nat (1 * Params.nx demo_params + 2)) f)
                      = [0; 0; 0; 0])
            (frames_of (out (main_loop (H := ref_runtime) demo_params 30))).
Proof.
  apply (boundary_stays_zero (R := ref_runtime) demo_params 30 2 1).
  - vm_compute. repeat split; discriminate.
  - vm_compute. repeat split; discriminate.
  - reflexivity.
Defined.

(** ** The header line *)

Lemma main_loop_header `{R : Runtime} (P : Params) (k : nat) :
  exists rest,
    out (main_loop P k)
    = Header (Params.nx P) (Params.ny P) (Params.dt P) (Params.frames_every P) :: rest
    /\ forallb (fun o => negb (is_header o)) rest = true.
Proof.
  induction k as [|k (rest & Hout & Hrest)].
  - exists []. split; reflexivity.
  - rewrite main_loop_succ. unfold main_step.
    destruct (crashed (main_loop P k)); [ exists rest; auto | ].
    unfold emit_frame, report.
    repeat match goal with |- context [if ?b then _ else _] => destruct b end;
      cbn [out]; rewrite Hout;
      eexists; (split; [ rewrite <- ?app_assoc; rewrite <- ?app_comm_cons; reflexivity | ]);
      rewrite ?forallb_app, ?Hrest; reflexivity.
Qed.

Lemma resolve_dt_grid (P : Params) :
  Params.nx (resolve_dt P) = Params.nx P
  /\ Params.ny (resolve_dt P) = Params.ny P
  /\ Params.frames_every (resolve_dt P) = Params.frames_every P
  /\ cells (resolve_dt P) = cells P.
Proof. unfold resolve_dt, cells. destruct (f32.gtb _ _); auto. Qed.

(** X9. What [main] writes first.  When the command line is read without
    error, the process either ends in the set-up, before the header
    line, or writes the header line before anything else and never
    again.  It ends in the set-up exactly when one of the three
    vectors of the host cannot be had (the exception is not caught and
    nothing is written), when the [int] product [nx * ny] is negative
    ([std::length_error] from [resize]), or when a device call fails
    (the line of [CUDA_OK] and status 1).  The header carries the grid,
    the frame interval and the time step after it has been cut to the
    stability bound; a run of no step ([--steps 0], or a negative
    number) writes the header and nothing else.  When the parser ends
    the process, nothing is written. *)
Theorem main_header_first `{R : Runtime} (argv : list string) :
  match parse_args argv with
  | Returned P =>
      match main argv with
      | Returned st =>
          cells P < 4611686018427387904
          /\ (forall k, (k < 3)%nat -> vector_alloc k (cells P) = None)
          /\ 0 <= Int.mul (Params.nx P) (Params.ny P)
          /\ cuda_setup = None
          /\ exists rest,
               out st = Header (Params.nx P) (Params.ny P) (Params.dt (resolve_dt P))
                          (Params.frames_every P) :: rest
               /\ forallb (fun o => negb (is_header o)) rest = true
               /\ (Params.steps P <= 0 -> rest = [] /\ crashed st = false)
      | Exited s m =>
          s = 1 /\ cuda_setup = Some m
          /\ cells P < 4611686018427387904
          /\ (forall k, (k < 3)%nat -> vector_alloc k (cells P) = None)
          /\ 0 <= Int.mul (Params.nx P) (Params.ny P)
      | Terminated e =>
          (e = length_error /\ 4611686018427387904 <= cells P)
          \/ (exists k, (k < 3)%nat /\ vector_alloc k (cells P) = Some e)
          \/ (e = length_error /\ Int.mul (Params.nx P) (Params.ny P) < 0)
      end
  | Exited s m => main argv = Exited s m
  | Terminated e => main argv = Terminated e
  end.
Proof.
  unfold main. destruct (parse_args argv) as [P| |]; [ | reflexivity | reflexivity ].
  cbn [mbind outcome_bind mret outcome_ret].
  destruct (resolve_dt_grid P) as (Ex & Ey & Ef & Ec).
  unfold main_run, vector, fillCField, device_setup. rewrite Ec, Ex, Ey.
  destruct (Z.leb_spec 4611686018427387904 (cells P)) as [Hbig|Hsmall];
    cbn [mbind outcome_bind]; [ left; split; [ reflexivity | exact Hbig ] | ].
  destruct (vector_alloc 0 (cells P)) as [e|] eqn:Hv0; cbn [mbind outcome_bind];
    [ right; left; exists 0%nat; split; [ lia | exact Hv0 ] | ].
  destruct (Z.ltb_spec (Int.mul (Params.nx P) (Params.ny P)) 0) as [Hneg|Hpos];
    cbn [mbind outcome_bind]; [ right; right; split; [ reflexivity | exact Hneg ] | ].
  destruct (vector_alloc 1 (cells P)) as [e|] eqn:Hv1; cbn [mbind outcome_bind];
    [ right; left; exists 1%nat; split; [ lia | exact Hv1 ] | ].
  destruct (vector_alloc 2 (cells P)) as [e|] eqn:Hv2; cbn [mbind outcome_bind];
    [ right; left; exists 2%nat; split; [ lia | exact Hv2 ] | ].
  assert (Hall : forall k, (k < 3)%nat -> vector_alloc k (cells P) = None).
  { intros [|[|[|k]]] Hk; try assumption. lia. }
  destruct cuda_setup as [line|] eqn:Hc; cbn [mbind outcome_bind mret outcome_ret];
    [ repeat split; assumption | ].
  destruct (main_loop_header (resolve_dt P) (Z.to_nat (Params.steps P))) as (rest & Hout & Hrest).
  rewrite Ex, Ey, Ef in Hout.
  split; [ exact Hsmall | ]. split; [ exact Hall | ]. split; [ exact Hpos | ].
  split; [ reflexivity | ].
  exists rest. split; [ exact Hout | ]. split; [ exact Hrest | ].
  intros Hsteps. replace (Z.to_nat (Params.steps P)) with 0%nat in * by lia.
  split; [ | reflexivity ].
  destruct rest; [ reflexivity | discriminate Hout ].
Qed.

Example main_no_step :
  main (H := ref_runtime) ["engine"; "--nx"; "3"; "--ny"; "3"; "--steps"; "0"]
  = Returned (main_init (resolve_dt (Params.set_sy 1 (Params.set_sx 1
                (Params.set_steps 0 demo_params))))).
Proof. vm_compute. reflexivity. Qed.

(** A grid of [-1] by [1] cells is read without error; [(size_t)nx * ny]
    is then [2^64 - 1] and the first vector throws: the process ends
    with no header line, whatever the platform. *)
Example main_negative_grid `{R : Runtime} :
  parse_args ["engine"; "--nx"; "-1"; "--ny"; "1"]
  = Returned (Params.set_sy 0 (Params.set_sx 0 (Params.set_ny 1 (Params.set_nx (-1) Params.default))))
  /\ main ["engine"; "--nx"; "-1"; "--ny"; "1"] = Terminated length_error.
Proof.
  set (P0 := Params.set_sy 0 (Params.set_sx 0 (Params.set_ny 1 (Params.set_nx (-1) Params.default)))).
  assert (Hp : parse_args ["engine"; "--nx"; "-1"; "--ny"; "1"] = Returned P0)
    by (vm_compute; reflexivity).
  split; [ exact Hp | ].
  unfold main. rewrite Hp. cbn [mbind outcome_bind].
  unfold main_run, vector.
  destruct (resolve_dt_grid P0) as (_ & _ & _ & ->).
  reflexivity.
Qed.

(** ** Frames from the engine's memory to the client's array *)

Lemma binary32_finite (s : bool) (m : positive) (e : Z) :
  is_binary32 (S754_finite s m e) = true ->
  (Zpos m < 8388608 /\ e = -149)
  \/ (8388608 <= Zpos m < 16777216 /\ -149 <= e <= 104).
Proof.
  unfold is_binary32, valid_binary, bounded, canonical_mantissa, fexp, emin, f32.prec, f32.emax.
  intros H. apply andb_true_iff in H as [Hc He].
  apply Z.eqb_eq in Hc. apply Z.leb_le in He.
  pose proof (digits2_bounds m) as [Hlo Hhi].
  destruct (Z.lt_ge_cases (Zpos m) 8388608) as [Hsmall|Hbig].
  - left. split; [ exact Hsmall | ].
    pose proof (digits2_upper m 23 Hsmall). lia.
  - right.
    assert (Hd : 24 <= Zpos (digits2_pos m)).
    { destruct (Z.lt_ge_cases (Zpos (digits2_pos m)) 24) as [Hlt|]; [ | assumption ].
      exfalso.
      assert (2 ^ Zpos (digits2_pos m) <= 2 ^ 23) by (apply Z.pow_le_mono_r; lia).
      change (2 ^ 23) with 8388608 in *. lia. }
    assert (Hd' : Zpos (digits2_pos m) = 24) by lia.
    rewrite Hd' in Hhi. change (2 ^ 24) with 16777216 in Hhi. lia.
Qed.

Lemma f32_bits_range (x : float32) :
  is_binary32 x = true -> 0 <= f32_bits x < 4294967296.
Proof.
  intros H. destruct x as [[]|[]| |s m e]; cbn [f32_bits]; try lia.
  apply binary32_finite in H as [[Hm ->]|[Hm He]].
  - rewrite (proj2 (Z.ltb_lt _ _) Hm). destruct s; lia.
  - rewrite (proj2 (Z.ltb_ge _ _)) by lia. destruct s; lia.
Qed.

(** The number read from the bits of a binary32 number is that number. *)
Lemma f32_of_bits_bits (x : float32) :
  is_binary32 x = true -> f32_of_bits (f32_bits x) = x.
Proof.
  destruct x as [[]|[]| |s m e]; try reflexivity.
  intros H. apply binary32_finite in H as [[Hm ->]|[Hm He]]; unfold f32_bits, f32_of_bits.
  - rewrite (proj2 (Z.ltb_lt _ _) Hm).
    assert (Hq : ((if s then 2147483648 else 0) + Zpos m) / 8388608 = if s then 256 else 0).
    { symmetry. apply (Z.div_unique _ 8388608 _ (Zpos m)); destruct s; lia. }
    assert (Hr : ((if s then 2147483648 else 0) + Zpos m) mod 8388608 = Zpos m).
    { symmetry. apply (Z.mod_unique _ 8388608 (if s then 256 else 0)); destruct s; lia. }
    rewrite Hq, Hr.
    replace ((if s then 256 else 0) mod 256) with 0 by (destruct s; reflexivity).
    cbn [Z.eqb]. rewrite Pos2Z.id.
    replace (2147483648 <=? (if s then 2147483648 else 0) + Zpos m) with s
      by (destruct s; symmetry; [ apply Z.leb_le | apply Z.leb_gt ]; lia).
    reflexivity.
  - rewrite (proj2 (Z.ltb_ge _ _)) by lia.
    set (b := (if s then 2147483648 else 0) + ((e + 150) * 8388608 + (Zpos m - 8388608))).
    assert (Hq : b / 8388608 = (if s then 256 else 0) + (e + 150)).
    { symmetry. apply (Z.div_unique _ 8388608 _ (Zpos m - 8388608)); subst b; destruct s; lia. }
    assert (Hr : b mod 8388608 = Zpos m - 8388608).
    { symmetry. apply (Z.mod_unique _ 8388608 ((if s then 256 else 0) + (e + 150)));
        subst b; destruct s; lia. }
    rewrite Hq, Hr.
    assert (He' : ((if s then 256 else 0) + (e + 150)) mod 256 = e + 150).
    { symmetry. apply (Z.mod_unique _ 256 (if s then 1 else 0)); destruct s; lia. }
    rewrite He'.
    rewrite (proj2 (Z.eqb_neq (e + 150) 0)), (proj2 (Z.eqb_neq (e + 150) 255)) by lia.
    replace (Zpos m - 8388608 + 8388608) with (Zpos m) by lia.
    replace (e + 150 - 150) with e by lia. rewrite Pos2Z.id.
    replace (2147483648 <=? b) with s
      by (subst b; destruct s; symmetry; [ apply Z.leb_le | apply Z.leb_gt ]; lia).
    reflexivity.
Qed.

Lemma f32_of_bytes_bytes (x : float32) :
  is_binary32 x = true ->
  match f32_bytes x with
  | [b0; b1; b2; b3] => f32_of_bytes b0 b1 b2 b3 = x
  | _ => False
  end.
Proof.
  intros Hx. unfold f32_bytes, f32_of_bytes.
  pose proof (f32_bits_range x Hx) as Hb.
  rewrite <- (f32_of_bits_bits x Hx) at 5. f_equal.
  set (b := f32_bits x) in *.
  Z.div_mod_to_equations. lia.
Qed.

Lemma f32_bytes_bounded (x : float32) : Forall (fun b => 0 <= b < 256) (f32_bytes x).
Proof.
  unfold f32_bytes. repeat constructor; apply Z.mod_pos_bound; lia.
Qed.

(** X13. The round trip of a frame.  The bytes [fwrite] sends for a field of
    binary32 numbers are four for each cell, each a byte, and the
    client's [Float32Array] over them holds the field again, cell for
    cell (a NaN as a NaN); over a number of bytes that is no multiple
    of four it cannot be made. *)
Theorem frame_round_trip (u : list float32) (extra : list Z) :
  Forall (fun x => is_binary32 x = true) u ->
  Float32Array (field_bytes u) = Some u
  /\ length (field_bytes u) = (4 * length u)%nat
  /\ Forall (fun b => 0 <= b < 256) (field_bytes u)
  /\ ((0 < length extra < 4)%nat -> Float32Array (field_bytes u ++ extra) = None).
Proof.
  intros Hu. split; [ | split; [ | split ] ].
  - induction Hu as [|x u Hx Hu IH]; [ reflexivity | ].
    unfold field_bytes. cbn [map concat]. fold (field_bytes u).
    pose proof (f32_of_bytes_bytes x Hx) as Hb.
    destruct (f32_bytes x) as [|b0 [|b1 [|b2 [|b3 [|]]]]]; try contradiction.
    cbn [app Float32Array]. rewrite IH, Hb. reflexivity.
  - apply frame_bytes_length.
  - unfold field_bytes. apply Forall_concat, Forall_map, Forall_forall.
    intros x _. apply f32_bytes_bounded.
  - intros Hex. clear Hu. induction u as [|x u IH].
    + cbn. destruct extra as [|e0 [|e1 [|e2 [|e3 extra]]]]; cbn in *; try reflexivity; lia.
    + unfold field_bytes. cbn [map concat]. fold (field_bytes u).
      pose proof (f32_bytes_length x) as Hl.
      destruct (f32_bytes x) as [|b0 [|b1 [|b2 [|b3 [|]]]]]; try discriminate.
      cbn [app Float32Array]. rewrite IH. reflexivity.
Qed.

Lemma frame_round_trip_witness :
  Float32Array (field_bytes [f32.of_int 1; f32.lit 5 2; f32.nan; S754_zero true])
  = Some [f32.of_int 1; f32.lit 5 2; f32.nan; S754_zero true]
  /\ length (field_bytes [f32.of_int 1; f32.lit 5 2; f32.nan; S754_zero true])
     = (4 * length [f32.of_int 1; f32.lit 5 2; f32.nan; S754_zero true])%nat
  /\ Forall (fun b => 0 <= b < 256)
            (field_bytes [f32.of_int 1; f32.lit 5 2; f32.nan; S754_zero true])
  /\ ((0 < length [7; 7] < 4)%nat ->
      Float32Array (field_bytes [f32.of_int 1; f32.lit 5 2; f32.nan; S754_zero true] ++ [7; 7])
      = None).
Proof.
  apply (frame_round_trip [f32.of_int 1; f32.lit 5 2; f32.nan; S754_zero true] [7; 7]).
  repeat constructor.
Defined.

(** ** The wavelet *)

Lemma sub_self (x : float32) : f32.is_finite x = true -> (x - x)%f32 = f32.zero.
Proof.
  destruct x as [[]| | |s m e]; try discriminate; intros _; try reflexivity.
  unfold f32.sub, SFsub. rewrite Z.sub_diag. reflexivity.
Qed.

(** X11. The wavelet at its delay.  At the time [1.0f / f0], for a
    frequency [f0] with [1.0f / f0] and the double [M_PI * f0] finite
    (so [f0] is a number other than zero), the argument [a] of the
    wavelet is a zero and the wavelet is [1 * expf(-0)]: the value 1
    when [expf] maps zero to 1. *)
Theorem ricker_at_delay `{R : Runtime} (f0 : float32) :
  f32.is_finite (f32.of_int 1 / f0)%f32 = true ->
  f32.is_finite (f64.mul f64.M_PI (f64.of_f32 f0)) = true ->
  ricker (f32.of_int 1 / f0)%f32 f0 = (f32.of_int 1 * expf (S754_zero true))%f32
  /\ (expf (S754_zero true) = f32.of_int 1 ->
      ricker (f32.of_int 1 / f0)%f32 f0 = f32.of_int 1).
Proof.
  intros Hdelay Hpi.
  assert (Hr : ricker (f32.of_int 1 / f0)%f32 f0 = (f32.of_int 1 * expf (S754_zero true))%f32).
  { unfold ricker. rewrite (sub_self _ Hdelay). unfold f64.of_f32 in *.
    destruct (f64.mul f64.M_PI f0) as [sz|sz| |sz mz ez]; try discriminate Hpi;
      destruct sz; reflexivity. }
  split; [ exact Hr | ]. intros Hexp. rewrite Hr, Hexp. reflexivity.
Qed.

Lemma ricker_at_delay_witness :
  ricker (H := ref_runtime) (f32.of_int 1 / f32.of_int 8)%f32 (f32.of_int 8)
  = (f32.of_int 1 * expf (Runtime := ref_runtime) (S754_zero true))%f32
  /\ (expf (Runtime := ref_runtime) (S754_zero true) = f32.of_int 1 ->
      ricker (H := ref_runtime) (f32.of_int 1 / f32.of_int 8)%f32 (f32.of_int 8)
      = f32.of_int 1).
Proof.
  apply (ricker_at_delay (R := ref_runtime) (f32.of_int 8)); reflexivity.
Defined.

(** ** The energy of a field with one cell set *)












Section SingleCell.
Variables (u : list float32) (N i0 : Z) (v : float32).
Hypothesis range : 0 <= i0 < N.
Hypothesis cell : u !! Z.to_nat i0 = Some v.
Hypothesis others : forall i, 0 <= i < N -> i <> i0 -> f32.is_zero (load u i) = true.






End SingleCell.



(** ** The mask, mirrored *)

(** X12. The sponge mask is the same seen from either side.  On a grid
    whose cells an [int] counts, a cell, its mirror image in the middle
    column and its mirror image in the middle row have the same mask,
    whatever the thickness and whatever [powf] is; and the mask has
    one cell for each cell of the grid. *)
Theorem make_sponge_mirrored `{R : Runtime} (nx ny w i j : Z) :
  0 < nx -> 0 < ny -> nx * ny <= Int.INT_MAX ->
  0 <= i < nx -> 0 <= j < ny ->
  make_sponge nx ny w !! Z.to_nat (j * nx + (nx - 1 - i))
  = make_sponge nx ny w !! Z.to_nat (j * nx + i)
  /\ make_sponge nx ny w !! Z.to_nat ((ny - 1 - j) * nx + i)
     = make_sponge nx ny w !! Z.to_nat (j * nx + i)
  /\ length (make_sponge nx ny w) = Z.to_nat (nx * ny).
Proof.
  intros Hx Hy Hn Hi Hj.
  assert (Hnx : 0 < nx <= Int.INT_MAX) by (unfold Int.INT_MAX in *; nia).
  assert (Hny : 0 < ny <= Int.INT_MAX) by (unfold Int.INT_MAX in *; nia).
  rewrite !make_sponge_cell by (try assumption; lia).
  rewrite !edge_distance_exact by (try assumption; lia).
  replace (nx - 1 - (nx - 1 - i)) with i by lia.
  replace (ny - 1 - (ny - 1 - j)) with j by lia.
  rewrite (Z.min_comm (nx - 1 - i) i), (Z.min_comm (ny - 1 - j) j).
  split; [ reflexivity | ]. split; [ reflexivity | ].
  rewrite make_sponge_length, size_mul_exact by assumption. reflexivity.
Qed.

Lemma make_sponge_mirrored_witness :
  make_sponge (H := ref_runtime) 8 6 3 !! Z.to_nat (2 * 8 + (8 - 1 - 1))
  = make_sponge (H := ref_runtime) 8 6 3 !! Z.to_nat (2 * 8 + 1)
  /\ make_sponge (H := ref_runtime) 8 6 3 !! Z.to_nat ((6 - 1 - 2) * 8 + 1)
     = make_sponge (H := ref_runtime) 8 6 3 !! Z.to_nat (2 * 8 + 1)
  /\ length (make_sponge (H := ref_runtime) 8 6 3) = Z.to_nat (8 * 6).
Proof.
  apply (make_sponge_mirrored (R := ref_runtime) 8 6 3 1 2); unfold Int.INT_MAX; lia.
Defined.

(** ** The relay: lines of text *)

Section TextLines.
Context {char : Type}.
Variable newline : char -> bool.

Lemma split_line_none (s : list char) :
  split_line newline s = None <-> forallb (fun c => negb (newline c)) s = true.
Proof.
  induction s as [|c s IH]; cbn; [ tauto | ].
  destruct (newline c); cbn; [ split; discriminate | ].
  destruct (split_line newline s) as [[l r]|]; [ | tauto ].
  split; [ discriminate | ]. intros H. apply IH in H. discriminate H.
Qed.

Lemma split_line_app (cur s : list char) :
  forallb (fun c => negb (newline c)) cur = true ->
  split_line newline (cur ++ s)
  = match split_line newline s with
    | Some (l, r) => Some (cur ++ l, r)
    | None => None
    end.
Proof.
  induction cur as [|c cur IH]; intros Hcur.
  - cbn. destruct (split_line newline s) as [[l r]|]; reflexivity.
  - cbn in Hcur. apply andb_true_iff in Hcur as [Hc Hcur].
    cbn. destruct (newline c); [ discriminate Hc | ].
    rewrite (IH Hcur). destruct (split_line newline s) as [[l r]|]; reflexivity.
Qed.

Lemma text_lines_rest (s : list char) :
  forall cur, forallb (fun c => negb (newline c)) cur = true ->
              forallb (fun c => negb (newline c)) (text_lines newline cur s).2 = true.
Proof.
  induction s as [|c s IH]; intros cur Hcur; [ exact Hcur | ].
  cbn [text_lines]. destruct (newline c) eqn:Hc.
  - specialize (IH [] eq_refl). destruct (text_lines newline [] s). exact IH.
  - apply IH. rewrite forallb_app, Hcur. cbn. rewrite Hc. reflexivity.
Qed.

Lemma text_lines_app (s1 s2 : list char) :
  forall cur,
    text_lines newline cur (s1 ++ s2)
    = ((text_lines newline cur s1).1
         ++ (text_lines newline (text_lines newline cur s1).2 s2).1,
       (text_lines newline (text_lines newline cur s1).2 s2).2).
Proof.
  induction s1 as [|c s1 IH]; intros cur.
  - cbn. destruct (text_lines newline cur s2); reflexivity.
  - cbn [app text_lines]. destruct (newline c).
    + rewrite (IH []). destruct (text_lines newline [] s1) as [ls r]. reflexivity.
    + apply IH.
Qed.

End TextLines.

Section StderrLines.
Context {char : Type}.
Variables (newline : char -> bool) (trim : list char -> list char)
          (classify : list char -> Relay.stderr_line).

(** The loop handles the lines of the text in order and leaves the
    unfinished line; the fuel given is enough. *)
Lemma stderr_loop_lines (fuel : nat) :
  forall (ws : Relay.session) (cur s : list char),
    forallb (fun c => negb (newline c)) cur = true ->
    (length s <= fuel)%nat ->
    stderr_loop newline trim classify fuel ws (cur ++ s)
    = (foldl (on_text_line trim classify) ws (text_lines newline cur s).1,
       (text_lines newline cur s).2).
Proof.
  induction fuel as [|fuel IH]; intros ws cur s Hcur Hfuel.
  - destruct s; [ | cbn in Hfuel; lia ]. rewrite app_nil_r. reflexivity.
  - revert cur Hcur. induction s as [|c s IHs]; intros cur Hcur.
    + rewrite app_nil_r. cbn [stderr_loop text_lines fst snd foldl].
      rewrite (proj2 (split_line_none newline cur) Hcur). reflexivity.
    + cbn [text_lines]. destruct (newline c) eqn:Hc.
      * cbn [stderr_loop]. rewrite (split_line_app newline cur (c :: s) Hcur).
        cbn [split_line]. rewrite Hc, app_nil_r.
        specialize (IH (on_text_line trim classify ws cur) [] s eq_refl
                       ltac:(cbn in Hfuel; lia)).
        cbn [app] in IH.
        destruct (text_lines newline [] s) as [ls r]. cbn [fst snd foldl] in *.
        unfold on_text_line at 2. unfold on_text_line in IH.
        destruct (trim cur); exact IH.
      * replace (cur ++ c :: s) with ((cur ++ [c]) ++ s) by (rewrite <- app_assoc; reflexivity).
        apply IHs; [ cbn in Hfuel; lia | ].
        rewrite forallb_app, Hcur. cbn. rewrite Hc. reflexivity.
Qed.

Lemma on_stderr_lines (ws : Relay.session) (buf chunk : list char) :
  forallb (fun c => negb (newline c)) buf = true ->
  on_stderr newline trim classify (ws, buf) chunk
  = (foldl (on_text_line trim classify) ws (text_lines newline buf chunk).1,
     (text_lines newline buf chunk).2).
Proof.
  intros Hbuf. unfold on_stderr. cbn [fst snd].
  apply stderr_loop_lines; [ exact Hbuf | rewrite length_app; lia ].
Qed.

Lemma on_stderr_chunks (chunks : list (list char)) :
  forall (ws : Relay.session) (buf : list char),
    forallb (fun c => negb (newline c)) buf = true ->
    foldl (on_stderr newline trim classify) (ws, buf) chunks
    = on_stderr newline trim classify (ws, buf) (concat chunks).
Proof.
  induction chunks as [|c chunks IH]; intros ws buf Hbuf.
  - cbn [foldl concat]. rewrite on_stderr_lines by exact Hbuf. reflexivity.
  - cbn [foldl concat]. rewrite (on_stderr_lines ws buf c Hbuf).
    rewrite IH by (apply text_lines_rest; exact Hbuf).
    rewrite !on_stderr_lines by (try apply text_lines_rest; exact Hbuf).
    rewrite text_lines_app. cbn [fst snd]. rewrite foldl_app. reflexivity.
Qed.

End StderrLines.

(** X14. The text of the engine is handled line by line however it is cut
    into chunks.  From an empty buffer, the chunks one after the other
    leave the session and the buffer that their concatenation, come as
    one chunk, leaves: every complete line, trimmed, has been handled
    once and in order, an empty one skipped, and the buffer holds the
    unfinished line, with no newline in it. *)
Theorem stderr_lines_reassembled {char : Type} (newline : char -> bool)
    (trim : list char -> list char) (classify : list char -> Relay.stderr_line)
    (ws : Relay.session) (chunks : list (list char)) :
  foldl (on_stderr newline trim classify) (ws, []) chunks
  = on_stderr newline trim classify (ws, []) (concat chunks)
  /\ on_stderr newline trim classify (ws, []) (concat chunks)
     = (foldl (on_text_line trim classify) ws (text_lines newline [] (concat chunks)).1,
        (text_lines newline [] (concat chunks)).2)
  /\ split_line newline (foldl (on_stderr newline trim classify) (ws, []) chunks).2 = None.
Proof.
  assert (H1 := on_stderr_chunks newline trim classify chunks ws [] eq_refl).
  assert (H2 := on_stderr_lines newline trim classify ws [] (concat chunks) eq_refl).
  split; [ exact H1 | ]. split; [ exact H2 | ].
  rewrite H1, H2. cbn [snd].
  apply (proj2 (split_line_none newline _)). apply text_lines_rest. reflexivity.
Qed.

(** The header in two pieces: the frame size is set once the newline
    has come. *)
Example stderr_header_split :
  let newline := Ascii.eqb "010" in
  let classify (l : list ascii) :=
    if decide (l = String.list_ascii_of_string "HEADER nx=3 ny=3") then Relay.HeaderLine 3 3
    else Relay.OtherLine in
  let st1 := on_stderr newline id classify (Relay.connected, [])
               (String.list_ascii_of_string "HEADER nx=") in
  let st2 := on_stderr newline id classify st1
               (String.list_ascii_of_string ("3 ny=3" ++ String "010" "PERF")) in
  Relay.frameSize st1.1 = 0%nat /\ Relay.frameSize st2.1 = 36%nat
  /\ st2.2 = String.list_ascii_of_string "PERF".
Proof. vm_compute. repeat split; reflexivity. Qed.

(** ** The relay: what is sent, over a whole connection *)

Section Session.
Import Relay.

Lemma headers_seen_snoc (evs : list event) (e : event) :
  headers_seen (evs ++ [e])
  = headers_seen evs
    ++ match e with Stderr (HeaderLine nx ny) => [(nx, ny)] | _ => [] end.
Proof.
  unfold headers_seen. rewrite omap_app.
  destruct e as [| | | | |[]]; cbn; rewrite ?app_nil_r; reflexivity.
Qed.

Lemma sized_by_mono (hs hs' : list (nat * nat)) (n : nat) :
  sized_by hs n -> sized_by (hs ++ hs') n.
Proof.
  intros (nx & ny & Hin & Hn & H0). exists nx, ny.
  split; [ apply elem_of_app; left; exact Hin | auto ].
Qed.

(** The frame size the session holds is zero or that of a header line
    of the connection, and every binary message sent was a frame of
    such a size. *)
Lemma handle_sized (evs : list event) (ws : session) (e : event) :
  (frameSize ws = 0%nat \/ sized_by (headers_seen evs) (frameSize ws)) ->
  Forall (fun f => sized_by (headers_seen evs) (length f)) (binaries (sent ws)) ->
  (frameSize (handle ws e) = 0%nat
   \/ sized_by (headers_seen (evs ++ [e])) (frameSize (handle ws e)))
  /\ Forall (fun f => sized_by (headers_seen (evs ++ [e])) (length f))
            (binaries (sent (handle ws e))).
Proof.
  intros Hsize Hall. rewrite headers_seen_snoc.
  assert (Hall' : forall hs', Forall (fun f => sized_by (headers_seen evs ++ hs') (length f))
                                     (binaries (sent ws))).
  { intros hs'. eapply Forall_impl; [ exact Hall | ]. intros f. apply sized_by_mono. }
  assert (Hsize' : forall hs', frameSize ws = 0%nat
                               \/ sized_by (headers_seen evs ++ hs') (frameSize ws)).
  { intros hs'. destruct Hsize; [ left | right; apply sized_by_mono ]; assumption. }
  destruct e as [cfg| | |p|chunk|l]; cbn [handle].
  - destruct (is_open ws); cbn; auto.
  - destruct (is_open ws); cbn; auto.
  - cbn. auto.
  - cbn. auto.
  - unfold on_stdout. destruct (is_open ws); cbn [negb]; [ | auto ].
    destruct (Nat.eqb_spec (frameSize ws) 0) as [H0|H0]; cbn [frameSize sent]; [ auto | ].
    destruct (forward_spec (frameSize ws) (length (stdoutBuffer ws ++ chunk))
                (stdoutBuffer ws ++ chunk) (sent ws) ltac:(lia) ltac:(lia))
      as (fs & -> & _ & Hfs & _).
    cbn [frameSize sent]. split; [ auto | ].
    rewrite binaries_app, binaries_map. apply Forall_app. split; [ auto | ].
    destruct (Hsize' []) as [Hz|Hs]; [ contradiction | ].
    eapply Forall_impl; [ exact Hfs | ]. intros f Hf. cbn beta in Hf. rewrite Hf. exact Hs.
  - assert (Hsent : forall m, (forall f, m <> Binary f) ->
              Forall (fun f => sized_by (headers_seen evs
                                 ++ match l with HeaderLine nx ny => [(nx, ny)] | _ => [] end)
                                (length f))
                     (binaries (ws_send ws m))).
    { intros m Hm. unfold ws_send. destruct (is_open ws); [ | apply Hall' ].
      rewrite binaries_app. apply Forall_app. split; [ apply Hall' | ].
      destruct m; [ constructor | constructor | exfalso; exact (Hm _ eq_refl) ]. }
    destruct l as [nx ny|v|v|]; cbn [on_stderr_line frameSize sent].
    + split; [ | apply Hsent; discriminate ].
      destruct (Nat.eq_dec (nx * ny * 4)%nat 0%nat) as [Hz|Hnz]; [ left; exact Hz | right ].
      exists nx, ny. split; [ | auto ]. apply elem_of_app. right.
      apply list_elem_of_singleton. reflexivity.
    + split; [ apply Hsize' | apply Hsent; discriminate ].
    + split; [ apply Hsize' | apply Hsent; discriminate ].
    + split; [ apply Hsize' | apply Hall' ].
Qed.

Lemma session_sized (evs : list event) :
  (frameSize (foldl handle connected evs) = 0%nat
   \/ sized_by (headers_seen evs) (frameSize (foldl handle connected evs)))
  /\ Forall (fun f => sized_by (headers_seen evs) (length f))
            (binaries (sent (foldl handle connected evs))).
Proof.
  induction evs as [|e evs [IH1 IH2]] using rev_ind.
  - split; [ left; reflexivity | constructor ].
  - rewrite foldl_app. cbn [foldl]. apply handle_sized; assumption.
Qed.

Lemma handle_closed (ws : session) (e : event) :
  is_open ws = false ->
  is_open (handle ws e) = false /\ sent (handle ws e) = sent ws
  /\ length (procs (handle ws e)) = length (procs ws)
  /\ (engineProc ws = None -> engineProc (handle ws e) = None).
Proof.
  intros Hc. destruct e as [cfg| | |p|chunk|l]; cbn [handle]; rewrite ?Hc.
  - auto.
  - auto.
  - unfold on_close, stopEngine. cbn. repeat split; auto.
    destruct (engineProc ws); [ apply kill_length | reflexivity ].
  - unfold on_exit. cbn. repeat split; auto.
    + destruct (procs ws !! p) as [[st a]|]; [ apply length_insert | reflexivity ].
    + intros ->. destruct (decide (None = Some p)); reflexivity.
  - unfold on_stdout. rewrite Hc. cbn. auto.
  - destruct l; cbn; unfold ws_send; rewrite ?Hc; auto.
Qed.

Lemma closed_stays (evs : list event) :
  forall ws, is_open ws = false -> engineProc ws = None ->
    is_open (foldl handle ws evs) = false /\ sent (foldl handle ws evs) = sent ws
    /\ length (procs (foldl handle ws evs)) = length (procs ws)
    /\ engineProc (foldl handle ws evs) = None.
Proof.
  induction evs as [|e evs IH]; intros ws Hc Hp; [ auto | ].
  cbn [foldl]. destruct (handle_closed ws e Hc) as (Hc' & Hs & Hl & Hp').
  destruct (IH (handle ws e) Hc' (Hp' Hp)) as (-> & -> & -> & ->). auto.
Qed.

End Session.

(** X15. What the relay sends as a frame, over a whole connection.  After
    any events of a connection (start and stop commands, chunks and
    lines of any engine, exits, the close), every binary message sent
    has the size [nx * ny * 4] of a header line the connection has
    had before, and that size is not zero: nothing binary is sent
    before a header line, and no partial frame. *)
Theorem binaries_sized_by_header (evs : list Relay.event) :
  Forall (fun f => exists nx ny : nat,
                     (nx, ny) ∈ headers_seen evs
                     /\ length f = (nx * ny * 4)%nat /\ length f <> 0%nat)
         (Relay.binaries (Relay.sent (foldl Relay.handle Relay.connected evs)))
  /\ (headers_seen evs = [] ->
      Relay.binaries (Relay.sent (foldl Relay.handle Relay.connected evs)) = []).
Proof.
  destruct (session_sized evs) as [_ Hall]. split; [ exact Hall | ].
  intros Hnone. rewrite Hnone in Hall.
  destruct (Relay.binaries _) as [|f fs]; [ reflexivity | ].
  apply Forall_cons in Hall as [(nx & ny & Hin & _) _]. inversion Hin.
Qed.

(** X18. After the close of a connection.  Whatever comes after the [close]
    event (chunks and lines of an engine that has not gone yet, its
    exit), nothing more is sent, no engine is started, and the
    connection has no engine handle. *)
Theorem closed_session_quiet (ws : Relay.session) (evs : list Relay.event) :
  Relay.is_open (foldl Relay.handle (Relay.on_close ws) evs) = false
  /\ Relay.sent (foldl Relay.handle (Relay.on_close ws) evs) = Relay.sent ws
  /\ length (Relay.procs (foldl Relay.handle (Relay.on_close ws) evs))
     = length (Relay.procs ws)
  /\ Relay.engineProc (foldl Relay.handle (Relay.on_close ws) evs) = None.
Proof.
  destruct (closed_stays evs (Relay.on_close ws) eq_refl eq_refl) as (H1 & H2 & H3 & H4).
  split; [ exact H1 | ]. split; [ exact H2 | ]. split; [ | exact H4 ].
  rewrite H3. unfold Relay.on_close, Relay.stopEngine. cbn.
  destruct (Relay.engineProc ws); [ apply kill_length | reflexivity ].
Qed.

Example closed_session_drops_frame :
  Relay.sent (foldl Relay.handle Relay.connected
                ([Relay.Start demo_config; Relay.Stderr (Relay.HeaderLine 3 3); Relay.Close]
                 ++ [Relay.Stdout demo_stream]))
  = [Relay.Meta 3 3].
Proof. vm_compute. reflexivity. Qed.

(** ** The relay: the buffer at a start command *)

Section Restart.
Import Relay.

Lemma handle_keeps_size (ws : session) (e : event) :
  keeps_frame_size e = true -> frameSize ws = 0%nat ->
  frameSize (handle ws e) = 0%nat /\ binaries (sent (handle ws e)) = binaries (sent ws).
Proof.
  intros He H0. destruct e as [cfg| | |p|chunk|l]; try discriminate He; cbn [handle].
  - destruct (is_open ws); cbn; auto.
  - cbn. auto.
  - cbn. auto.
  - unfold on_stdout. destruct (is_open ws); cbn [negb]; [ | auto ].
    rewrite H0. cbn. auto.
  - destruct l; try discriminate He; cbn [on_stderr_line frameSize sent]; unfold ws_send;
      destruct (is_open ws); rewrite ?binaries_app; cbn [binaries omap];
      rewrite ?app_nil_r; auto.
Qed.

End Restart.



(** X17. After a stop.  From a stop command on, as long as no start command
    and no header line comes, nothing binary is sent, whatever the
    engine that was sent the signal still writes: its chunks are kept
    in the buffer, none is forwarded. *)
Theorem stopped_session_holds_frames (ws : Relay.session) (evs : list Relay.event) :
  forallb keeps_frame_size evs = true ->
  Relay.binaries (Relay.sent (foldl Relay.handle (Relay.stopEngine ws) evs))
  = Relay.binaries (Relay.sent ws)
  /\ Relay.frameSize (foldl Relay.handle (Relay.stopEngine ws) evs) = 0%nat.
Proof.
  intros Hevs.
  assert (H : forall ws', Relay.frameSize ws' = 0%nat ->
            Relay.binaries (Relay.sent (foldl Relay.handle ws' evs))
            = Relay.binaries (Relay.sent ws')
            /\ Relay.frameSize (foldl Relay.handle ws' evs) = 0%nat).
  { induction evs as [|e evs IH]; intros ws' H0; [ auto | ].
    cbn in Hevs. apply andb_true_iff in Hevs as [He Hevs].
    destruct (handle_keeps_size ws' e He H0) as [H0' Hb].
    cbn [foldl]. destruct (IH Hevs _ H0') as [-> ->]. auto. }
  apply (H (Relay.stopEngine ws) eq_refl).
Qed.

Lemma stopped_session_holds_frames_witness :
  Relay.binaries
    (Relay.sent (foldl Relay.handle
                   (Relay.stopEngine
                      (foldl Relay.handle Relay.connected
                         [Relay.Start demo_config; Relay.Stderr (Relay.HeaderLine 3 3)]))
                   [Relay.Stdout demo_stream; Relay.Exit 0]))
  = Relay.binaries
      (Relay.sent (foldl Relay.handle Relay.connected
                     [Relay.Start demo_config; Relay.Stderr (Relay.HeaderLine 3 3)]))
  /\ Relay.frameSize
       (foldl Relay.handle
          (Relay.stopEngine
             (foldl Relay.handle Relay.connected
                [Relay.Start demo_config; Relay.Stderr (Relay.HeaderLine 3 3)]))
          [Relay.Stdout demo_stream; Relay.Exit 0]) = 0%nat.
Proof.
  apply (stopped_session_holds_frames _ [Relay.Stdout demo_stream; Relay.Exit 0]).
  reflexivity.
Defined.

(** ** The client *)

Lemma updateEnergyChart_last {A : Type} (h : list A) (v : A) :
  (length h <= Client.MAX_HISTORY)%nat ->
  Client.updateEnergyChart h v
  = drop (length (h ++ [v]) - Client.MAX_HISTORY) (h ++ [v])
  /\ (length (Client.updateEnergyChart h v) <= Client.MAX_HISTORY)%nat.
Proof.
  intros Hh. unfold Client.updateEnergyChart.
  rewrite length_app. cbn [length].
  destruct (Nat.ltb_spec Client.MAX_HISTORY (length h + 1)) as [Hfull|Hroom].
  - replace (length h + 1 - Client.MAX_HISTORY)%nat with 1%nat by lia.
    destruct (h ++ [v]) as [|x l] eqn:Hl; [ destruct h; discriminate | ].
    split; [ reflexivity | ].
    assert (length (x :: l) = length h + 1)%nat by (rewrite <- Hl, length_app; reflexivity).
    cbn in *. lia.
  - replace (length h + 1 - Client.MAX_HISTORY)%nat with 0%nat by lia.
    split; [ reflexivity | rewrite length_app; cbn; lia ].
Qed.

(** X19. The energy chart keeps the last 200 values.  After any values
    pushed onto an empty history, the history holds the last
    [MAX_HISTORY] of them, in order, or all of them when they are
    fewer: never more than [MAX_HISTORY]. *)
Theorem energy_history_window {A : Type} (vs : list A) :
  foldl Client.updateEnergyChart [] vs = drop (length vs - Client.MAX_HISTORY) vs
  /\ (length (foldl Client.updateEnergyChart [] vs) <= Client.MAX_HISTORY)%nat.
Proof.
  induction vs as [|v vs [IH IHlen]] using rev_ind.
  - split; [ reflexivity | cbn; lia ].
  - rewrite foldl_app. cbn [foldl].
    destruct (updateEnergyChart_last _ v IHlen) as [-> Hlen]. split; [ | exact Hlen ].
    rewrite IH.
    replace (drop (length vs - Client.MAX_HISTORY) vs ++ [v])
      with (drop (length vs - Client.MAX_HISTORY) (vs ++ [v]))
      by (rewrite drop_app_le by lia; reflexivity).
    rewrite drop_drop, length_drop. f_equal. rewrite !length_app. cbn. lia.
Qed.

(** ** The frame queue *)

Section FrameQueue.
Context {F : Type}.

Lemma received_app (l1 l2 : list (Client.queue_event F)) :
  Client.received (l1 ++ l2) = Client.received l1 ++ Client.received l2.
Proof. unfold Client.received. apply omap_app. Qed.

Lemma queue_in_order (evs : list (Client.queue_event F)) :
  let st := foldl Client.queue_step ([], []) evs in
  st.2 ++ st.1 `sublist_of` Client.received evs
  /\ (forallb (fun e => negb (Client.is_cleared e)) evs = true ->
      st.2 ++ st.1 = Client.received evs).
Proof.
  induction evs as [|e evs [IH1 IH2]] using rev_ind; [ split; reflexivity | ].
  rewrite foldl_app, received_app, forallb_app. cbn [foldl].
  destruct (foldl Client.queue_step ([], []) evs) as [q shown]. cbn [fst snd] in *.
  destruct e as [f| |]; cbn [Client.queue_step Client.received omap fst snd
                               Client.is_cleared forallb negb andb].
  - rewrite app_assoc. split.
    + apply sublist_app; [ exact IH1 | reflexivity ].
    + intros H. rewrite andb_true_r in H. rewrite (IH2 H). reflexivity.
  - rewrite !app_nil_r. split.
    + etransitivity; [ apply sublist_inserts_r | exact IH1 ]. reflexivity.
    + intros H. rewrite andb_false_r in H. discriminate H.
  - rewrite app_nil_r. destruct q as [|f q]; cbn [fst snd].
    + split; [ exact IH1 | ]. intros H. rewrite andb_true_r in H. exact (IH2 H).
    + rewrite <- app_assoc. cbn [app].
      split; [ exact IH1 | ]. intros H. rewrite andb_true_r in H. exact (IH2 H).
Qed.

End FrameQueue.

(** X20. The frames the client renders.  After any messages, clicks and
    animation turns, the frames rendered so far followed by the frames
    still queued are frames received, in the order received, each at
    most once; and as long as the queue has not been emptied (by a
    [meta] message or a button) they are all the frames received: none
    is dropped, none rendered out of order. *)
Theorem frames_rendered_in_order {F : Type} (evs : list (Client.queue_event F)) :
  (foldl Client.queue_step ([], []) evs).2 ++ (foldl Client.queue_step ([], []) evs).1
    `sublist_of` Client.received evs
  /\ (forallb (fun e => negb (Client.is_cleared e)) evs = true ->
      (foldl Client.queue_step ([], []) evs).2 ++ (foldl Client.queue_step ([], []) evs).1
      = Client.received evs).
Proof. exact (queue_in_order evs). Qed.

(** ** The colormap of the renderer *)



Example colormap_unknown_ignored :
  foldl Client.setColormap "turbo" ["seismic"; "viridis"] = "seismic"
  /\ Client.mapIndex (foldl Client.setColormap "turbo" ["seismic"; "viridis"]) = 1.
Proof. vm_compute. split; reflexivity. Qed.
